(** * Schema inference and reconciliation of the bulker: a Rocq model

    The development follows the Go sources:
    - [types] package, fields file: [BatchHeader.Exists], [Field],
      [Fields] and their methods ([NewField], [NewFieldWithSQLType],
      [Field.GetType], [Field.Merge], [Field.GetSuggestedSQLType],
      [Fields.Merge], [Fields.Clone], [Fields.OverrideTypes],
      [Fields.Add], [Fields.Header]);
    - [types/table.go]: [Table], [Table.Exists],
      [Table.SortedColumnNames], [Table.Clone], [Table.Diff],
      [BuildConstraintName], and [GoogleConfig.Validate];
    - [bulkerlib/implementations/api_based/mixpanel.go]:
      [MixpanelBulker.CreateStream] and [MixpanelBulker.Upload].

    Go maps are reference objects, so the fields file is modelled over an
    explicit store of map objects; [range] over a map visits the keys in an
    unspecified order, so every loop over a map takes the visiting order as
    an argument. *)

From Stdlib Require Import ZArith Lia.
From stdpp Require Import base option list gmap sets strings fin_maps sorting.

Local Open Scope string_scope.

(** ** Data types *)

(** Modelled from the spec: the declaration of [DataType] lies outside
    the files modelled here.  The spec (section 3) enumerates the primitive
    kinds unknown, boolean, integer, floating-point, timestamp and string;
    the fields file itself only names [UNKNOWN]. *)
Inductive DataType : Type :=
  | UNKNOWN
  | BOOL
  | INT64
  | FLOAT64
  | STRING
  | TIMESTAMP.

#[global] Instance DataType_eq_dec : EqDecision DataType.
Proof. solve_decision. Defined.

Definition DataType_code (t : DataType) : nat :=
  match t with
  | UNKNOWN => 0 | BOOL => 1 | INT64 => 2
  | FLOAT64 => 3 | STRING => 4 | TIMESTAMP => 5
  end.

Definition DataType_of_code (n : nat) : option DataType :=
  match n with
  | 0 => Some UNKNOWN | 1 => Some BOOL | 2 => Some INT64
  | 3 => Some FLOAT64 | 4 => Some STRING | 5 => Some TIMESTAMP
  | _ => None
  end.

#[global] Instance DataType_countable : Countable DataType.
Proof.
  apply (inj_countable DataType_code DataType_of_code).
  intros []; reflexivity.
Defined.

(** ** The type hierarchy and its common-ancestor operation *)

Section CommonAncestor.
Context {A : Type} `{EqDecision A}.
(** [parent a] is the immediate supertype of [a]; the top of the
    hierarchy is its own parent.  [height] bounds the length of every
    ancestor chain. *)
Variable parent : A → A.
Variable top : A.
Variable height : nat.

(** [ancestors a] lists [a], its parent, its grandparent, ... *)
Definition ancestors (a : A) : list A :=
  (λ k, Nat.iter k parent a) <$> seq 0 (S height).

(** The first ancestor of [a] that is also an ancestor of [b]. *)
Definition lowest_common_ancestor (a b : A) : A :=
  match list_find (λ x, x ∈ ancestors b) (ancestors a) with
  | Some (_, x) => x
  | None => top
  end.

Definition rooted : Prop :=
  parent top = top ∧ ∀ a, Nat.iter height parent a = top.

(** [a] is [b] or lies below [b] in the hierarchy. *)
Definition below (a b : A) : Prop := b ∈ ancestors a.
End CommonAncestor.

(** Modelled from the spec: [GetCommonAncestorType] (the lattice join) and
    the hierarchy it walks lie outside the files modelled here.  The spec
    (sections 2 and 4.1) describes the join as the common ancestor of two
    kinds in a fixed hierarchy whose universal supertype is string, so that
    two kinds without a closer common supertype resolve to string.  The
    shape of the hierarchy below string is not given; it is the parameter
    [parent].  With six kinds no ancestor chain is longer than five steps. *)
Definition GetCommonAncestorType (parent : DataType → DataType)
    (t1 t2 : DataType) : DataType :=
  lowest_common_ancestor parent STRING 5 t1 t2.

(** A hierarchy over the kinds: every chain of supertypes ends in string. *)
Definition hierarchy (parent : DataType → DataType) : Prop :=
  rooted parent STRING 5.

(** Two sample hierarchies: the one in which string is the only proper
    supertype, and one with the numeric chain boolean, integer, float. *)
Definition flat_parent (t : DataType) : DataType := STRING.

Definition chain_parent (t : DataType) : DataType :=
  match t with
  | UNKNOWN => BOOL
  | BOOL => INT64
  | INT64 => FLOAT64
  | FLOAT64 => STRING
  | STRING => STRING
  | TIMESTAMP => STRING
  end.

(** ** SQL column descriptors and type suggestions *)

(** Modelled from the spec: the declaration of [SQLColumn] lies outside
    the files modelled here.  The spec (section 3) describes it as a type name,
    a generic column-type tag and an override flag; these are the three
    members [Field.GetSuggestedSQLType] sets.  Go's member [Type] is
    spelled [Type_] here. *)
Record SQLColumn : Type := mkSQLColumn {
  Type_ : string;
  ColumnType : string;
  Override : bool
}.

#[global] Instance SQLColumn_eq_dec : EqDecision SQLColumn.
Proof. solve_decision. Defined.

(** The zero value [SQLColumn{}]. *)
Definition SQLColumn_zero : SQLColumn := mkSQLColumn "" "" false.

Record SQLTypeSuggestion : Type := mkSQLTypeSuggestion {
  sqlType : SQLColumn;
  sqlTypePerDestination : gmap string SQLColumn
}.

Definition NewSQLTypeSuggestion (sqlType : SQLColumn)
    (sqlTypePerDestination : gmap string SQLColumn) : SQLTypeSuggestion :=
  mkSQLTypeSuggestion sqlType sqlTypePerDestination.

(** ** The store of map objects *)

(** A Go map value is a reference to a map object; [None] is the nil map.
    Reading a nil map sees no entry, assigning into it panics. *)
Definition loc : Type := positive.

(** [dataType] and [sqlTypeSuggestion] are pointers to values that no
    method writes through, so they are options of the value pointed to;
    [typeOccurrence] is a reference to a shared, mutable map object. *)
Record Field : Type := mkField {
  dataType : option DataType;
  sqlTypeSuggestion : option SQLTypeSuggestion;
  typeOccurrence : option loc
}.

(** The store holds the [Fields] map objects ([map[string]Field]) and the
    occurrence map objects ([map[DataType]bool]). *)
Record Store : Type := mkStore {
  fieldsObjects : gmap loc (gmap string Field);
  occurrenceObjects : gmap loc (gmap DataType bool)
}.

Definition empty_store : Store := mkStore ∅ ∅.

(** [m[k]] and [range m] on an occurrence map. *)
Definition occ_read (σ : Store) (r : option loc) : gmap DataType bool :=
  match r with
  | Some l => default ∅ (occurrenceObjects σ !! l)
  | None => ∅
  end.

(** [m[t] = b] on an occurrence map; [None] is the panic on a nil map. *)
Definition occ_write (σ : Store) (r : option loc) (t : DataType) (b : bool)
    : option Store :=
  match r with
  | Some l =>
      match occurrenceObjects σ !! l with
      | Some m =>
          Some (mkStore (fieldsObjects σ)
                        (<[l := <[t := b]> m]> (occurrenceObjects σ)))
      | None => None
      end
  | None => None
  end.

(** [f[name]] and [range f] on a [Fields] map. *)
Definition fields_read (σ : Store) (r : option loc) : gmap string Field :=
  match r with
  | Some l => default ∅ (fieldsObjects σ !! l)
  | None => ∅
  end.

(** [f[name] = fld] on a [Fields] map; [None] is the panic on a nil map. *)
Definition fields_write (σ : Store) (r : option loc) (name : string)
    (fld : Field) : option Store :=
  match r with
  | Some l =>
      match fieldsObjects σ !! l with
      | Some m =>
          Some (mkStore (<[l := <[name := fld]> m]> (fieldsObjects σ))
                        (occurrenceObjects σ))
      | None => None
      end
  | None => None
  end.

(** The occurrence set of a field: the key set of its occurrence map (the
    boolean values are never read). *)
Definition occurrences (σ : Store) (f : Field) : gset DataType :=
  dom (occ_read σ (typeOccurrence f)).

(** [range m] visits every key of [m] exactly once, in an order the
    language leaves open. *)
Definition range_order `{Countable K} {V : Type} (m : gmap K V)
    (order : list K) : Prop :=
  NoDup order ∧ list_to_set order = dom m.

(** The enumeration used where the visiting order provably plays no role. *)
Definition keys `{Countable K} {V : Type} (m : gmap K V) : list K :=
  (map_to_list m).*1.

(** ** Field *)

(** [NewField]: a fresh occurrence map [{t: true}] and the cached type. *)
Definition NewField (t : DataType) (σ : Store) : Field * Store :=
  let l := fresh (dom (occurrenceObjects σ)) in
  (mkField (Some t) None (Some l),
   mkStore (fieldsObjects σ) (<[l := {[t := true]}]> (occurrenceObjects σ))).

Definition NewFieldWithSQLType (t : DataType)
    (suggestion : option SQLTypeSuggestion) (σ : Store) : Field * Store :=
  let l := fresh (dom (occurrenceObjects σ)) in
  (mkField (Some t) suggestion (Some l),
   mkStore (fieldsObjects σ) (<[l := {[t := true]}]> (occurrenceObjects σ))).

(** [Field.GetSuggestedSQLType]. *)
Definition Field_GetSuggestedSQLType (f : Field) (destinationType : string)
    : SQLColumn * bool :=
  match sqlTypeSuggestion f with
  | Some s =>
      let '(sqlType0, ok0) :=
        match sqlTypePerDestination s !! destinationType with
        | Some c => (c, true)
        | None => (SQLColumn_zero, false)
        end in
      let '(sqlType1, ok1) :=
        if negb ok0 && negb (String.eqb (Type_ (sqlType s)) "")
        then (sqlType s, true)
        else (sqlType0, ok0) in
      if ok1
      then (mkSQLColumn (Type_ sqlType1) (ColumnType sqlType1) true, ok1)
      else (SQLColumn_zero, false)
  | None => (SQLColumn_zero, false)
  end.

Section Typing.
(** The hierarchy walked by [GetCommonAncestorType]. *)
Variable parent : DataType → DataType.

(** The fold of [Field.GetType] over the slice [types]: the first kind,
    joined with each of the following ones in turn; nothing on the
    empty slice. *)
Definition fold_common (types : list DataType) : option DataType :=
  match types with
  | [] => None
  | t0 :: rest => Some (foldl (GetCommonAncestorType parent) t0 rest)
  end.

(** [Field.GetType].  [types] is the slice the method builds by ranging
    over the occurrence map.  The receiver is passed by value: the method
    works on its own copy [f] of the caller's struct.  The result pairs
    the returned type with the final value of that copy. *)
Definition Field_GetType (types : list DataType) (f : Field)
    : DataType * Field :=
  match dataType f with
  | Some t => (t, f)
  | None =>
      match fold_common types with
      | None => (UNKNOWN, f)
      | Some common =>
          (common,
           mkField (Some common) (sqlTypeSuggestion f) (typeOccurrence f))
      end
  end.

(** A call [x.GetType()] as the caller sees it: the returned type and the
    caller's [x] afterwards.  The copy made for the receiver is dropped
    when the method returns, and the method writes to no map object. *)
Definition call_GetType (types : list DataType) (x : Field)
    : DataType * Field :=
  (fst (Field_GetType types x), x).

(** The types a call can return on field [f] in store [σ]. *)
Definition resolves_to (σ : Store) (f : Field) (t : DataType) : Prop :=
  ∃ types, range_order (occ_read σ (typeOccurrence f)) types
           ∧ fst (Field_GetType types f) = t.
End Typing.

(** [Field.Merge], the loop body run over the kinds [ts] delivered by the
    range over the other field's occurrence map.  [f] is the struct the
    receiver points to. *)
Fixpoint Field_Merge_in (ts : list DataType) (f : Field) (σ : Store)
    : option (Field * Store) :=
  match ts with
  | [] => Some (f, σ)
  | t :: ts' =>
      match occ_read σ (typeOccurrence f) !! t with
      | Some _ => Field_Merge_in ts' f σ
      | None =>
          σ' ← occ_write σ (typeOccurrence f) t true;
          Field_Merge_in ts'
            (mkField None (sqlTypeSuggestion f) (typeOccurrence f)) σ'
      end
  end.

(** [Field.Merge] on the structs behind two pointers that are not nil
    ([Field_Merge_call] below adds the nil pointers).  The outcome does
    not depend on the order in which the kinds are visited (lemma
    [Field_Merge_in_order] below). *)
Definition Field_Merge (f anotherField : Field) (σ : Store)
    : option (Field * Store) :=
  Field_Merge_in (keys (occ_read σ (typeOccurrence anotherField))) f σ.

(** ** Fields *)

(** [Fields.Merge]; [order] is the order in which the range visits the
    names of [other]. *)
Fixpoint Fields_Merge (order : list string) (f other : option loc)
    (σ : Store) : option Store :=
  match order with
  | [] => Some σ
  | otherName :: rest =>
      match fields_read σ other !! otherName with
      | None => Fields_Merge rest f other σ
      | Some otherField =>
          match fields_read σ f !! otherName with
          | Some currentField =>
              '(currentField', σ1) ← Field_Merge currentField otherField σ;
              σ2 ← fields_write σ1 f otherName currentField';
              Fields_Merge rest f other σ2
          | None =>
              σ1 ← fields_write σ f otherName otherField;
              Fields_Merge rest f other σ1
          end
      end
  end.

(** [Fields.Add]. *)
Fixpoint Fields_Add (order : list string) (f other : option loc)
    (σ : Store) : option Store :=
  match order with
  | [] => Some σ
  | otherName :: rest =>
      match fields_read σ other !! otherName with
      | None => Fields_Add rest f other σ
      | Some otherField =>
          match fields_read σ f !! otherName with
          | Some _ => Fields_Add rest f other σ
          | None =>
              σ1 ← fields_write σ f otherName otherField;
              Fields_Add rest f other σ1
          end
      end
  end.

(** The inner loop of [Fields.Clone]: copy the entries one by one.  The
    copy does not depend on the order of the entries (lemma
    [copy_occurrences_order] below). *)
Definition copy_occurrences (entries : list (DataType * bool))
    (m : gmap DataType bool) : gmap DataType bool :=
  foldl (λ acc e, <[e.1 := e.2]> acc) m entries.

(** One round of the outer loop of [Fields.Clone]: a fresh occurrence map
    is filled from the payload's and stored, with the cached type, under
    the same name in the clone [c].  The suggestion member is not set. *)
Definition Fields_Clone_step (c : loc) (σ : Store) (fieldName : string)
    (fieldPayload : Field) : Store :=
  let l := fresh (dom (occurrenceObjects σ)) in
  let clonedTypeOccurence :=
    copy_occurrences
      (map_to_list (occ_read σ (typeOccurrence fieldPayload))) ∅ in
  mkStore
    (<[c := <[fieldName := mkField (dataType fieldPayload) None (Some l)]>
              (fields_read σ (Some c))]> (fieldsObjects σ))
    (<[l := clonedTypeOccurence]> (occurrenceObjects σ)).

Fixpoint Fields_Clone_loop (order : list string) (f : option loc) (c : loc)
    (σ : Store) : Store :=
  match order with
  | [] => σ
  | fieldName :: rest =>
      match fields_read σ f !! fieldName with
      | None => Fields_Clone_loop rest f c σ
      | Some fieldPayload =>
          Fields_Clone_loop rest f c (Fields_Clone_step c σ fieldName fieldPayload)
      end
  end.

(** [Fields.Clone]: the reference to the new map and the store after. *)
Definition Fields_Clone (order : list string) (f : option loc) (σ : Store)
    : loc * Store :=
  let c := fresh (dom (fieldsObjects σ)) in
  let σ0 := mkStore (<[c := ∅]> (fieldsObjects σ)) (occurrenceObjects σ) in
  (c, Fields_Clone_loop order f c σ0).

(** ** Table *)

(** Modelled from the spec: [DatePartition] is declared outside the files
    modelled here; the spec calls it a partition descriptor such as a
    date-bucket identifier.  [Table.Diff] leaves it at its zero value. *)
Inductive DatePartition : Type :=
  | NoPartition
  | PartitionBucket (bucket : string).

(** Modelled from the spec: [utils.Set] is declared outside the files
    modelled here; the spec calls [PKFields] a set of field names and
    compares two of them as unordered sets. *)
Definition Set_Equals (s other : gset string) : bool :=
  bool_decide (s = other).

(** [Columns] maps are only read by [Diff], apart from the fresh map of
    the patch, so a table holds the content of its maps. *)
Record Table : Type := mkTable {
  Schema : string;
  Name : string;
  Columns : gmap string SQLColumn;
  PKFields : gset string;
  PrimaryKeyName : string;
  Partition : DatePartition;
  DeletePkFields : bool
}.

(** [Table.Exists]; the receiver may be the nil pointer. *)
Definition Table_Exists (t : option Table) : bool :=
  match t with
  | None => false
  | Some t =>
      (0 <? size (Columns t))%nat || (0 <? size (PKFields t))%nat
      || DeletePkFields t
  end.

Definition BuildConstraintName (schemaName tableName : string) : string :=
  schemaName ++ "_" ++ tableName ++ "_pk".

(** [another.Columns] and [another.PKFields] through the pointer
    [another]; the nil pointer, which [Diff] never dereferences ([Exists]
    answers false on it), shows no column and no field. *)
Definition Table_columns (t : option Table) : gmap string SQLColumn :=
  from_option Columns ∅ t.

Definition Table_pkfields (t : option Table) : gset string :=
  from_option PKFields ∅ t.

(** The column loop of [Table.Diff], over the names of [another.Columns]
    in the order the range delivers them. *)
Fixpoint Diff_columns (order : list string) (t : Table)
    (anotherColumns diffColumns : gmap string SQLColumn)
    : gmap string SQLColumn :=
  match order with
  | [] => diffColumns
  | name :: rest =>
      match anotherColumns !! name with
      | None => Diff_columns rest t anotherColumns diffColumns
      | Some column =>
          match Columns t !! name with
          | Some _ => Diff_columns rest t anotherColumns diffColumns
          | None =>
              Diff_columns rest t anotherColumns
                (<[name := column]> diffColumns)
          end
      end
  end.

(** [Table.Diff] on a receiver [t] (dereferenced in the first statement);
    [another] may be the nil pointer. *)
Definition Table_Diff (order : list string) (t : Table)
    (another : option Table) : Table :=
  let diff := mkTable (Schema t) (Name t) ∅ ∅ "" NoPartition false in
  if negb (Table_Exists another) then diff
  else
    let columns := Diff_columns order t (Table_columns another) ∅ in
    let diff := mkTable (Schema t) (Name t) columns ∅ "" NoPartition false in
    let jitsuPrimaryKeyName := BuildConstraintName (Schema t) (Name t) in
    if negb (String.eqb (PrimaryKeyName t) "")
       && negb (String.eqb (PrimaryKeyName t) jitsuPrimaryKeyName)
    then diff
    else if (0 <? size (PKFields t))%nat then
      if negb (Set_Equals (PKFields t) (Table_pkfields another))
      then mkTable (Schema t) (Name t) columns (Table_pkfields another)
                   jitsuPrimaryKeyName NoPartition true
      else diff
    else if (0 <? size (Table_pkfields another))%nat then
      mkTable (Schema t) (Name t) columns (Table_pkfields another)
              jitsuPrimaryKeyName NoPartition false
    else diff.

(** The patch [Diff] starts from: no column, no primary-key field, no name
    of a constraint, no delete flag. *)
Definition empty_patch (t : Table) : Table :=
  mkTable (Schema t) (Name t) ∅ ∅ "" NoPartition false.

(** The patch carries no primary-key action. *)
Definition no_pk_change (patch : Table) : Prop :=
  DeletePkFields patch = false ∧ PKFields patch = ∅
  ∧ PrimaryKeyName patch = "".

(** The constraint of [t] is managed from outside: it has a name, and the
    name is not the generated one. *)
Definition foreign_pk (t : Table) : Prop :=
  PrimaryKeyName t ≠ ""
  ∧ PrimaryKeyName t ≠ BuildConstraintName (Schema t) (Name t).

(** The primary-key rule of the spec (section 4.4, items 3 to 6), relating
    the current table, the desired primary-key fields and the patch. *)
Definition pk_rule (t : Table) (desired : gset string) (patch : Table)
    : Prop :=
  (foreign_pk t → no_pk_change patch)
  ∧ (¬ foreign_pk t → PKFields t ≠ ∅ → PKFields t ≠ desired →
       DeletePkFields patch = true ∧ PKFields patch = desired
       ∧ PrimaryKeyName patch = BuildConstraintName (Schema t) (Name t))
  ∧ (¬ foreign_pk t → PKFields t = ∅ → desired ≠ ∅ →
       DeletePkFields patch = false ∧ PKFields patch = desired
       ∧ PrimaryKeyName patch = BuildConstraintName (Schema t) (Name t))
  ∧ (¬ foreign_pk t → PKFields t = desired → no_pk_change patch).

(** ** The Mixpanel destination *)

Definition MixpanelUnsupported : string := "Only 'batch' mode is supported".

Definition retryDelaysMs : list Z := [100; 200; 200; 500; 0]%Z.

(** Modelled from the spec: [bulker.BulkMode] is declared outside the
    files modelled here.  The spec gives the closed set Stream, Batch,
    ReplaceTable, ReplacePartition; [OtherMode v] is any other value of
    the type, [v] being its rendering under the format verb of line 64. *)
Inductive BulkMode : Type :=
  | Stream
  | Batch
  | ReplaceTable
  | ReplacePartition
  | OtherMode (v : string).

Section CreateStream.
(** The stream and option types and [NewTransactionalStream] are declared
    outside the files modelled here; the method only passes them through. *)
Variables BulkerStream StreamOption : Type.
Variable NewTransactionalStream :
  string → string → list StreamOption → option BulkerStream * option string.

(** [MixpanelBulker.CreateStream]: the stream (or nil) and the error (or
    nil), an error being its message. *)
Definition MixpanelBulker_CreateStream (id tableName : string)
    (mode : BulkMode) (streamOptions : list StreamOption)
    : option BulkerStream * option string :=
  match mode with
  | Stream => (None, Some MixpanelUnsupported)
  | Batch => NewTransactionalStream id tableName streamOptions
  | ReplaceTable => (None, Some MixpanelUnsupported)
  | ReplacePartition => (None, Some MixpanelUnsupported)
  | OtherMode v => (None, Some ("unsupported bulk mode: " ++ v))
  end.
End CreateStream.

(** What one [httpClient.Do] gives: a transport error, or a response with
    its status, its body and the error, if any, of reading the body. *)
Inductive RoundTrip : Type :=
  | TransportError (e : string)
  | Response (status : Z) (body : string) (readErr : option string).

Inductive UploadError : Type :=
  | ClosedInstance
  | ReadBodyFailed (e : string)
  | NewRequestFailed (e : string)
  | TransportFailed (e : string)
  | HttpStatus (status : Z) (errText : string).

(** The named results of [Upload], with what the call did on the way: the
    delays slept, in order, and the number of requests sent. *)
Record UploadState : Type := mkUploadState {
  statusCode : Z;
  respBody : string;
  err : option UploadError;
  slept : list Z;
  sent : nat
}.

Definition validationMarker : string :=
  "some data points in the request failed validation".

(** [strings.Contains]. *)
Definition strings_Contains (s substr : string) : bool :=
  match String.index 0 substr s with
  | Some _ => true
  | None => false
  end.

Section Upload.
(** The world around one call: the error of [http.NewRequest], if it
    fails, and the outcome of the k-th request sent. *)
Variable newRequestErr : option string.
Variable httpDo : nat → RoundTrip.

(** The retry loop of [Upload] over the remaining delays. *)
Fixpoint Upload_loop (delays : list Z) (st : UploadState) : UploadState :=
  match delays with
  | [] => st
  | retryDelayMs :: rest =>
      match newRequestErr with
      | Some e =>
          mkUploadState 0 "" (Some (NewRequestFailed e)) (slept st) (sent st)
      | None =>
          match httpDo (sent st) with
          | TransportError e =>
              Upload_loop rest
                (mkUploadState 0 "" (Some (TransportFailed e))
                   (slept st ++ [retryDelayMs]) (S (sent st)))
          | Response status body readErr =>
              let errText := default "" readErr in
              if (status =? 200)%Z then
                mkUploadState status body None (slept st) (S (sent st))
              else if (status =? 400)%Z then
                if strings_Contains body validationMarker
                then mkUploadState status body None (slept st) (S (sent st))
                else mkUploadState status body
                       (Some (HttpStatus status errText))
                       (slept st) (S (sent st))
              else if (status =? 500)%Z || (status =? 502)%Z
                      || (status =? 503)%Z then
                Upload_loop rest
                  (mkUploadState status body
                     (Some (HttpStatus status errText))
                     (slept st ++ [retryDelayMs]) (S (sent st)))
              else
                mkUploadState status body
                  (Some (HttpStatus status errText))
                  (slept st) (S (sent st))
          end
      end
  end.

(** [MixpanelBulker.Upload]; [closed] is the flag read on entry and
    [readAll] the error, if any, of reading the request body. *)
Definition MixpanelBulker_Upload (closed : bool)
    (readAll : option string) : UploadState :=
  if closed then mkUploadState 0 "" (Some ClosedInstance) [] 0
  else
    match readAll with
    | Some e => mkUploadState 0 "" (Some (ReadBodyFailed e)) [] 0
    | None => Upload_loop retryDelaysMs (mkUploadState 0 "" None [] 0)
    end.
End Upload.

(** A round trip the loop answers by sleeping and trying again. *)
Definition retried (r : RoundTrip) : bool :=
  match r with
  | TransportError _ => true
  | Response status _ _ =>
      (status =? 500)%Z || (status =? 502)%Z || (status =? 503)%Z
  end.

(** A server-side (5xx) status. *)
Definition server_side (status : Z) : bool :=
  (500 <=? status)%Z && (status <=? 599)%Z.

(** ** Sample values *)

Definition sample_column (ty : string) : SQLColumn := mkSQLColumn ty ty false.

(** A current table with one column and no primary key, and a desired
    table with one more column. *)
Definition sample_current : Table :=
  mkTable "public" "events" {["id" := sample_column "bigint"]}
          ∅ "" NoPartition false.

Definition sample_desired : Table :=
  mkTable "public" "events"
          {["id" := sample_column "text"; "name" := sample_column "text"]}
          {["id"]} "" NoPartition false.

(** A current table whose primary key [{id}] carries the generated name,
    and a desired table without column, primary-key field or flag. *)
Definition sample_keyed : Table :=
  mkTable "public" "events" {["id" := sample_column "bigint"]}
          {["id"]} "public_events_pk" NoPartition false.

Definition sample_nothing : Table :=
  mkTable "public" "events" ∅ ∅ "" NoPartition false.

(** What a response that is not retried is answered with: no error for a
    200 and for a 400 carrying the validation marker, the status error
    otherwise. *)
Definition terminal_error (status : Z) (body : string)
    (readErr : option string) : option UploadError :=
  if (status =? 200)%Z then None
  else if (status =? 400)%Z && strings_Contains body validationMarker then None
  else Some (HttpStatus status (default "" readErr)).

(** The retry condition in the words of the spec: a transport error or
    any server-side (5xx) status. *)
Definition retried_as_stated (r : RoundTrip) : bool :=
  match r with
  | TransportError _ => true
  | Response status _ _ => server_side status
  end.

(** A server that answers every request with the given status. *)
Definition always (status : Z) (body : string) : nat → RoundTrip :=
  λ _, Response status body None.

(** ** Invariants and views of the fields store *)

(** The invariants of a field (spec, section 3): the occurrence set is not
    empty, and a cached type equals the join of all occurrences. *)
Definition Field_ok (parent : DataType → DataType) (σ : Store) (f : Field)
    : Prop :=
  occurrences σ f ≠ ∅
  ∧ (dataType f = None
     ∨ dataType f = fold_common parent (keys (occ_read σ (typeOccurrence f)))).

#[global] Instance Field_ok_dec parent σ f : Decision (Field_ok parent σ f).
Proof. unfold Field_ok. apply _. Defined.

(** No entry of [F] holds the occurrence map of an entry of [G] that goes
    under another name. *)
Definition shared_by_name (F G : gmap string Field) : Prop :=
  map_Forall (λ n fo,
    map_Forall (λ m go,
      is_Some (typeOccurrence fo) →
      typeOccurrence fo = typeOccurrence go → n = m) G) F.

#[global] Instance shared_by_name_dec F G : Decision (shared_by_name F G).
Proof. unfold shared_by_name. apply _. Defined.

(** [l] is the occurrence map of an entry of [F]. *)
Definition refers (F : gmap string Field) (l : loc) : Prop :=
  ∃ name fld, F !! name = Some fld ∧ typeOccurrence fld = Some l.

(** [σ'] differs from [σ] at most in the [Fields] object [lf] and in the
    occurrence maps the entries [F] refer to. *)
Definition modifies_only (lf : loc) (F : gmap string Field) (σ σ' : Store)
    : Prop :=
  (∀ l, l ≠ lf → fieldsObjects σ' !! l = fieldsObjects σ !! l)
  ∧ (∀ l, ¬ refers F l → occurrenceObjects σ' !! l = occurrenceObjects σ !! l).

(** The [Fields] value [r] reads the same in [σ'] as in [σ]: the same
    entries, and behind each entry the same occurrence map. *)
Definition same_fields (σ σ' : Store) (r : option loc) : Prop :=
  fields_read σ' r = fields_read σ r
  ∧ ∀ name fld, fields_read σ r !! name = Some fld →
      occ_read σ' (typeOccurrence fld) = occ_read σ (typeOccurrence fld).

(** What [Field.Merge] makes of the receiver's struct [fo] when merging
    [go] into it: the cached type is dropped when [go] has a kind that
    [fo] lacks. *)
Definition merged_field (σ : Store) (fo go : Field) : Field :=
  mkField
    (if decide (occurrences σ go ⊆ occurrences σ fo)
     then dataType fo else None)
    (sqlTypeSuggestion fo) (typeOccurrence fo).

(** The occurrence map [m] after every kind of [s] it lacks is set. *)
Definition merged_occurrences (m : gmap DataType bool) (s : gset DataType)
    : gmap DataType bool :=
  m ∪ gset_to_gmap true s.

(** The entry [Fields.Merge] leaves under [name] in the receiver, whose
    entries were [F], after merging the entries [G]. *)
Definition merged_entry (σ : Store) (F G : gmap string Field)
    (name : string) : option Field :=
  match G !! name with
  | Some go =>
      Some (match F !! name with
            | Some fo => merged_field σ fo go
            | None => go
            end)
  | None => F !! name
  end.

(** Every entry of [F] satisfies the invariants of a field. *)
Definition Fields_ok (parent : DataType → DataType) (σ : Store)
    (F : gmap string Field) : Prop :=
  map_Forall (λ _ f, Field_ok parent σ f) F.

#[global] Instance Fields_ok_dec parent σ F : Decision (Fields_ok parent σ F).
Proof. unfold Fields_ok. apply _. Defined.

(** A sample store: the [Fields] object 1 with the integer field [a], and
    the [Fields] object 2 with the string field [a] and the boolean field
    [b]; every field has an occurrence map of its own. *)
Definition sample_store : Store :=
  mkStore
    {[ 1%positive := {[ "a" := mkField (Some INT64) None (Some 1%positive) ]};
       2%positive := {[ "a" := mkField (Some STRING) None (Some 2%positive);
                        "b" := mkField (Some BOOL) None (Some 3%positive) ]} ]}
    {[ 1%positive := {[ INT64 := true ]};
       2%positive := {[ STRING := true ]};
       3%positive := {[ BOOL := true ]} ]}.

Definition sample_F : gmap string Field :=
  {[ "a" := mkField (Some INT64) None (Some 1%positive) ]}.

Definition sample_G : gmap string Field :=
  {[ "a" := mkField (Some STRING) None (Some 2%positive);
     "b" := mkField (Some BOOL) None (Some 3%positive) ]}.

(** The occurrence map of [f] is nil or an object of the store (the store
    holds every object a reference can lead to). *)
Definition Field_allocated (σ : Store) (f : Field) : Prop :=
  match typeOccurrence f with
  | Some l => is_Some (occurrenceObjects σ !! l)
  | None => True
  end.

#[global] Instance Field_allocated_dec σ f : Decision (Field_allocated σ f).
Proof. unfold Field_allocated. destruct (typeOccurrence f); apply _. Defined.

Definition Fields_allocated (σ : Store) (F : gmap string Field) : Prop :=
  map_Forall (λ _ f, Field_allocated σ f) F.

#[global] Instance Fields_allocated_dec σ F : Decision (Fields_allocated σ F).
Proof. unfold Fields_allocated. apply _. Defined.

(** A field with a type suggestion, and a store whose [Fields] object 1
    holds it under the name [a]. *)
Definition sample_suggestion : SQLTypeSuggestion :=
  NewSQLTypeSuggestion (mkSQLColumn "text" "text" false)
    {[ "postgres" := mkSQLColumn "jsonb" "json" false ]}.

Definition sample_suggested : Field :=
  mkField (Some STRING) (Some sample_suggestion) (Some 1%positive).

Definition sample_store_suggested : Store :=
  mkStore {[ 1%positive := {[ "a" := sample_suggested ]} ]}
          {[ 1%positive := {[ STRING := true ]} ]}.

(** A field whose cached type is unset, with the single occurrence
    integer, and the store holding its occurrence map. *)
Definition sample_uncached : Field := mkField None None (Some 1%positive).

Definition sample_store_uncached : Store :=
  mkStore ∅ {[ 1%positive := {[ INT64 := true ]} ]}.

(** The tables of the primary-key scenarios of the spec (section 8). *)
Definition sample_desired_tenant : Table :=
  mkTable "public" "events" {["id" := sample_column "bigint"]}
          {["id"; "tenant"]} "" NoPartition false.

Definition sample_foreign : Table :=
  mkTable "public" "events" {["id" := sample_column "bigint"]}
          {["id"]} "events_pkey" NoPartition false.

(** The body of a 400 answer that carries the validation marker. *)
Definition sample_partial_failure : string :=
  "error: some data points in the request failed validation (2 of 10)".

(** A store for two merges in a row into the empty [Fields] object 1:
    first object 2, with the boolean field [a], then object 3, with the
    string field [a]. *)
Definition sample_store_chain : Store :=
  mkStore
    {[ 1%positive := ∅;
       2%positive := {[ "a" := mkField (Some BOOL) None (Some 1%positive) ]};
       3%positive := {[ "a" := mkField (Some STRING) None (Some 2%positive) ]} ]}
    {[ 1%positive := {[ BOOL := true ]};
       2%positive := {[ STRING := true ]} ]}.

(** ** Further methods of the fields file and of the table file *)

(** Modelled from the language: [sort.Strings] of the Go library sorts a
    slice of strings into increasing byte-wise order.  A slice is a list
    here; the nil slice and the empty slice are both the empty list. *)
Definition sort_Strings (x : list string) : list string :=
  merge_sort String.le x.

(** The loop shared by [Fields.Header] and [Table.SortedColumnNames]:
    each key the range delivers is appended to the slice. *)
Definition append_keys (order : list string) (header : list string)
    : list string :=
  foldl (λ acc name, (acc ++ [name])%list) header order.

(** [Fields.Header]; [order] is the order in which the range visits the
    names of [f]. *)
Definition Fields_Header (order : list string) : list string :=
  sort_Strings (append_keys order []).

(** [Table.SortedColumnNames]; [order] is the order in which the range
    visits the names of [t.Columns]. *)
Definition Table_SortedColumnNames (order : list string) : list string :=
  sort_Strings (append_keys order []).

(** [Fields.OverrideTypes]; [order] is the order in which the range visits
    the names of [other].  The entry of [f] takes over the reference to
    the occurrence map of the entry of [other], not a copy of the map. *)
Fixpoint Fields_OverrideTypes (order : list string) (f other : option loc)
    (σ : Store) : option Store :=
  match order with
  | [] => Some σ
  | otherName :: rest =>
      match fields_read σ other !! otherName with
      | None => Fields_OverrideTypes rest f other σ
      | Some otherField =>
          match fields_read σ f !! otherName with
          | Some currentField =>
              σ1 ← fields_write σ f otherName
                     (mkField (dataType otherField)
                              (sqlTypeSuggestion currentField)
                              (typeOccurrence otherField));
              Fields_OverrideTypes rest f other σ1
          | None => Fields_OverrideTypes rest f other σ
          end
      end
  end.

(** The entry [OverrideTypes] leaves under [name] in the receiver, whose
    entries were [F], given the entries [G] of the other value. *)
Definition overridden_entry (F G : gmap string Field) (name : string)
    : option Field :=
  match F !! name, G !! name with
  | Some fo, Some go =>
      Some (mkField (dataType go) (sqlTypeSuggestion fo) (typeOccurrence go))
  | o, _ => o
  end.

(** [BatchHeader] and [BatchHeader.Exists]; the receiver may be the nil
    pointer. *)
Record BatchHeader : Type := mkBatchHeader {
  TableName : string;
  BatchFields : option loc;
  BatchPartition : DatePartition
}.

Definition BatchHeader_Exists (bh : option BatchHeader) (σ : Store) : bool :=
  match bh with
  | None => false
  | Some b => (0 <? size (fields_read σ (BatchFields b)))%nat
  end.

(** The loop of [Table.Clone]: every entry the range delivers is stored
    under its name in the new map. *)
Fixpoint Clone_columns (order : list string)
    (columns clonedColumns : gmap string SQLColumn) : gmap string SQLColumn :=
  match order with
  | [] => clonedColumns
  | k :: rest =>
      match columns !! k with
      | None => Clone_columns rest columns clonedColumns
      | Some v => Clone_columns rest columns (<[k := v]> clonedColumns)
      end
  end.

Section TableClone.
(** [utils.Set.Clone] is declared outside the files modelled here. *)
Variable Set_Clone : gset string → gset string.

(** [Table.Clone]; [order] is the order in which the range visits the
    names of [t.Columns].  The literal of the result names no partition,
    which is therefore the zero value. *)
Definition Table_Clone (order : list string) (t : Table) : Table :=
  let clonedColumns := Clone_columns order (Columns t) ∅ in
  let clonedPkFields := Set_Clone (PKFields t) in
  mkTable (Schema t) (Name t) clonedColumns clonedPkFields
          (PrimaryKeyName t) NoPartition (DeletePkFields t).
End TableClone.

(** ** The outcome of an upload *)

(** The named results of [Upload] carry no error exactly when they carry
    the status 200, or the status 400 with a body that holds the
    validation marker. *)
Definition accepted (st : UploadState) : Prop :=
  err st = None
  ↔ (statusCode st = 200%Z
     ∨ (statusCode st = 400%Z
        ∧ strings_Contains (respBody st) validationMarker = true)).

(** ** The Google configuration *)

Definition ErrMalformedBQDataset : string :=
  "bq_dataset must be alphanumeric (plus underscores) and must be at most 1024 characters long".

(** The two client options [Validate] builds: credentials given as JSON
    bytes, and credentials given as the name of a file. *)
Inductive ClientOption : Type :=
  | WithCredentialsJSON (p : string)
  | WithCredentialsFile (filename : string).

Section GoogleConfig.
(** The language and the libraries around [Validate].  Ranging over a
    string delivers its runes, [runes s], as code points, and
    [string_of_rune] is the conversion [string(symbol)].
    [utils.IsLetterOrNumber] is declared outside the files modelled here.
    [JsonObject] stands for [map[string]any], with its length, and
    [Marshal] for [jsoniter.Marshal], which gives the bytes or the text of
    an error. *)
Variable runes : string → list N.
Variable string_of_rune : N → string.
Variable IsLetterOrNumber : N → bool.
Variable JsonObject : Type.
Variable JsonObject_len : JsonObject → nat.
Variable Marshal : JsonObject → string + string.

(** The dynamic type of the member [KeyFile], as the type switch of
    [Validate] tells it apart: a JSON object, a string, anything else
    (nil included). *)
Inductive KeyFileValue : Type :=
  | KeyFileObject (keyFileObject : JsonObject)
  | KeyFileString (keyFile : string)
  | KeyFileOther.

Record GoogleConfig : Type := mkGoogleConfig {
  Bucket : string;
  Project : string;
  Dataset : string;
  KeyFile : KeyFileValue;
  Format : string;
  Credentials : option ClientOption
}.

(** The loop over the symbols of the dataset name: the error for the
    first symbol that is neither the underscore (code point 95) nor a
    letter or number. *)
Fixpoint check_symbols (symbols : list N) : option string :=
  match symbols with
  | [] => None
  | symbol :: rest =>
      if negb (symbol =? 95)%N && negb (IsLetterOrNumber symbol)
      then Some (ErrMalformedBQDataset ++ ": '" ++ string_of_rune symbol
                 ++ "'")
      else check_symbols rest
  end.

(** [GoogleConfig.Validate]: the error returned, if any, as its message,
    and the struct behind the receiver afterwards; the receiver may be
    the nil pointer. *)
Definition GoogleConfig_Validate (gc : option GoogleConfig)
    : option string * option GoogleConfig :=
  match gc with
  | None => (Some "Google config is required", None)
  | Some c =>
      let datasetErr :=
        if negb (String.eqb (Dataset c) "") then
          if (1024 <? String.length (Dataset c))%nat
          then Some ErrMalformedBQDataset
          else check_symbols (runes (Dataset c))
        else None in
      match datasetErr with
      | Some e => (Some e, Some c)
      | None =>
          match KeyFile c with
          | KeyFileObject keyFileObject =>
              if (JsonObject_len keyFileObject =? 0)%nat
              then (Some "Google key_file is required parameter", Some c)
              else
                match Marshal keyFileObject with
                | inr e => (Some ("Malformed google key_file: " ++ e), Some c)
                | inl b =>
                    (None,
                     Some (mkGoogleConfig (Bucket c) (Project c) (Dataset c)
                             (KeyFile c) (Format c)
                             (Some (WithCredentialsJSON b))))
                end
          | KeyFileString keyFile =>
              if String.eqb keyFile "workload_identity" then (None, Some c)
              else if String.eqb keyFile ""
              then (Some "Google key file is required parameter", Some c)
              else if strings_Contains keyFile "{"
              then (None,
                    Some (mkGoogleConfig (Bucket c) (Project c) (Dataset c)
                            (KeyFile c) (Format c)
                            (Some (WithCredentialsJSON keyFile))))
              else (None,
                    Some (mkGoogleConfig (Bucket c) (Project c) (Dataset c)
                            (KeyFile c) (Format c)
                            (Some (WithCredentialsFile keyFile))))
          | KeyFileOther =>
              (Some "Google key_file must be string or json object", Some c)
          end
      end
  end.

(** The dataset name passes the checks of [Validate]: it is empty, or at
    most 1024 bytes long with nothing but underscores, letters and
    numbers. *)
Definition valid_dataset (dataset : string) : Prop :=
  dataset = ""
  ∨ (String.length dataset ≤ 1024)%nat
    ∧ Forall (λ symbol, symbol = 95%N ∨ IsLetterOrNumber symbol = true)
        (runes dataset).

(** The key file passes the checks of [Validate]: a JSON object with an
    entry that can be marshalled, or a string that is not empty. *)
Definition valid_key_file (keyFile : KeyFileValue) : Prop :=
  match keyFile with
  | KeyFileObject keyFileObject =>
      JsonObject_len keyFileObject ≠ 0%nat
      ∧ ∃ b, Marshal keyFileObject = inl b
  | KeyFileString keyFile => keyFile ≠ ""
  | KeyFileOther => False
  end.

(** The credentials [Validate] leaves in a struct whose credentials were
    [before], for a key file that passes the checks. *)
Definition credentials_of (keyFile : KeyFileValue)
    (before : option ClientOption) : option ClientOption :=
  match keyFile with
  | KeyFileObject keyFileObject =>
      match Marshal keyFileObject with
      | inl b => Some (WithCredentialsJSON b)
      | inr _ => before
      end
  | KeyFileString keyFile =>
      if String.eqb keyFile "workload_identity" then before
      else if strings_Contains keyFile "{"
      then Some (WithCredentialsJSON keyFile)
      else Some (WithCredentialsFile keyFile)
  | KeyFileOther => before
  end.
End GoogleConfig.

Arguments KeyFileObject {JsonObject} _.
Arguments KeyFileString {JsonObject} _.
Arguments KeyFileOther {JsonObject}.
Arguments mkGoogleConfig {JsonObject} _ _ _ _ _ _.
Arguments Bucket {JsonObject} _.
Arguments Project {JsonObject} _.
Arguments Dataset {JsonObject} _.
Arguments KeyFile {JsonObject} _.
Arguments Format {JsonObject} _.
Arguments Credentials {JsonObject} _.
Arguments GoogleConfig_Validate _ _ _ {JsonObject} _ _ _.
Arguments valid_key_file {JsonObject} _ _ _.
Arguments credentials_of {JsonObject} _ _ _.

(** ** Views for several merges in a row *)

(** The occurrence set found under [name] in the entries [F]; empty when
    there is no such entry. *)
Definition name_occurrences (σ : Store) (F : gmap string Field)
    (name : string) : gset DataType :=
  from_option (occurrences σ) ∅ (F !! name).

(** No entry of [F] holds the occurrence map of an entry of [G]. *)
Definition disjoint_maps (F G : gmap string Field) : Prop :=
  map_Forall (λ _ fo,
    map_Forall (λ _ go,
      is_Some (typeOccurrence fo) →
      typeOccurrence fo ≠ typeOccurrence go) G) F.

#[global] Instance disjoint_maps_dec F G : Decision (disjoint_maps F G).
Proof. unfold disjoint_maps. apply _. Defined.

(** A third [Fields] object for the sample store: the timestamp field [b]
    and the float field [c], with occurrence maps of their own. *)
Definition sample_H : gmap string Field :=
  {[ "b" := mkField (Some TIMESTAMP) None (Some 4%positive);
     "c" := mkField (Some FLOAT64) None (Some 5%positive) ]}.

Definition sample_store_three : Store :=
  mkStore
    (<[3%positive := sample_H]> (fieldsObjects sample_store))
    (<[4%positive := {[ TIMESTAMP := true ]}]>
       (<[5%positive := {[ FLOAT64 := true ]}]>
          (occurrenceObjects sample_store))).

(** ** Calls through pointers, and values used more than once *)

(** A call [x.Merge(y)] of [Field.Merge] on two pointers; [None] is the
    nil pointer, and the outcome [None] a panic.  The range expression
    reads [anotherField.typeOccurrence], so a nil [anotherField] panics
    at once; the receiver is dereferenced in the loop body only, so a nil
    receiver panics as soon as the other field has a kind.  The result
    holds the struct behind the receiver afterwards. *)
Definition Field_Merge_call (f anotherField : option Field) (σ : Store)
    : option (option Field * Store) :=
  match anotherField with
  | None => None
  | Some another =>
      match f with
      | Some fo =>
          '(fo', σ') ← Field_Merge fo another σ; Some (Some fo', σ')
      | None =>
          match keys (occ_read σ (typeOccurrence another)) with
          | [] => Some (None, σ)
          | _ :: _ => None
          end
      end
  end.

(** Four [Fields] objects as [NewField] makes their entries: the empty
    object 1, object 2 with the integer field [a], object 3 with the
    string field [a], object 4 with an integer field [a] of its own. *)
Definition sample_store_reuse : Store :=
  mkStore
    {[ 1%positive := ∅;
       2%positive := {[ "a" := mkField (Some INT64) None (Some 1%positive) ]};
       3%positive := {[ "a" := mkField (Some STRING) None (Some 2%positive) ]};
       4%positive := {[ "a" := mkField (Some INT64) None (Some 3%positive) ]} ]}
    {[ 1%positive := {[ INT64 := true ]};
       2%positive := {[ STRING := true ]};
       3%positive := {[ INT64 := true ]} ]}.

(** Two [Fields] objects whose entries carry different suggestions:
    object 1 suggests [jsonb] on postgres for [a]; object 2 suggests
    [varchar] everywhere, for [a] and for [b]. *)
Definition sample_suggestion_other : SQLTypeSuggestion :=
  NewSQLTypeSuggestion (mkSQLColumn "varchar" "varchar" false) ∅.

Definition sample_FS : gmap string Field :=
  {[ "a" := mkField (Some STRING) (Some sample_suggestion) (Some 1%positive) ]}.

Definition sample_GS : gmap string Field :=
  {[ "a" := mkField (Some STRING) (Some sample_suggestion_other)
              (Some 2%positive);
     "b" := mkField (Some INT64) (Some sample_suggestion_other)
              (Some 3%positive) ]}.

Definition sample_store_suggestions : Store :=
  mkStore
    {[ 1%positive := sample_FS; 2%positive := sample_GS ]}
    {[ 1%positive := {[ STRING := true ]};
       2%positive := {[ STRING := true ]};
       3%positive := {[ INT64 := true ]} ]}.

Local Close Scope string_scope.

(** * Properties *)

(** ** The common ancestor is a least upper bound *)

Section CommonAncestorLaws.
Context {A : Type} `{EqDecision A}.
Variable parent : A → A.
Variable top : A.
Variable height : nat.
Hypothesis Hrooted : rooted parent top height.

Local Abbreviation up k a := (Nat.iter k parent a).
Local Notation "a ⊑ b" := (below parent height a b) (at level 70).
Local Abbreviation lca := (lowest_common_ancestor parent top height).

Lemma up_top k : up k top = top.
Proof.
  induction k as [|k IH]; simpl; [done|].
  rewrite IH. apply Hrooted.
Qed.

Lemma up_high k a : height ≤ k → up k a = top.
Proof.
  intros Hk. replace k with ((k - height) + height) by lia.
  rewrite Nat.iter_add. destruct Hrooted as [_ ->]. apply up_top.
Qed.

Lemma below_iff a b : a ⊑ b ↔ ∃ k, up k a = b.
Proof.
  unfold below, ancestors. rewrite list_elem_of_fmap. split.
  - intros (k & -> & _). by exists k.
  - intros [k <-]. destruct (decide (k ≤ height)) as [Hk|Hk].
    + exists k. split; [done|]. apply elem_of_seq. lia.
    + exists height. split.
      * rewrite up_high by lia. symmetry. by apply up_high.
      * apply elem_of_seq. lia.
Qed.

Lemma below_refl a : a ⊑ a.
Proof. apply below_iff. by exists 0. Qed.

Lemma below_top a : a ⊑ top.
Proof. apply below_iff. exists height. by apply up_high. Qed.

Lemma below_trans a b c : a ⊑ b → b ⊑ c → a ⊑ c.
Proof.
  rewrite !below_iff. intros [i <-] [j <-].
  exists (j + i). by rewrite Nat.iter_add.
Qed.

(** The ancestors of a kind form a chain. *)
Lemma below_chain a b c : a ⊑ b → a ⊑ c → b ⊑ c ∨ c ⊑ b.
Proof.
  rewrite !below_iff. intros [i <-] [j <-].
  destruct (decide (i ≤ j)) as [Hij|Hij]; [left|right].
  - exists (j - i). rewrite <- Nat.iter_add. f_equal. lia.
  - exists (i - j). rewrite <- Nat.iter_add. f_equal. lia.
Qed.

Lemma up_period p a n : up p a = a → up (n * p) a = a.
Proof.
  intros Hp. induction n as [|n IH]; simpl; [done|].
  rewrite Nat.add_comm, Nat.iter_add. by rewrite Hp.
Qed.

Lemma top_below a : top ⊑ a → a = top.
Proof. rewrite below_iff. intros [k <-]. apply up_top. Qed.

Lemma below_antisym a b : a ⊑ b → b ⊑ a → a = b.
Proof.
  intros Hab Hba.
  apply below_iff in Hab as [i Hi]. apply below_iff in Hba as [j Hj].
  destruct (decide (i + j = 0)) as [Hz|Hnz].
  { assert (i = 0) as -> by lia. done. }
  assert (up (j + i) a = a) as Hper.
  { by rewrite Nat.iter_add, Hi. }
  assert (a = top) as ->.
  { rewrite <- (up_period _ a height Hper).
    apply up_high. nia. }
  rewrite <- Hi. symmetry. apply up_top.
Qed.

Lemma lca_below_l a b : a ⊑ lca a b.
Proof.
  unfold lowest_common_ancestor.
  destruct (list_find _ _) as [[i x]|] eqn:Hfind; [|apply below_top].
  apply list_find_Some in Hfind as (Hx & _ & _).
  unfold below. by eapply list_elem_of_lookup_2.
Qed.

Lemma lca_below_r a b : b ⊑ lca a b.
Proof.
  unfold lowest_common_ancestor.
  destruct (list_find _ _) as [[i x]|] eqn:Hfind; [|apply below_top].
  by apply list_find_Some in Hfind as (_ & Hx & _).
Qed.

Lemma lca_least a b c : a ⊑ c → b ⊑ c → lca a b ⊑ c.
Proof.
  intros Hac Hbc. unfold lowest_common_ancestor.
  destruct (list_find _ _) as [[i x]|] eqn:Hfind.
  - apply list_find_Some in Hfind as (Hx & _ & Hmin).
    pose proof Hac as Hac'. unfold below in Hac'.
    apply list_elem_of_lookup in Hac' as [j Hj].
    destruct (decide (j < i)) as [Hlt|Hge].
    { by destruct (Hmin j c Hj Hlt). }
    unfold ancestors in Hx, Hj.
    rewrite list_lookup_fmap in Hx, Hj.
    destruct (seq 0 (S height) !! i) as [i'|] eqn:Hi; [|done].
    destruct (seq 0 (S height) !! j) as [j'|] eqn:Hj'; [|done].
    apply lookup_seq in Hi as [-> _]. apply lookup_seq in Hj' as [-> _].
    simpl in Hx, Hj. injection Hx as <-. injection Hj as <-.
    apply below_iff. exists (j - i).
    rewrite <- Nat.iter_add. f_equal. lia.
  - apply list_find_None in Hfind.
    rewrite Forall_forall in Hfind. by destruct (Hfind c Hac).
Qed.

(** The four laws of the join. *)
Lemma lca_comm a b : lca a b = lca b a.
Proof.
  apply below_antisym; apply lca_least;
    auto using lca_below_l, lca_below_r.
Qed.

Lemma lca_idem a : lca a a = a.
Proof.
  apply below_antisym; [|apply lca_below_l].
  apply lca_least; apply below_refl.
Qed.

Lemma lca_assoc a b c : lca a (lca b c) = lca (lca a b) c.
Proof.
  apply below_antisym.
  - apply lca_least.
    + eapply below_trans; [apply lca_below_l|apply lca_below_l].
    + apply lca_least.
      * eapply below_trans; [apply lca_below_r|apply lca_below_l].
      * apply lca_below_r.
  - apply lca_least.
    + apply lca_least.
      * apply lca_below_l.
      * eapply below_trans; [apply lca_below_l|apply lca_below_r].
    + eapply below_trans; [apply lca_below_r|apply lca_below_r].
Qed.

Lemma lca_top a : lca a top = top.
Proof. apply top_below, lca_below_r. Qed.

Lemma lca_absorb a b : a ⊑ b → lca a b = b.
Proof.
  intros Hab. apply below_antisym; [|apply lca_below_r].
  apply lca_least; [done|apply below_refl].
Qed.
End CommonAncestorLaws.

(** ** Folding a slice of kinds by the join *)

Lemma hierarchy_chain : hierarchy chain_parent.
Proof. split; [reflexivity | intros []; reflexivity]. Qed.

Lemma hierarchy_flat : hierarchy flat_parent.
Proof. split; [reflexivity | intros []; reflexivity]. Qed.

Lemma range_order_perm `{Countable K} {V : Type} (m : gmap K V)
    (l l' : list K) :
  range_order m l → range_order m l' → l ≡ₚ l'.
Proof.
  intros [Hnd Hl] [Hnd' Hl']. apply NoDup_Permutation; [done..|].
  intros k. rewrite <- (elem_of_list_to_set (C := gset K) k l).
  rewrite <- (elem_of_list_to_set (C := gset K) k l').
  by rewrite Hl, Hl'.
Qed.

Lemma range_order_keys `{Countable K} {V : Type} (m : gmap K V) :
  range_order m (keys m).
Proof.
  split; [apply NoDup_fst_map_to_list|].
  apply set_eq. intros k. rewrite elem_of_list_to_set, elem_of_dom.
  unfold keys. rewrite list_elem_of_fmap. split.
  - intros ([k' v] & -> & Hin). apply elem_of_map_to_list in Hin. eauto.
  - intros [v Hv]. exists (k, v). split; [done|].
    by apply elem_of_map_to_list.
Qed.

Lemma range_order_elem `{Countable K} {V : Type} (m : gmap K V)
    (l : list K) (k : K) :
  range_order m l → k ∈ l ↔ is_Some (m !! k).
Proof.
  intros [_ Hl]. rewrite <- elem_of_dom, <- Hl.
  by rewrite elem_of_list_to_set.
Qed.

Section JoinFold.
Variable parent : DataType → DataType.
Hypothesis Hh : hierarchy parent.

Local Abbreviation join := (GetCommonAncestorType parent).

Lemma join_comm a b : join a b = join b a.
Proof. by apply lca_comm. Qed.

Lemma join_assoc a b c : join a (join b c) = join (join a b) c.
Proof. by apply lca_assoc. Qed.

Lemma join_idem a : join a a = a.
Proof. by apply lca_idem. Qed.

Lemma join_string a : join a STRING = STRING.
Proof. by apply lca_top. Qed.

Lemma foldl_join_out a b l :
  foldl join (join a b) l = join a (foldl join b l).
Proof.
  revert b. induction l as [|c l IH]; intros b; simpl; [done|].
  by rewrite <- join_assoc, IH.
Qed.

(** The fold of a head over a tail, from the fold of the tail alone. *)
Lemma foldl_join_tail a l :
  foldl join a l = from_option (join a) a (fold_common parent l).
Proof.
  destruct l as [|b l]; simpl; [done|]. apply foldl_join_out.
Qed.

(** Any two orders of the same kinds fold to the same kind. *)
Lemma fold_common_perm l l' :
  l ≡ₚ l' → fold_common parent l = fold_common parent l'.
Proof.
  induction 1 as [|x l l' Hp IH|x y l|l l' l'' _ IH1 _ IH2].
  - done.
  - simpl. f_equal. rewrite !foldl_join_tail. by rewrite IH.
  - simpl. f_equal. by rewrite (join_comm y x).
  - by rewrite IH1.
Qed.

Lemma Field_GetType_order σ f types types' :
  range_order (occ_read σ (typeOccurrence f)) types →
  range_order (occ_read σ (typeOccurrence f)) types' →
  fst (Field_GetType parent types f) = fst (Field_GetType parent types' f).
Proof.
  intros Ho Ho'. unfold Field_GetType.
  destruct (dataType f); [done|].
  by rewrite (fold_common_perm types types')
    by (by eapply range_order_perm).
Qed.
End JoinFold.

(** C4.  Under any hierarchy of the kinds whose top is string, the join
    [GetCommonAncestorType] is commutative, associative and idempotent and
    string absorbs every kind; consequently a non-empty slice of kinds
    folds to the same kind in any order, and [Field.GetType] returns the
    same type whatever order the range over the occurrence map takes. *)
Theorem join_laws_and_GetType_deterministic
    (parent : DataType → DataType) (Hh : hierarchy parent) :
  let join := GetCommonAncestorType parent in
  (∀ a b, join a b = join b a)
  ∧ (∀ a b c, join a (join b c) = join (join a b) c)
  ∧ (∀ a, join a a = a)
  ∧ (∀ a, join a STRING = STRING)
  ∧ (∀ types types', types ≠ [] → types ≡ₚ types' →
       ∃ t, fold_common parent types = Some t
            ∧ fold_common parent types' = Some t)
  ∧ (∀ σ f types types',
       range_order (occ_read σ (typeOccurrence f)) types →
       range_order (occ_read σ (typeOccurrence f)) types' →
       fst (Field_GetType parent types f)
       = fst (Field_GetType parent types' f)).
Proof.
  intros join. repeat split.
  - intros. by apply join_comm.
  - intros. by apply join_assoc.
  - intros. by apply join_idem.
  - intros. by apply join_string.
  - intros types types' Hne Hp.
    rewrite <- (fold_common_perm parent Hh types types' Hp).
    destruct types as [|t0 rest]; [done|]. simpl. eauto.
  - intros. by eapply Field_GetType_order.
Qed.

Lemma join_laws_and_GetType_deterministic_witness :
  hierarchy chain_parent
  ∧ GetCommonAncestorType chain_parent INT64 TIMESTAMP = STRING
  ∧ GetCommonAncestorType chain_parent BOOL FLOAT64
    = GetCommonAncestorType chain_parent FLOAT64 BOOL
  ∧ ∃ t, fold_common chain_parent [BOOL; FLOAT64; INT64] = Some t
         ∧ fold_common chain_parent [INT64; BOOL; FLOAT64] = Some t.
Proof.
  split; [exact hierarchy_chain|].
  split; [reflexivity|].
  destruct (join_laws_and_GetType_deterministic chain_parent hierarchy_chain)
    as (Hcomm & _ & _ & _ & Hfold & _).
  split; [apply Hcomm|].
  apply Hfold; [discriminate|].
  symmetry.
  apply Permutation_cons_append with (l := [BOOL; FLOAT64]) (x := INT64).
Defined.

(** ** Table.Diff *)

Lemma Diff_columns_lookup order t ac acc name :
  Diff_columns order t ac acc !! name
  = match Columns t !! name, ac !! name with
    | None, Some c => if decide (name ∈ order) then Some c else acc !! name
    | _, _ => acc !! name
    end.
Proof.
  revert acc. induction order as [|n rest IH]; intros acc; cbn [Diff_columns].
  - by destruct (Columns t !! name), (ac !! name).
  - destruct (decide (name = n)) as [->|Hne].
    + destruct (ac !! n) as [column|] eqn:Ha;
        destruct (Columns t !! n) as [c|] eqn:Ht;
        rewrite IH, ?Ha, ?Ht; try done.
      rewrite lookup_insert_eq.
      rewrite (decide_True (P := n ∈ n :: rest)) by apply list_elem_of_here.
      by case_decide.
    + assert (∀ c, <[n := c]> acc !! name = acc !! name) as Hacc.
      { intros c. by rewrite lookup_insert_ne. }
      assert (∀ (x y : option SQLColumn),
                (if decide (name ∈ n :: rest) then x else y)
                = (if decide (name ∈ rest) then x else y)) as Hdec.
      { intros x y. apply decide_ext. rewrite elem_of_cons.
        split; [by intros [?|?]|by right]. }
      destruct (ac !! n) as [column|];
        [destruct (Columns t !! n) as [c|]|]; rewrite IH, ?Hacc;
        destruct (Columns t !! name), (ac !! name); by rewrite ?Hdec.
Qed.

Lemma size_pos_nonempty `{Countable K} (s : gset K) :
  (0 <? size s)%nat = negb (bool_decide (s = ∅)).
Proof.
  case_bool_decide as Hs.
  - subst. by rewrite size_empty.
  - apply Nat.ltb_lt. destruct (size s) eqn:Hz; [|lia].
    by apply size_empty_inv, leibniz_equiv in Hz.
Qed.

Lemma Table_Exists_false (another : option Table) :
  Table_Exists another = false →
  Table_columns another = ∅ ∧ Table_pkfields another = ∅.
Proof.
  destruct another as [a|]; simpl; [|done]. intros Hex.
  apply orb_false_elim in Hex as [Hex _].
  apply orb_false_elim in Hex as [Hc Hp].
  split.
  - apply Nat.ltb_ge in Hc. apply map_size_empty_inv. lia.
  - rewrite size_pos_nonempty in Hp. apply negb_false_iff in Hp.
    by apply bool_decide_eq_true in Hp.
Qed.

Lemma Table_Diff_not_exists order t another :
  Table_Exists another = false → Table_Diff order t another = empty_patch t.
Proof. intros Hex. unfold Table_Diff. by rewrite Hex. Qed.

Lemma Table_Diff_columns order t another :
  Table_Exists another = true →
  Columns (Table_Diff order t another)
  = Diff_columns order t (Table_columns another) ∅.
Proof.
  intros Hex. unfold Table_Diff. rewrite Hex. cbn [negb].
  repeat (match goal with |- context [if ?b then _ else _] =>
            destruct b end); done.
Qed.

(** C1.  The columns of the patch are exactly the columns of the desired
    table whose names the current table lacks, each with the desired
    descriptor, so no column of the current table is dropped or retyped
    by the patch.  When the desired table does not exist, the patch is
    the empty patch, which does not exist either. *)
Theorem Diff_columns_additive (order : list string) (t : Table)
    (another : option Table) :
  range_order (Table_columns another) order →
  (∀ name, Columns (Table_Diff order t another) !! name
           = match Columns t !! name with
             | Some _ => None
             | None => Table_columns another !! name
             end)
  ∧ dom (Columns (Table_Diff order t another))
    = dom (Table_columns another) ∖ dom (Columns t)
  ∧ (Table_Exists another = false →
       Table_Diff order t another = empty_patch t
       ∧ Table_Exists (Some (Table_Diff order t another)) = false).
Proof.
  intros Horder.
  assert (∀ name, Columns (Table_Diff order t another) !! name
           = match Columns t !! name with
             | Some _ => None
             | None => Table_columns another !! name
             end) as Hlookup.
  { intros name. destruct (Table_Exists another) eqn:Hex.
    - rewrite Table_Diff_columns, Diff_columns_lookup by done.
      destruct (Columns t !! name) as [c|] eqn:Ht.
      + by rewrite lookup_empty.
      + destruct (Table_columns another !! name) as [c|] eqn:Ha;
          [|by rewrite lookup_empty].
        rewrite decide_True; [done|].
        apply (range_order_elem _ _ name Horder). eauto.
    - rewrite Table_Diff_not_exists by done.
      apply Table_Exists_false in Hex as [-> _]. simpl.
      rewrite lookup_empty. by destruct (Columns t !! name). }
  split; [done|]. split.
  - apply set_eq. intros name.
    rewrite elem_of_difference, !elem_of_dom, Hlookup.
    destruct (Columns t !! name) as [c|].
    + split; [by intros [? ?]|]. intros [_ Hn]. destruct Hn. eauto.
    + split; [|by intros [? _]]. intros Hs. split; [done|]. by intros [? ?].
  - intros Hex. by rewrite Table_Diff_not_exists by done.
Qed.

Lemma range_order_decide `{Countable K} {V : Type} (m : gmap K V)
    (order : list K) :
  bool_decide (NoDup order) && bool_decide (list_to_set order = dom m) = true →
  range_order m order.
Proof.
  intros Hb. apply andb_true_iff in Hb as [H1 H2].
  split; by eapply bool_decide_eq_true.
Qed.

Lemma Diff_columns_additive_witness :
  range_order (Table_columns (Some sample_desired)) ["name"; "id"]%string
  ∧ Columns (Table_Diff ["name"; "id"]%string sample_current
               (Some sample_desired)) !! "name"%string
    = Some (sample_column "text")
  ∧ Columns (Table_Diff ["name"; "id"]%string sample_current
               (Some sample_desired)) !! "id"%string
    = None.
Proof.
  assert (range_order (Table_columns (Some sample_desired))
            ["name"; "id"]%string) as Horder.
  { apply range_order_decide. vm_compute. reflexivity. }
  split; [exact Horder|].
  destruct (Diff_columns_additive _ sample_current (Some sample_desired)
              Horder) as (Hlookup & _ & _).
  split; rewrite Hlookup; reflexivity.
Defined.

(** ** The primary-key lifecycle *)

Lemma Table_Diff_pk order t a :
  Table_Exists (Some a) = true →
  let patch := Table_Diff order t (Some a) in
  (foreign_pk t → no_pk_change patch)
  ∧ (¬ foreign_pk t →
       if decide (PKFields t = ∅)
       then if decide (PKFields a = ∅)
            then no_pk_change patch
            else DeletePkFields patch = false ∧ PKFields patch = PKFields a
                 ∧ PrimaryKeyName patch
                   = BuildConstraintName (Schema t) (Name t)
       else if decide (PKFields t = PKFields a)
            then no_pk_change patch
            else DeletePkFields patch = true ∧ PKFields patch = PKFields a
                 ∧ PrimaryKeyName patch
                   = BuildConstraintName (Schema t) (Name t)).
Proof.
  intros Hex patch. subst patch. unfold Table_Diff, foreign_pk.
  rewrite Hex. cbn [negb]. rewrite !size_pos_nonempty. unfold Set_Equals.
  destruct (String.eqb_spec (PrimaryKeyName t) "") as [He|He];
    destruct (String.eqb_spec (PrimaryKeyName t)
                (BuildConstraintName (Schema t) (Name t))) as [Hj|Hj];
    cbn [negb andb].
  4: { split; [by intros _|]. intros Hnf. by destruct Hnf. }
  all: split; [by intros [? ?]|]; intros _;
    repeat case_bool_decide; repeat case_decide; try done; cbn [negb].
Qed.

(** C2, as amended.  When the desired table exists, the patch follows the
    primary-key rule: no action on a constraint managed from outside;
    otherwise delete-and-recreate with the desired fields and the
    generated name when the current fields are non-empty and differ from
    the desired ones as sets, creation without the delete flag when the
    current table has no primary-key field and the desired one has some,
    and no action in the remaining cases. *)
Theorem Diff_pk_lifecycle (order : list string) (t a : Table) :
  Table_Exists (Some a) = true →
  pk_rule t (PKFields a) (Table_Diff order t (Some a)).
Proof.
  intros Hex. destruct (Table_Diff_pk order t a Hex) as [Hf Hn].
  unfold pk_rule. split; [done|].
  split; [|split].
  - intros Hnf Hne Hdiff. specialize (Hn Hnf).
    by rewrite decide_False, decide_False in Hn.
  - intros Hnf He Hdes. specialize (Hn Hnf).
    by rewrite decide_True, decide_False in Hn.
  - intros Hnf Heq. specialize (Hn Hnf).
    destruct (decide (PKFields t = ∅)) as [He|Hne].
    + rewrite decide_True in Hn by congruence. done.
    + by rewrite decide_True in Hn.
Qed.

Lemma Diff_pk_lifecycle_witness :
  Table_Exists (Some sample_desired) = true
  ∧ pk_rule sample_keyed (PKFields sample_desired)
      (Table_Diff ["name"; "id"]%string sample_keyed (Some sample_desired)).
Proof.
  split; [reflexivity|].
  apply (Diff_pk_lifecycle _ sample_keyed sample_desired). reflexivity.
Defined.

(** C2, as stated, fails.  The current table has the primary key [{id}]
    under the generated name and the desired table does not exist: the
    current fields differ from the desired ones (none), the rule asks for
    the delete flag, and [Diff] returns the empty patch. *)
Lemma Diff_pk_rule_fails_on_absent_desired :
  Table_Exists (Some sample_nothing) = false
  ∧ Table_Diff [] sample_keyed (Some sample_nothing) = empty_patch sample_keyed
  ∧ ¬ pk_rule sample_keyed (PKFields sample_nothing)
        (Table_Diff [] sample_keyed (Some sample_nothing)).
Proof.
  split; [reflexivity|]. split; [reflexivity|].
  intros (_ & Hrecreate & _).
  destruct Hrecreate as [Hdel _].
  - intros [_ Hname]. by apply Hname.
  - intros Hempty. by vm_compute in Hempty.
  - intros Hsame. by vm_compute in Hsame.
  - by vm_compute in Hdel.
Qed.

(** ** The Mixpanel destination *)

(** C9.  [CreateStream] hands out a stream for the Batch mode only, where
    it passes on what [NewTransactionalStream] gives.  Stream,
    ReplaceTable and ReplacePartition are answered at once with no stream
    and the error "Only 'batch' mode is supported", any other mode value
    with no stream and an error naming the value. *)
Theorem CreateStream_batch_only (BulkerStream StreamOption : Type)
    (NewTransactionalStream :
       string → string → list StreamOption
       → option BulkerStream * option string)
    (id tableName : string) (streamOptions : list StreamOption) :
  let create mode :=
    MixpanelBulker_CreateStream BulkerStream StreamOption
      NewTransactionalStream id tableName mode streamOptions in
  create Batch = NewTransactionalStream id tableName streamOptions
  ∧ create Stream = (None, Some MixpanelUnsupported)
  ∧ create ReplaceTable = (None, Some MixpanelUnsupported)
  ∧ create ReplacePartition = (None, Some MixpanelUnsupported)
  ∧ (∀ v, create (OtherMode v)
          = (None, Some ("unsupported bulk mode: " ++ v)%string))
  ∧ (∀ mode, mode ≠ Batch →
       (create mode).1 = None
       ∧ ∃ message, (create mode).2 = Some message ∧ message ≠ ""%string)
  ∧ (∀ mode stream, (create mode).1 = Some stream → mode = Batch).
Proof.
  intros create. repeat split; try done.
  - by destruct mode.
  - destruct mode; try done; eexists; split; try reflexivity; done.
  - intros mode stream. by destruct mode.
Qed.

Section UploadLoop.
Variable httpDo : nat → RoundTrip.

Lemma Upload_loop_retried delays st :
  (∀ k, k < length delays → retried (httpDo (sent st + k)) = true) →
  let r := Upload_loop None httpDo delays st in
  slept r = slept st ++ delays
  ∧ sent r = sent st + length delays
  ∧ (delays ≠ [] → is_Some (err r)).
Proof.
  revert st. induction delays as [|d rest IH]; intros st Hall r; subst r.
  - simpl. rewrite app_nil_r, Nat.add_0_r. done.
  - cbn [Upload_loop].
    pose proof (Hall 0 ltac:(simpl; lia)) as H0.
    rewrite Nat.add_0_r in H0.
    assert (∀ st', sent st' = S (sent st) →
              ∀ k, k < length rest → retried (httpDo (sent st' + k)) = true)
      as Hrest.
    { intros st' Hs k Hk. rewrite Hs.
      replace (S (sent st) + k) with (sent st + S k) by lia.
      apply Hall. simpl. lia. }
    destruct (httpDo (sent st)) as [e|status body readErr]; simpl in H0.
    + match goal with |- context [Upload_loop _ _ rest ?st'] =>
        destruct (IH st' (Hrest st' eq_refl)) as (Hs & Hn & He) end.
      rewrite Hs, Hn. cbn [slept sent length].
      rewrite <- app_assoc. repeat split; [lia|]. intros _.
      destruct rest as [|d' rest']; [by eexists|]. by apply He.
    + destruct (status =? 200)%Z eqn:H200.
      { apply Z.eqb_eq in H200 as ->. done. }
      destruct (status =? 400)%Z eqn:H400.
      { apply Z.eqb_eq in H400 as ->. done. }
      rewrite H0.
      match goal with |- context [Upload_loop _ _ rest ?st'] =>
        destruct (IH st' (Hrest st' eq_refl)) as (Hs & Hn & He) end.
      rewrite Hs, Hn. cbn [slept sent length].
      rewrite <- app_assoc. repeat split; [lia|]. intros _.
      destruct rest as [|d' rest']; [by eexists|]. by apply He.
Qed.

Lemma Upload_loop_terminal d1 d d2 st status body readErr :
  (∀ k, k < length d1 → retried (httpDo (sent st + k)) = true) →
  httpDo (sent st + length d1) = Response status body readErr →
  retried (Response status body readErr) = false →
  Upload_loop None httpDo (d1 ++ d :: d2) st
  = mkUploadState status body (terminal_error status body readErr)
      (slept st ++ d1) (S (sent st + length d1)).
Proof.
  revert st. induction d1 as [|d0 d1 IH]; intros st Hall Hn Hterm.
  - simpl in *. rewrite Nat.add_0_r in *. rewrite Hn, app_nil_r.
    unfold terminal_error.
    destruct (status =? 200)%Z; [done|].
    destruct (status =? 400)%Z; simpl.
    { by destruct (strings_Contains body validationMarker). }
    by rewrite Hterm.
  - cbn [app Upload_loop].
    pose proof (Hall 0 ltac:(simpl; lia)) as H0.
    rewrite Nat.add_0_r in H0.
    assert (∀ st', sent st' = S (sent st) → slept st' = slept st ++ [d0] →
              Upload_loop None httpDo (d1 ++ d :: d2) st'
              = mkUploadState status body
                  (terminal_error status body readErr)
                  (slept st ++ d0 :: d1) (S (sent st + length (d0 :: d1))))
      as Hnext.
    { intros st' Hs Hsl. rewrite IH.
      - rewrite Hs, Hsl, <- app_assoc. simpl. do 2 f_equal. lia.
      - intros k Hk. rewrite Hs.
        replace (S (sent st) + k) with (sent st + S k) by lia.
        apply Hall. simpl. lia.
      - rewrite Hs, <- Hn. f_equal. simpl. lia.
      - done. }
    destruct (httpDo (sent st)) as [e|status0 body0 readErr0]; simpl in H0.
    + by apply Hnext.
    + destruct (status0 =? 200)%Z eqn:H200.
      { apply Z.eqb_eq in H200 as ->. done. }
      destruct (status0 =? 400)%Z eqn:H400.
      { apply Z.eqb_eq in H400 as ->. done. }
      rewrite H0. by apply Hnext.
Qed.
End UploadLoop.

(** Scenario C of the spec: five 503 answers in a row. *)
Example Upload_five_503 :
  MixpanelBulker_Upload None (always 503 "busy") false None
  = mkUploadState 503 "busy" (Some (HttpStatus 503 ""))
      [100; 200; 200; 500; 0]%Z 5.
Proof. reflexivity. Qed.

(** C7, as amended.  Transport errors and the statuses 500, 502 and 503
    are retried along the fixed delays; when all five attempts end that
    way the call has slept every delay of the schedule and returns an
    error.  The first answer of another kind ends the call at once: a 200,
    or a 400 whose body carries the validation marker, without an error,
    every other status, the 4xx ones among them, with the status error. *)
Theorem Upload_retry_policy (httpDo : nat → RoundTrip) :
  let r := MixpanelBulker_Upload None httpDo false None in
  ((∀ k, k < 5 → retried (httpDo k) = true) →
     is_Some (err r) ∧ slept r = retryDelaysMs ∧ sent r = 5)
  ∧ (∀ n status body readErr,
       n < 5 →
       (∀ k, k < n → retried (httpDo k) = true) →
       httpDo n = Response status body readErr →
       retried (httpDo n) = false →
       sent r = S n ∧ slept r = take n retryDelaysMs
       ∧ statusCode r = status ∧ respBody r = body
       ∧ err r = terminal_error status body readErr)
  ∧ (∀ status body readErr,
       (400 ≤ status ≤ 499)%Z →
       retried (Response status body readErr) = false
       ∧ (terminal_error status body readErr = None
          ↔ status = 400%Z ∧ strings_Contains body validationMarker = true)).
Proof.
  intros r. subst r. unfold MixpanelBulker_Upload. split; [|split].
  - intros Hall.
    destruct (Upload_loop_retried httpDo retryDelaysMs
                (mkUploadState 0 "" None [] 0)) as (Hs & Hn & He).
    { intros k Hk. by apply Hall. }
    rewrite Hs, Hn. split; [by apply He|done].
  - intros n status body readErr Hn Hall Hresp Hterm.
    rewrite Hresp in Hterm.
    assert (∃ d d2, retryDelaysMs = take n retryDelaysMs ++ d :: d2
                    ∧ length (take n retryDelaysMs) = n) as (d & d2 & Hd & Hl).
    { do 5 (destruct n as [|n]; [by do 2 eexists|]). lia. }
    assert (Upload_loop None httpDo retryDelaysMs
              (mkUploadState 0 "" None [] 0)
            = mkUploadState status body (terminal_error status body readErr)
                (take n retryDelaysMs) (S n)) as ->; [|done].
    rewrite Hd at 1.
    rewrite (Upload_loop_terminal httpDo _ d d2 _ status body readErr);
      rewrite ?Hl; done.
  - intros status body readErr Hs. split.
    + simpl. lia.
    + unfold terminal_error.
      destruct (status =? 200)%Z eqn:H200; [lia|].
      destruct (status =? 400)%Z eqn:H400; simpl.
      * destruct (strings_Contains body validationMarker); split;
          try done; try lia; by intros [_ ?].
      * split; [done|]. intros [-> _]. done.
Qed.

(** C7, as stated, fails: 504 is a server-side status, and a 504 answer
    ends the call on the first request, no delay slept. *)
Lemma Upload_504_not_retried :
  (∀ k, retried_as_stated (always 504 "" k) = true)
  ∧ MixpanelBulker_Upload None (always 504 "") false None
    = mkUploadState 504 "" (Some (HttpStatus 504 "")) [] 1
  ∧ ¬ (∀ httpDo,
         (∀ k, k < 5 → retried_as_stated (httpDo k) = true) →
         slept (MixpanelBulker_Upload None httpDo false None)
         = retryDelaysMs).
Proof.
  split; [done|]. split; [reflexivity|].
  intros Hclaim. specialize (Hclaim (always 504 "") (λ _ _, eq_refl)).
  discriminate Hclaim.
Qed.

(** ** Field.Merge *)

Lemma Store_eta σ : mkStore (fieldsObjects σ) (occurrenceObjects σ) = σ.
Proof. by destruct σ. Qed.

Lemma merged_occurrences_lookup m s t :
  merged_occurrences m s !! t
  = match m !! t with
    | Some b => Some b
    | None => if decide (t ∈ s) then Some true else None
    end.
Proof.
  unfold merged_occurrences. destruct (m !! t) as [b|] eqn:Hm.
  - rewrite lookup_union_l' by eauto. done.
  - rewrite lookup_union_r by done. case_decide as Hin.
    + by apply lookup_gset_to_gmap_Some.
    + by apply lookup_gset_to_gmap_None.
Qed.

Lemma merged_occurrences_dom m s : dom (merged_occurrences m s) = dom m ∪ s.
Proof.
  unfold merged_occurrences. by rewrite dom_union_L, dom_gset_to_gmap.
Qed.

Lemma merged_occurrences_subseteq m s :
  s ⊆ dom m → merged_occurrences m s = m.
Proof.
  intros Hs. apply map_eq. intros t. rewrite merged_occurrences_lookup.
  destruct (m !! t) as [b|] eqn:Hm; [done|].
  rewrite decide_False; [done|].
  intros Hin. apply Hs, elem_of_dom in Hin as [? ?]. congruence.
Qed.

Lemma merged_occurrences_present m s t :
  is_Some (m !! t) →
  merged_occurrences m ({[t]} ∪ s) = merged_occurrences m s.
Proof.
  intros [b Hb]. apply map_eq. intros t'.
  rewrite !merged_occurrences_lookup.
  destruct (m !! t') as [b'|] eqn:Hm; [done|].
  apply decide_ext. rewrite elem_of_union, elem_of_singleton.
  split; [|by right]. intros [->|?]; [congruence|done].
Qed.

Lemma merged_occurrences_absent m s t :
  m !! t = None →
  merged_occurrences (<[t := true]> m) s = merged_occurrences m ({[t]} ∪ s).
Proof.
  intros Hn. apply map_eq. intros t'.
  rewrite !merged_occurrences_lookup.
  destruct (decide (t' = t)) as [->|Hne].
  - rewrite lookup_insert_eq, Hn.
    rewrite decide_True; [done|]. apply elem_of_union_l, elem_of_singleton_2.
    done.
  - rewrite lookup_insert_ne by done.
    destruct (m !! t') as [b'|]; [done|].
    apply decide_ext. rewrite elem_of_union, elem_of_singleton.
    split; [by right|]. by intros [?|?].
Qed.

(** The loop of [Field.Merge] in closed form, for a receiver whose
    occurrence map exists. *)
Lemma Field_Merge_in_alloc ts f σ l m :
  typeOccurrence f = Some l →
  occurrenceObjects σ !! l = Some m →
  Field_Merge_in ts f σ
  = Some (mkField
            (if decide (list_to_set ts ⊆ dom m) then dataType f else None)
            (sqlTypeSuggestion f) (Some l),
          mkStore (fieldsObjects σ)
            (<[l := merged_occurrences m (list_to_set ts)]>
               (occurrenceObjects σ))).
Proof.
  revert f σ m. induction ts as [|t ts IH]; intros f σ m Hl Hm.
  - cbn [Field_Merge_in list_to_set foldr].
    rewrite decide_True by apply empty_subseteq.
    rewrite merged_occurrences_subseteq by apply empty_subseteq.
    rewrite insert_id by done. rewrite Store_eta.
    destruct f; simpl in *; by subst.
  - cbn [Field_Merge_in]. rewrite Hl. cbn [occ_read occ_write].
    rewrite Hm. cbn [default from_option id].
    destruct (m !! t) as [b|] eqn:Ht.
    + rewrite (IH f σ m Hl Hm).
      cbn [list_to_set foldr].
      rewrite merged_occurrences_present by eauto.
      do 3 f_equal. apply decide_ext.
      rewrite union_subseteq, singleton_subseteq_l, elem_of_dom.
      split; [|by intros [_ ?]]. intros ?. split; [eauto|done].
    + cbn [mbind option_bind].
      erewrite IH; [|done|cbn; apply lookup_insert_eq].
      cbn [list_to_set foldr fieldsObjects occurrenceObjects dataType
           sqlTypeSuggestion].
      rewrite insert_insert_eq, merged_occurrences_absent by done.
      rewrite (decide_False (P := {[t]} ∪ list_to_set ts ⊆ dom m)).
      * by destruct (decide _).
      * rewrite union_subseteq, singleton_subseteq_l, elem_of_dom.
        intros [[? ?] _]. congruence.
Qed.

(** Without an occurrence map behind the receiver, the loop panics on the
    first kind. *)
Lemma Field_Merge_in_unalloc ts f σ :
  (∀ l, typeOccurrence f = Some l → occurrenceObjects σ !! l = None) →
  Field_Merge_in ts f σ = match ts with [] => Some (f, σ) | _ => None end.
Proof.
  intros Hun. destruct ts as [|t ts]; [done|]. cbn [Field_Merge_in].
  destruct (typeOccurrence f) as [l|] eqn:Hl; cbn [occ_read occ_write].
  - rewrite (Hun l eq_refl). cbn [default from_option id]. by rewrite lookup_empty.
  - by rewrite lookup_empty.
Qed.

(** The order in which the kinds are visited plays no role. *)
Lemma Field_Merge_in_order ts ts' f σ :
  ts ≡ₚ ts' → Field_Merge_in ts f σ = Field_Merge_in ts' f σ.
Proof.
  intros Hp.
  destruct (typeOccurrence f) as [l|] eqn:Hl.
  - destruct (occurrenceObjects σ !! l) as [m|] eqn:Hm.
    + rewrite !(Field_Merge_in_alloc _ f σ l m) by done.
      assert (list_to_set ts = (list_to_set ts' : gset DataType)) as ->; [|done].
      apply set_eq. intros t. rewrite !elem_of_list_to_set. by rewrite Hp.
    + rewrite !Field_Merge_in_unalloc by (intros ? ?; congruence).
      destruct ts, ts'; try done.
      * by apply Permutation_nil_cons in Hp.
      * symmetry in Hp. by apply Permutation_nil_cons in Hp.
  - rewrite !Field_Merge_in_unalloc by (intros ? ?; congruence).
    destruct ts, ts'; try done.
    * by apply Permutation_nil_cons in Hp.
    * symmetry in Hp. by apply Permutation_nil_cons in Hp.
Qed.

Lemma list_to_set_keys `{Countable K} {V : Type} (m : gmap K V) :
  list_to_set (keys m) = dom m.
Proof. apply range_order_keys. Qed.

(** [Field.Merge] in closed form. *)
Lemma Field_Merge_alloc fo go σ l m :
  typeOccurrence fo = Some l →
  occurrenceObjects σ !! l = Some m →
  Field_Merge fo go σ
  = Some (merged_field σ fo go,
          mkStore (fieldsObjects σ)
            (<[l := merged_occurrences m (occurrences σ go)]>
               (occurrenceObjects σ))).
Proof.
  intros Hl Hm. unfold Field_Merge.
  rewrite (Field_Merge_in_alloc _ fo σ l m Hl Hm).
  rewrite list_to_set_keys. unfold merged_field, occurrences.
  rewrite Hl. cbn [occ_read]. rewrite Hm. done.
Qed.

(** ** Fields.Merge *)

Lemma shared_by_name_eq F G n m fo go l :
  shared_by_name F G →
  F !! n = Some fo → G !! m = Some go →
  typeOccurrence fo = Some l → typeOccurrence go = Some l → n = m.
Proof.
  intros Hs Hf Hg Hfo Hgo.
  apply (Hs n fo Hf m go Hg); [by rewrite Hfo|congruence].
Qed.

Lemma merged_field_self σ fo : merged_field σ fo fo = fo.
Proof.
  unfold merged_field. rewrite decide_True by done. by destruct fo.
Qed.

Section MergeLoop.
Variable σ0 : Store.
Variables lf lg : loc.
Variables F G : gmap string Field.
Hypothesis HF : fieldsObjects σ0 !! lf = Some F.
Hypothesis HG : fieldsObjects σ0 !! lg = Some G.
Hypothesis Halloc : ∀ n fo, F !! n = Some fo → is_Some (G !! n) →
  ∃ l m, typeOccurrence fo = Some l ∧ occurrenceObjects σ0 !! l = Some m.
Hypothesis HFF : shared_by_name F F.
Hypothesis HFG : shared_by_name F G.

(** The state of the loop once the names in [P] have been visited. *)
Local Abbreviation visited P σ :=
  ((∀ l, l ≠ lf → fieldsObjects σ !! l = fieldsObjects σ0 !! l)
   ∧ (∃ Fk, fieldsObjects σ !! lf = Some Fk
        ∧ ∀ n, Fk !! n = if decide (n ∈ (P : gset string))
                         then merged_entry σ0 F G n else F !! n)
   ∧ (∀ n fo go l, n ∈ (P : gset string) →
        F !! n = Some fo → G !! n = Some go →
        typeOccurrence fo = Some l →
        occurrenceObjects σ !! l
        = Some (merged_occurrences (occ_read σ0 (Some l))
                                   (occurrences σ0 go)))
   ∧ (∀ l, (∀ n fo, n ∈ (P : gset string) →
              F !! n = Some fo → is_Some (G !! n) →
              typeOccurrence fo ≠ Some l) →
        occurrenceObjects σ !! l = occurrenceObjects σ0 !! l)).

Lemma visited_start : visited (∅ : gset string) σ0.
Proof.
  split; [done|]. split; [|split].
  - exists F. split; [done|]. intros n. by rewrite decide_False.
  - intros n fo go l Hin. by apply not_elem_of_empty in Hin.
  - done.
Qed.

Lemma visited_read_other P σ n :
  visited P σ → n ∉ P → fields_read σ (Some lg) !! n = G !! n.
Proof.
  intros (Hother & (Fk & HFk & Hk) & _) Hn. cbn [fields_read].
  destruct (decide (lg = lf)) as [->|Hne].
  - rewrite HFk. cbn. rewrite Hk, decide_False by done. congruence.
  - rewrite Hother by done. by rewrite HG.
Qed.

Lemma visited_untouched_receiver P σ n fo l :
  visited P σ → n ∉ P → F !! n = Some fo → typeOccurrence fo = Some l →
  occurrenceObjects σ !! l = occurrenceObjects σ0 !! l.
Proof.
  intros (_ & _ & _ & Hrest) Hn Hfo Hl. apply Hrest.
  intros x fo' Hx Hfo' _ Hl'.
  assert (x = n) as ->.
  { by eapply (shared_by_name_eq F F x n fo' fo l). }
  by destruct Hn.
Qed.

Lemma visited_untouched_other P σ n go :
  visited P σ → n ∉ P → G !! n = Some go →
  occ_read σ (typeOccurrence go) = occ_read σ0 (typeOccurrence go).
Proof.
  intros (_ & _ & _ & Hrest) Hn Hgo.
  destruct (typeOccurrence go) as [l|] eqn:Hl; [|done].
  cbn [occ_read]. rewrite Hrest; [done|].
  intros x fo' Hx Hfo' _ Hl'.
  assert (x = n) as ->.
  { by eapply (shared_by_name_eq F G x n fo' go l). }
  by destruct Hn.
Qed.

(** One round of the loop. *)
Lemma visited_step P σ n rest :
  visited P σ → n ∉ P →
  ∃ σ1, Fields_Merge (n :: rest) (Some lf) (Some lg) σ
        = Fields_Merge rest (Some lf) (Some lg) σ1
        ∧ visited ({[n]} ∪ P) σ1.
Proof.
  intros Hv Hn.
  pose proof (visited_read_other P σ n Hv Hn) as Hread.
  pose proof (λ fo l, visited_untouched_receiver P σ n fo l Hv Hn) as Hrecv.
  pose proof (λ go, visited_untouched_other P σ n go Hv Hn) as Hoth.
  destruct Hv as (Hother & (Fk & HFk & Hk) & Hdone & Hrest).
  assert (∀ x, x ≠ n → x ∈ {[n]} ∪ P ↔ x ∈ P) as Hmem.
  { intros x Hx. rewrite elem_of_union, elem_of_singleton.
    split; [by intros [?|?]|by right]. }
  assert (n ∈ {[n]} ∪ P) as Hnin.
  { apply elem_of_union_l. by apply elem_of_singleton. }
  assert (fields_read σ (Some lf) !! n = F !! n) as Hreadf.
  { cbn [fields_read]. rewrite HFk. cbn. by rewrite Hk, decide_False. }
  cbn [Fields_Merge]. rewrite Hread, Hreadf.
  destruct (G !! n) as [go|] eqn:Hgo.
  - destruct (F !! n) as [fo|] eqn:Hfo.
    + destruct (Halloc n fo Hfo) as (l & m & Hl & Hm); [by rewrite Hgo|].
      specialize (Hrecv fo l eq_refl Hl). specialize (Hoth go eq_refl).
      rewrite (Field_Merge_alloc fo go σ l m) by congruence.
      cbn [mbind option_bind fields_write fieldsObjects].
      rewrite HFk. cbn [mbind option_bind].
      assert (occurrences σ go = occurrences σ0 go) as Hogo.
      { unfold occurrences. by rewrite Hoth. }
      assert (merged_field σ fo go = merged_field σ0 fo go) as Hmf.
      { unfold merged_field. rewrite Hogo. unfold occurrences.
        rewrite Hl. cbn [occ_read]. by rewrite Hrecv. }
      rewrite Hogo, Hmf. eexists. split; [reflexivity|].
      cbn [fieldsObjects occurrenceObjects].
      split; [|split; [|split]].
      * intros l' Hl'. rewrite lookup_insert_ne by done. by apply Hother.
      * eexists. split; [apply lookup_insert_eq|]. intros x.
        destruct (decide (x = n)) as [->|Hx].
        -- rewrite lookup_insert_eq, decide_True by done.
           unfold merged_entry. by rewrite Hgo, Hfo.
        -- rewrite lookup_insert_ne, Hk by done.
           apply decide_ext. symmetry. by apply Hmem.
      * intros x fo' go' l' Hx Hfo' Hgo' Hl'.
        destruct (decide (x = n)) as [->|Hxn].
        -- assert (fo' = fo) as -> by congruence.
           assert (go' = go) as -> by congruence.
           assert (l' = l) as -> by congruence.
           rewrite lookup_insert_eq. cbn [occ_read]. by rewrite Hm.
        -- assert (l' ≠ l) as Hll.
           { intros ->. apply Hxn.
             by eapply (shared_by_name_eq F F x n fo' fo l). }
           rewrite lookup_insert_ne by done.
           eapply Hdone; [by apply Hmem|done..].
      * intros l' Hl'.
        assert (l' ≠ l) as Hll.
        { intros ->. eapply (Hl' n fo); [done..|by rewrite Hgo|done]. }
        rewrite lookup_insert_ne by done. apply Hrest.
        intros x fo' Hx. apply Hl'. apply elem_of_union_r. done.
    + cbn [mbind option_bind fields_write]. rewrite HFk.
      cbn [mbind option_bind]. eexists. split; [reflexivity|].
      cbn [fieldsObjects occurrenceObjects].
      split; [|split; [|split]].
      * intros l' Hl'. rewrite lookup_insert_ne by done. by apply Hother.
      * eexists. split; [apply lookup_insert_eq|]. intros x.
        destruct (decide (x = n)) as [->|Hx].
        -- rewrite lookup_insert_eq, decide_True by done.
           unfold merged_entry. by rewrite Hgo, Hfo.
        -- rewrite lookup_insert_ne, Hk by done.
           apply decide_ext. symmetry. by apply Hmem.
      * intros x fo' go' l' Hx Hfo' Hgo' Hl'.
        destruct (decide (x = n)) as [->|Hxn]; [congruence|].
        eapply Hdone; [by apply Hmem|done..].
      * intros l' Hl'. apply Hrest.
        intros x fo' Hx. apply Hl'. apply elem_of_union_r. done.
  - exists σ. split; [done|].
    split; [done|]. split; [|split].
    * exists Fk. split; [done|]. intros x.
      destruct (decide (x = n)) as [->|Hx].
      -- rewrite Hk, decide_False, decide_True by done.
         unfold merged_entry. by rewrite Hgo.
      -- rewrite Hk. apply decide_ext. symmetry. by apply Hmem.
    * intros x fo' go' l' Hx Hfo' Hgo' Hl'.
      destruct (decide (x = n)) as [->|Hxn]; [congruence|].
      eapply Hdone; [by apply Hmem|done..].
    * intros l' Hl'. apply Hrest.
      intros x fo' Hx. apply Hl'. apply elem_of_union_r. done.
Qed.

Lemma visited_loop rest P σ :
  NoDup rest → (∀ n, n ∈ rest → n ∉ P) → visited P σ →
  ∃ σ', Fields_Merge rest (Some lf) (Some lg) σ = Some σ'
        ∧ visited (list_to_set rest ∪ P) σ'.
Proof.
  revert P σ. induction rest as [|n rest IH]; intros P σ Hnd Hfresh Hv.
  - exists σ. split; [done|]. cbn [list_to_set foldr].
    by rewrite (left_id_L ∅ (∪)).
  - apply NoDup_cons in Hnd as [Hn Hnd].
    destruct (visited_step P σ n rest Hv) as (σ1 & -> & Hv1).
    { apply Hfresh, list_elem_of_here. }
    destruct (IH ({[n]} ∪ P) σ1 Hnd) as (σ' & Hrun & Hv'); [|done|].
    { intros x Hx. rewrite not_elem_of_union, elem_of_singleton. split.
      - intros ->. done.
      - apply Hfresh. by apply list_elem_of_further. }
    exists σ'. split; [done|]. cbn [list_to_set foldr].
    replace ({[n]} ∪ list_to_set rest ∪ P)
      with (list_to_set rest ∪ ({[n]} ∪ P)); [done|].
    rewrite (assoc_L (∪)). f_equal. apply (comm_L (∪)).
Qed.

(** [Fields.Merge] runs to completion, and its effect on the store. *)
Lemma Fields_Merge_effect order :
  range_order G order →
  ∃ σ' F',
    Fields_Merge order (Some lf) (Some lg) σ0 = Some σ'
    ∧ (∀ l, l ≠ lf → fieldsObjects σ' !! l = fieldsObjects σ0 !! l)
    ∧ fieldsObjects σ' !! lf = Some F'
    ∧ (∀ n, F' !! n = merged_entry σ0 F G n)
    ∧ (∀ n fo go l, F !! n = Some fo → G !! n = Some go →
         typeOccurrence fo = Some l →
         occurrenceObjects σ' !! l
         = Some (merged_occurrences (occ_read σ0 (Some l))
                                    (occurrences σ0 go)))
    ∧ (∀ l, (∀ n fo, F !! n = Some fo → is_Some (G !! n) →
               typeOccurrence fo ≠ Some l) →
         occurrenceObjects σ' !! l = occurrenceObjects σ0 !! l).
Proof.
  intros Horder. pose proof Horder as [Hnd Hset].
  destruct (visited_loop order ∅ σ0 Hnd) as
    (σ' & Hrun & Hother & (F' & HF' & Hk) & Hdone & Hrest).
  { intros n _. apply not_elem_of_empty. }
  { apply visited_start. }
  exists σ', F'. split; [done|]. split; [done|]. split; [done|].
  assert (∀ n, is_Some (G !! n) → n ∈ list_to_set order ∪ (∅ : gset string))
    as Hall.
  { intros n Hn. apply elem_of_union_l. rewrite Hset. by apply elem_of_dom. }
  split; [|split].
  - intros n. rewrite Hk. case_decide as Hin; [done|].
    unfold merged_entry. destruct (G !! n) as [go|] eqn:Hgo; [|done].
    destruct Hin. apply Hall. by rewrite Hgo.
  - intros n fo go l Hfo Hgo Hl. eapply Hdone; [|done..].
    apply Hall. by rewrite Hgo.
  - intros l Hl. apply Hrest. intros n fo _. apply Hl.
Qed.

(** The other [Fields] value reads after the call as it did before. *)
Lemma Fields_Merge_other_unmodified order σ' :
  range_order G order →
  Fields_Merge order (Some lf) (Some lg) σ0 = Some σ' →
  same_fields σ0 σ' (Some lg).
Proof.
  intros Horder Hrun.
  destruct (Fields_Merge_effect order Horder) as
    (σ'' & F' & Hrun' & Hother & HF' & Hk & Hdone & Hrest).
  assert (σ'' = σ') as -> by congruence.
  split.
  - cbn [fields_read]. rewrite HG. cbn.
    destruct (decide (lg = lf)) as [->|Hne].
    + rewrite HF'. cbn. apply map_eq. intros n. rewrite Hk.
      assert (F = G) as -> by congruence.
      unfold merged_entry. destruct (G !! n) as [go|]; [|done].
      by rewrite merged_field_self.
    + rewrite Hother by done. by rewrite HG.
  - cbn [fields_read]. rewrite HG. cbn. intros n go Hgo.
    destruct (typeOccurrence go) as [l|] eqn:Hl; [|done].
    cbn [occ_read].
    destruct (F !! n) as [fo|] eqn:Hfo.
    + destruct (decide (typeOccurrence fo = Some l)) as [Hfl|Hfl].
      * rewrite (Hdone n fo go l) by done.
        destruct (Halloc n fo Hfo) as (l' & m & Hl' & Hm); [by rewrite Hgo|].
        assert (l' = l) as -> by congruence.
        cbn [occ_read]. rewrite Hm. cbn [default from_option id].
        rewrite merged_occurrences_subseteq; [done|].
        unfold occurrences. rewrite Hl. cbn [occ_read]. by rewrite Hm.
      * rewrite Hrest; [done|]. intros x fo' Hfo' _ Hl'.
        assert (x = n) as ->.
        { by eapply (shared_by_name_eq F G x n fo' go l). }
        congruence.
    + rewrite Hrest; [done|]. intros x fo' Hfo' _ Hl'.
      assert (x = n) as ->.
      { by eapply (shared_by_name_eq F G x n fo' go l). }
      congruence.
Qed.
End MergeLoop.

(** ** The resolved type of a field *)

Lemma range_order_dom `{Countable K} {V : Type} (m : gmap K V)
    (l : list K) (k : K) :
  range_order m l → k ∈ l ↔ k ∈ dom m.
Proof. intros [_ <-]. by rewrite elem_of_list_to_set. Qed.

Lemma elem_of_keys `{Countable K} {V : Type} (m : gmap K V) (k : K) :
  k ∈ keys m ↔ k ∈ dom m.
Proof. apply range_order_dom, range_order_keys. Qed.

Section ResolvedType.
Variable parent : DataType → DataType.
Hypothesis Hh : hierarchy parent.

Local Abbreviation join := (GetCommonAncestorType parent).
Local Notation "a ⊑ b" := (below parent 5 a b) (at level 70).
Local Abbreviation b_refl := (below_refl parent STRING 5 Hh).
Local Abbreviation b_trans := (below_trans parent STRING 5 Hh).
Local Abbreviation b_antisym := (below_antisym parent STRING 5 Hh).
Local Abbreviation join_l := (lca_below_l parent STRING 5 Hh).
Local Abbreviation join_r := (lca_below_r parent STRING 5 Hh).
Local Abbreviation join_least := (lca_least parent STRING 5 Hh).

Lemma foldl_join_upper l a x : x ∈ a :: l → x ⊑ foldl join a l.
Proof.
  revert a x. induction l as [|b l IH]; intros a x Hx; cbn [foldl].
  - apply list_elem_of_singleton in Hx as ->. apply b_refl.
  - apply elem_of_cons in Hx as [->|Hx].
    + eapply b_trans; [apply join_l|].
      apply IH, list_elem_of_here.
    + apply elem_of_cons in Hx as [->|Hx].
      * eapply b_trans; [apply join_r|].
        apply IH, list_elem_of_here.
      * by apply IH, list_elem_of_further.
Qed.

Lemma foldl_join_least l a c :
  (∀ x, x ∈ a :: l → x ⊑ c) → foldl join a l ⊑ c.
Proof.
  revert a. induction l as [|b l IH]; intros a Hc; cbn [foldl].
  - apply Hc, list_elem_of_here.
  - apply IH. intros x Hx. apply elem_of_cons in Hx as [->|Hx].
    + apply join_least; apply Hc.
      * apply list_elem_of_here.
      * apply list_elem_of_further, list_elem_of_here.
    + by apply Hc, list_elem_of_further, list_elem_of_further.
Qed.

Lemma fold_common_upper l t x :
  fold_common parent l = Some t → x ∈ l → x ⊑ t.
Proof.
  destruct l as [|a l]; [done|]. intros [= <-]. apply foldl_join_upper.
Qed.

Lemma fold_common_least l t c :
  fold_common parent l = Some t → (∀ x, x ∈ l → x ⊑ c) → t ⊑ c.
Proof.
  destruct l as [|a l]; [done|]. intros [= <-]. apply foldl_join_least.
Qed.

Lemma fold_common_is_Some l : l ≠ [] → is_Some (fold_common parent l).
Proof. destruct l; [done|]. by eexists. Qed.

(** The fold of the union of two slices is the join of their folds. *)
Lemma fold_common_union l1 l2 l t1 t2 :
  fold_common parent l1 = Some t1 →
  fold_common parent l2 = Some t2 →
  (∀ x, x ∈ l ↔ x ∈ l1 ∨ x ∈ l2) →
  fold_common parent l = Some (join t1 t2).
Proof.
  intros H1 H2 Hl.
  destruct (fold_common_is_Some l) as [t Ht].
  { destruct l1 as [|a l1]; [done|]. intros ->.
    assert (a ∈ @nil DataType) as Hin.
    { apply (proj2 (Hl a)). left. apply list_elem_of_here. }
    by inversion Hin. }
  rewrite Ht. f_equal. apply b_antisym.
  - apply (fold_common_least l t _ Ht). intros x Hx.
    apply Hl in Hx as [Hx|Hx].
    + eapply b_trans; [exact (fold_common_upper l1 t1 x H1 Hx)|apply join_l].
    + eapply b_trans; [exact (fold_common_upper l2 t2 x H2 Hx)|apply join_r].
  - apply join_least.
    + apply (fold_common_least l1 t1 _ H1). intros x Hx.
      apply (fold_common_upper l t x Ht). apply Hl. by left.
    + apply (fold_common_least l2 t2 _ H2). intros x Hx.
      apply (fold_common_upper l t x Ht). apply Hl. by right.
Qed.

Lemma range_order_nonempty σ f types :
  occurrences σ f ≠ ∅ →
  range_order (occ_read σ (typeOccurrence f)) types → types ≠ [].
Proof.
  intros Hne [_ Hset] ->. apply Hne. unfold occurrences.
  by rewrite <- Hset.
Qed.

(** On a field that satisfies the invariants, [GetType] returns the join
    of the occurrence set, whatever the order of the range. *)
Lemma resolves_to_join σ f t :
  Field_ok parent σ f →
  resolves_to parent σ f t
  ↔ fold_common parent (keys (occ_read σ (typeOccurrence f))) = Some t.
Proof.
  intros [Hne Hcache]. split.
  - intros (types & Horder & Hget). unfold Field_GetType in Hget.
    destruct (dataType f) as [c|] eqn:Hc.
    + destruct Hcache as [?|Hcache]; [done|]. simpl in Hget. congruence.
    + rewrite (fold_common_perm parent Hh _ types).
      * destruct (fold_common_is_Some types) as [c Htypes].
        { by eapply range_order_nonempty. }
        rewrite Htypes in Hget |- *. simpl in Hget. congruence.
      * eapply range_order_perm; [apply range_order_keys|done].
  - intros Hfold. exists (keys (occ_read σ (typeOccurrence f))).
    split; [apply range_order_keys|]. unfold Field_GetType.
    destruct (dataType f) as [c|] eqn:Hc.
    + destruct Hcache as [?|Hcache]; [done|]. simpl. congruence.
    + by rewrite Hfold.
Qed.

Lemma resolves_to_exists σ f :
  Field_ok parent σ f → ∃ t, resolves_to parent σ f t.
Proof.
  intros Hok.
  destruct (fold_common_is_Some (keys (occ_read σ (typeOccurrence f))))
    as [t Ht].
  { eapply range_order_nonempty; [apply Hok|apply range_order_keys]. }
  exists t. by apply resolves_to_join.
Qed.

(** The field [fo'] that holds, in [σ'], the occurrences of [fo] and of
    [go] together, with the cache of [fo] kept only if [go] brought no new
    kind, resolves to the join of the two resolved types. *)
Lemma merged_resolves σ σ' fo go fo' tf tg t' :
  Field_ok parent σ fo → Field_ok parent σ go →
  occurrences σ' fo' = occurrences σ fo ∪ occurrences σ go →
  dataType fo'
  = (if decide (occurrences σ go ⊆ occurrences σ fo)
     then dataType fo else None) →
  resolves_to parent σ fo tf → resolves_to parent σ go tg →
  resolves_to parent σ' fo' t' →
  t' = join tf tg.
Proof.
  intros Hfo Hgo Hocc Hcache Hf Hg (types & Horder & Hget).
  apply resolves_to_join in Hf; [|done].
  apply resolves_to_join in Hg; [|done].
  assert (∀ l, (∀ x, x ∈ l ↔ x ∈ occurrences σ fo ∪ occurrences σ go) →
            fold_common parent l = Some (join tf tg)) as Hunion.
  { intros l Hl. eapply fold_common_union; [done..|].
    intros x. rewrite !elem_of_keys, (Hl x), elem_of_union. done. }
  unfold Field_GetType in Hget. rewrite Hcache in Hget.
  case_decide as Hsub.
  - destruct (dataType fo) as [c|] eqn:Hc.
    + destruct Hfo as [_ [?|Hfo]]; [congruence|]. simpl in Hget. subst t'.
      assert (Some c = Some (join tf tg)) as [= ->]; [|done].
      rewrite <- Hc, Hfo. apply Hunion. intros x.
      rewrite elem_of_keys, elem_of_union. unfold occurrences in *.
      split; [by left|]. intros [?|?]; [done|by apply Hsub].
    + rewrite (Hunion types) in Hget; [by simpl in Hget|].
      intros x. rewrite (range_order_dom _ _ x Horder).
      unfold occurrences in Hocc. by rewrite Hocc.
  - rewrite (Hunion types) in Hget; [by simpl in Hget|].
    intros x. rewrite (range_order_dom _ _ x Horder).
    unfold occurrences in Hocc. by rewrite Hocc.
Qed.
End ResolvedType.

(** ** Merging two Fields values *)

Lemma Field_ok_alloc parent σ f :
  Field_ok parent σ f →
  ∃ l m, typeOccurrence f = Some l ∧ occurrenceObjects σ !! l = Some m.
Proof.
  intros [Hne _]. unfold occurrences in Hne.
  destruct (typeOccurrence f) as [l|]; cbn [occ_read] in Hne.
  - destruct (occurrenceObjects σ !! l) as [m|] eqn:Hm; [by eauto|].
    destruct Hne. apply dom_empty_L.
  - destruct Hne. apply dom_empty_L.
Qed.

Lemma resolves_to_total parent σ f : ∃ t, resolves_to parent σ f t.
Proof.
  eexists. exists (keys (occ_read σ (typeOccurrence f))).
  split; [apply range_order_keys|done].
Qed.

(** What [f.Merge(g)] does, for two values whose fields satisfy the
    invariants and share occurrence maps, if at all, under one name. *)
Lemma Fields_Merge_shared parent order σ lf lg F G :
  hierarchy parent →
  fieldsObjects σ !! lf = Some F →
  fieldsObjects σ !! lg = Some G →
  range_order G order →
  Fields_ok parent σ F → Fields_ok parent σ G →
  shared_by_name F F → shared_by_name F G →
  ∃ σ',
    Fields_Merge order (Some lf) (Some lg) σ = Some σ'
    ∧ (∀ n, fields_read σ' (Some lf) !! n = merged_entry σ F G n)
    ∧ (∀ n fo go, F !! n = Some fo → G !! n = Some go →
         occurrences σ' (merged_field σ fo go)
         = occurrences σ fo ∪ occurrences σ go
         ∧ ∀ tf tg t',
             resolves_to parent σ fo tf → resolves_to parent σ go tg →
             resolves_to parent σ' (merged_field σ fo go) t' →
             t' = GetCommonAncestorType parent tf tg)
    ∧ same_fields σ σ' (Some lg).
Proof.
  intros Hh HF HG Horder HokF HokG HFF HFG.
  assert (∀ n fo, F !! n = Some fo → is_Some (G !! n) →
            ∃ l m, typeOccurrence fo = Some l
                   ∧ occurrenceObjects σ !! l = Some m) as Halloc.
  { intros n fo Hfo _. eapply Field_ok_alloc. by eapply HokF. }
  destruct (Fields_Merge_effect σ lf lg F G HF HG Halloc HFF HFG order Horder)
    as (σ' & F' & Hrun & Hother & HF' & Hk & Hdone & Hrest).
  exists σ'. split; [done|]. split; [|split].
  - intros n. cbn [fields_read]. rewrite HF'. apply Hk.
  - intros n fo go Hfo Hgo.
    destruct (Halloc n fo Hfo) as (l & m & Hl & Hm); [by rewrite Hgo|].
    assert (occurrences σ' (merged_field σ fo go)
            = occurrences σ fo ∪ occurrences σ go) as Hocc.
    { unfold occurrences at 1 2. cbn [merged_field typeOccurrence].
      rewrite Hl. cbn [occ_read].
      rewrite (Hdone n fo go l Hfo Hgo Hl). cbn [default from_option id].
      apply merged_occurrences_dom. }
    split; [done|]. intros tf tg t'.
    apply (merged_resolves parent Hh σ σ' fo go); try done.
    + by eapply HokF.
    + by eapply HokG.
  - exact (Fields_Merge_other_unmodified σ lf lg F G HF HG Halloc HFF HFG
             order σ' Horder Hrun).
Qed.

(** X29.  Let [f] and [g] be two Fields values whose fields satisfy the
    invariants of the data model and share occurrence maps, if at all,
    under one name.  Then [f.Merge(g)] returns, and afterwards: under
    every name both had, [f] holds the union of the two occurrence sets
    and resolves to the join of the two types resolved before; every
    entry only [g] had is in [f] as it is in [g]; and [g] reads as
    before. *)
Theorem Fields_Merge_widens (parent : DataType → DataType)
    (order : list string) (σ : Store) (lf lg : loc)
    (F G : gmap string Field) :
  hierarchy parent →
  fieldsObjects σ !! lf = Some F →
  fieldsObjects σ !! lg = Some G →
  range_order G order →
  Fields_ok parent σ F → Fields_ok parent σ G →
  shared_by_name F F → shared_by_name F G →
  ∃ σ',
    Fields_Merge order (Some lf) (Some lg) σ = Some σ'
    ∧ (∀ n fo go, F !! n = Some fo → G !! n = Some go →
         ∃ fo', fields_read σ' (Some lf) !! n = Some fo'
           ∧ occurrences σ fo ∪ occurrences σ go ⊆ occurrences σ' fo'
           ∧ occurrences σ' fo' ⊆ occurrences σ fo ∪ occurrences σ go
           ∧ (∃ t, resolves_to parent σ' fo' t)
           ∧ ∀ tf tg t',
               resolves_to parent σ fo tf → resolves_to parent σ go tg →
               resolves_to parent σ' fo' t' →
               t' = GetCommonAncestorType parent tf tg)
    ∧ (∀ n go, F !! n = None → G !! n = Some go →
         fields_read σ' (Some lf) !! n = Some go)
    ∧ (∀ n, G !! n = None → fields_read σ' (Some lf) !! n = F !! n)
    ∧ same_fields σ σ' (Some lg).
Proof.
  intros Hh HF HG Horder HokF HokG HFF HFG.
  destruct (Fields_Merge_shared parent order σ lf lg F G)
    as (σ' & Hrun & Hentry & Hshared & Hsame); try done.
  exists σ'. split; [done|]. split; [|split; [|split]].
  - intros n fo go Hfo Hgo. exists (merged_field σ fo go).
    destruct (Hshared n fo go Hfo Hgo) as [Hocc Hres].
    split. { rewrite Hentry. unfold merged_entry. by rewrite Hgo, Hfo. }
    rewrite Hocc. split; [done|]. split; [done|].
    split; [apply resolves_to_total|done].
  - intros n go Hfo Hgo. rewrite Hentry. unfold merged_entry.
    by rewrite Hgo, Hfo.
  - intros n Hgo. rewrite Hentry. unfold merged_entry. by rewrite Hgo.
  - done.
Qed.

Lemma Fields_Merge_widens_witness :
  hierarchy chain_parent
  ∧ range_order sample_G ["b"; "a"]%string
  ∧ Fields_ok chain_parent sample_store sample_F
  ∧ Fields_ok chain_parent sample_store sample_G
  ∧ shared_by_name sample_F sample_F
  ∧ shared_by_name sample_F sample_G
  ∧ ∃ σ',
      Fields_Merge ["b"; "a"]%string (Some 1%positive) (Some 2%positive)
        sample_store = Some σ'
      ∧ (∃ fo', fields_read σ' (Some 1%positive) !! "a"%string = Some fo'
           ∧ ∀ t', resolves_to chain_parent σ' fo' t' → t' = STRING)
      ∧ same_fields sample_store σ' (Some 2%positive).
Proof.
  assert (range_order sample_G ["b"; "a"]%string) as Horder.
  { apply range_order_decide. vm_compute. reflexivity. }
  assert (Fields_ok chain_parent sample_store sample_F) as HokF.
  { apply (bool_decide_unpack _). vm_compute. exact I. }
  assert (Fields_ok chain_parent sample_store sample_G) as HokG.
  { apply (bool_decide_unpack _). vm_compute. exact I. }
  assert (shared_by_name sample_F sample_F) as HFF.
  { apply (bool_decide_unpack _). vm_compute. exact I. }
  assert (shared_by_name sample_F sample_G) as HFG.
  { apply (bool_decide_unpack _). vm_compute. exact I. }
  repeat (split; [first [exact hierarchy_chain|assumption]|]).
  destruct (Fields_Merge_widens chain_parent ["b"; "a"]%string sample_store
              1%positive 2%positive sample_F sample_G hierarchy_chain
              eq_refl eq_refl Horder HokF HokG HFF HFG)
    as (σ' & Hrun & Hshared & _ & _ & Hsame).
  exists σ'. split; [exact Hrun|]. split; [|exact Hsame].
  destruct (Hshared "a"%string
              (mkField (Some INT64) None (Some 1%positive))
              (mkField (Some STRING) None (Some 2%positive))
              eq_refl eq_refl) as (fo' & Hfo' & _ & _ & _ & Hjoin).
  exists fo'. split; [exact Hfo'|]. intros t' Ht'.
  apply (Hjoin INT64 STRING t'); [| |exact Ht'].
  - exists [INT64]. split; [|reflexivity].
    apply range_order_decide. vm_compute. reflexivity.
  - exists [STRING]. split; [|reflexivity].
    apply range_order_decide. vm_compute. reflexivity.
Defined.

(** A field with a cached type resolves to it, whatever its occurrences. *)
Lemma resolves_to_cached parent σ f c t :
  dataType f = Some c → resolves_to parent σ f t ↔ t = c.
Proof.
  intros Hc. unfold resolves_to, Field_GetType. rewrite Hc. split.
  - by intros (types & _ & <-).
  - intros ->. exists (keys (occ_read σ (typeOccurrence f))).
    split; [apply range_order_keys|done].
Qed.

(** A field without cached type whose occurrences include string resolves
    to string. *)
Lemma resolves_to_string parent σ f t :
  hierarchy parent →
  dataType f = None → STRING ∈ occurrences σ f →
  resolves_to parent σ f t ↔ t = STRING.
Proof.
  intros Hh Hc Hs.
  assert (Field_ok parent σ f) as Hok.
  { split; [|by left]. intros Hempty. rewrite Hempty in Hs.
    by apply elem_of_empty in Hs. }
  rewrite (resolves_to_join parent Hh σ f t Hok).
  destruct (fold_common_is_Some parent
              (keys (occ_read σ (typeOccurrence f)))) as [c Hfold].
  { intros Hnil. apply elem_of_keys in Hs. rewrite Hnil in Hs.
    by apply not_elem_of_nil in Hs. }
  assert (c = STRING) as ->.
  { apply (below_antisym parent STRING 5 Hh).
    - apply (below_top parent STRING 5 Hh).
    - apply (fold_common_upper parent Hh _ c STRING Hfold).
      by apply elem_of_keys. }
  rewrite Hfold. split; [by intros [= <-]|by intros ->].
Qed.

(** C3, as stated, fails on values the methods themselves produce.  Take
    the empty value [f] and three values with one field [a] each, as
    [NewField] makes them: [g] integer, [h] string, [k] integer.  After
    [f.Merge(g)] the entry of [f] holds the occurrence map of the entry
    of [g] (line 29 stores the entry itself), so [f.Merge(h)] adds string
    to the occurrences of the entry of [g] and wipes the cached type in
    [f] only: the entry of [g] keeps the cache integer.  Then [k.Merge(g)]
    leaves [k] resolving [a] to string, whereas [k] resolved it to
    integer before, [g] resolves it to integer, and the join of integer
    with integer is integer, in every hierarchy. *)
Theorem Fields_Merge_after_reuse :
  ∃ σ1 σ2 σ3 go k',
    Fields_Merge ["a"%string] (Some 1%positive) (Some 2%positive)
      sample_store_reuse = Some σ1
    ∧ Fields_Merge ["a"%string] (Some 1%positive) (Some 3%positive) σ1
      = Some σ2
    ∧ fields_read σ2 (Some 2%positive) !! "a"%string = Some go
    ∧ fields_read σ2 (Some 4%positive) !! "a"%string
      = Some (mkField (Some INT64) None (Some 3%positive))
    ∧ occurrences sample_store_reuse go = {[INT64]}
    ∧ occurrences σ2 go = {[INT64; STRING]}
    ∧ Fields_Merge ["a"%string] (Some 4%positive) (Some 2%positive) σ2
      = Some σ3
    ∧ fields_read σ3 (Some 4%positive) !! "a"%string = Some k'
    ∧ ∀ parent, hierarchy parent →
        (∀ t, resolves_to parent σ2
                (mkField (Some INT64) None (Some 3%positive)) t
              ↔ t = INT64)
        ∧ (∀ t, resolves_to parent σ2 go t ↔ t = INT64)
        ∧ (∀ t, resolves_to parent σ3 k' t ↔ t = STRING)
        ∧ GetCommonAncestorType parent INT64 INT64 = INT64
        ∧ ¬ (∀ tf tg t',
               resolves_to parent σ2
                 (mkField (Some INT64) None (Some 3%positive)) tf →
               resolves_to parent σ2 go tg →
               resolves_to parent σ3 k' t' →
               t' = GetCommonAncestorType parent tf tg).
Proof.
  destruct (Fields_Merge ["a"%string] (Some 1%positive) (Some 2%positive)
              sample_store_reuse) as [σ1|] eqn:H1; [|by vm_compute in H1].
  pose proof H1 as E1. vm_compute in E1. injection E1 as <-.
  match type of H1 with _ = Some ?s =>
    destruct (Fields_Merge ["a"%string] (Some 1%positive) (Some 3%positive) s)
      as [σ2|] eqn:H2; [|by vm_compute in H2] end.
  pose proof H2 as E2. vm_compute in E2. injection E2 as <-.
  match type of H2 with _ = Some ?s =>
    destruct (Fields_Merge ["a"%string] (Some 4%positive) (Some 2%positive) s)
      as [σ3|] eqn:H3; [|by vm_compute in H3] end.
  pose proof H3 as E3. vm_compute in E3. injection E3 as <-.
  eexists _, _, _, (mkField (Some INT64) None (Some 1%positive)),
    (mkField None None (Some 3%positive)).
  split; [exact H1|]. split; [exact H2|]. split; [reflexivity|].
  split; [reflexivity|]. split; [by vm_compute|]. split; [by vm_compute|].
  split; [exact H3|]. split; [reflexivity|].
  intros parent Hh.
  split; [intros t; by apply resolves_to_cached|].
  split; [intros t; by apply resolves_to_cached|].
  split; [intros t; apply resolves_to_string; [done|done|by vm_compute]|].
  split; [by apply join_idem|].
  intros Hclaim.
  enough (STRING = GetCommonAncestorType parent INT64 INT64) as Habs.
  { rewrite (join_idem parent Hh) in Habs. discriminate Habs. }
  apply Hclaim.
  - by apply (resolves_to_cached parent _ _ INT64).
  - by apply (resolves_to_cached parent _ _ INT64).
  - apply resolves_to_string; [done|done|by vm_compute|done].
Qed.

(** ** Fields.Add *)

Section AddLoop.
Variable σ0 : Store.
Variables lf lg : loc.
Variables F G : gmap string Field.
Hypothesis HF : fieldsObjects σ0 !! lf = Some F.
Hypothesis HG : fieldsObjects σ0 !! lg = Some G.

(** The state of the loop once the names in [P] have been visited. *)
Local Abbreviation added P σ :=
  (occurrenceObjects σ = occurrenceObjects σ0
   ∧ (∀ l, l ≠ lf → fieldsObjects σ !! l = fieldsObjects σ0 !! l)
   ∧ (∃ Fk, fieldsObjects σ !! lf = Some Fk
        ∧ ∀ n, Fk !! n = match F !! n with
                         | Some fo => Some fo
                         | None => if decide (n ∈ (P : gset string))
                                   then G !! n else None
                         end)).

Lemma added_start : added (∅ : gset string) σ0.
Proof.
  split; [done|]. split; [done|]. exists F. split; [done|].
  intros n. by destruct (F !! n).
Qed.

Lemma added_step P σ n rest :
  added P σ → n ∉ P →
  ∃ σ1, Fields_Add (n :: rest) (Some lf) (Some lg) σ
        = Fields_Add rest (Some lf) (Some lg) σ1
        ∧ added ({[n]} ∪ P) σ1.
Proof.
  intros (Hocc & Hother & (Fk & HFk & Hk)) Hn.
  assert (∀ x, x ≠ n → x ∈ {[n]} ∪ P ↔ x ∈ P) as Hmem.
  { intros x Hx. rewrite elem_of_union, elem_of_singleton.
    split; [by intros [?|?]|by right]. }
  assert (n ∈ {[n]} ∪ P) as Hnin.
  { apply elem_of_union_l. by apply elem_of_singleton. }
  assert (fields_read σ (Some lf) !! n = F !! n) as Hreadf.
  { cbn [fields_read]. rewrite HFk. cbn. rewrite Hk.
    destruct (F !! n); [done|]. by rewrite decide_False. }
  assert (fields_read σ (Some lg) !! n = G !! n) as Hread.
  { cbn [fields_read]. destruct (decide (lg = lf)) as [->|Hne].
    - rewrite HFk. cbn. rewrite Hk. assert (F = G) as -> by congruence.
      destruct (G !! n); [done|]. by rewrite decide_False.
    - rewrite Hother by done. by rewrite HG. }
  assert (∀ Fk' : gmap string Field, (∀ x, x ≠ n → Fk' !! x = Fk !! x) →
            Fk' !! n = match F !! n with
                       | Some fo => Some fo
                       | None => G !! n
                       end →
            ∀ x, Fk' !! x = match F !! x with
                            | Some fo => Some fo
                            | None => if decide (x ∈ {[n]} ∪ P)
                                      then G !! x else None
                            end) as Hnext.
  { intros Fk' Hsame Hat x. destruct (decide (x = n)) as [->|Hx].
    - rewrite Hat. destruct (F !! n); [done|]. by rewrite decide_True.
    - rewrite Hsame, Hk by done. destruct (F !! x); [done|].
      apply decide_ext. symmetry. by apply Hmem. }
  cbn [Fields_Add]. rewrite Hread, Hreadf.
  destruct (G !! n) as [go|] eqn:Hgo.
  - destruct (F !! n) as [fo|] eqn:Hfo.
    + exists σ. split; [done|]. split; [done|]. split; [done|].
      exists Fk. split; [done|]. apply Hnext; [done|].
      by rewrite Hk, Hfo.
    + cbn [fields_write]. rewrite HFk. cbn [mbind option_bind].
      eexists. split; [reflexivity|]. cbn [fieldsObjects occurrenceObjects].
      split; [done|]. split.
      * intros l Hl. rewrite lookup_insert_ne by done. by apply Hother.
      * eexists. split; [apply lookup_insert_eq|]. apply Hnext.
        -- intros x Hx. by rewrite lookup_insert_ne.
        -- apply lookup_insert_eq.
  - exists σ. split; [done|]. split; [done|]. split; [done|].
    exists Fk. split; [done|]. apply Hnext; [done|].
    rewrite Hk. destruct (F !! n); [done|]. by rewrite decide_False.
Qed.

Lemma added_loop rest P σ :
  NoDup rest → (∀ n, n ∈ rest → n ∉ P) → added P σ →
  ∃ σ', Fields_Add rest (Some lf) (Some lg) σ = Some σ'
        ∧ added (list_to_set rest ∪ P) σ'.
Proof.
  revert P σ. induction rest as [|n rest IH]; intros P σ Hnd Hfresh Hv.
  - exists σ. split; [done|]. cbn [list_to_set foldr].
    by rewrite (left_id_L ∅ (∪)).
  - apply NoDup_cons in Hnd as [Hn Hnd].
    destruct (added_step P σ n rest Hv) as (σ1 & -> & Hv1).
    { apply Hfresh, list_elem_of_here. }
    destruct (IH ({[n]} ∪ P) σ1 Hnd) as (σ' & Hrun & Hv'); [|done|].
    { intros x Hx. rewrite not_elem_of_union, elem_of_singleton. split.
      - intros ->. done.
      - apply Hfresh. by apply list_elem_of_further. }
    exists σ'. split; [done|]. cbn [list_to_set foldr].
    replace ({[n]} ∪ list_to_set rest ∪ P)
      with (list_to_set rest ∪ ({[n]} ∪ P)); [done|].
    rewrite (assoc_L (∪)). f_equal. apply (comm_L (∪)).
Qed.

(** [Fields.Add] runs to completion; it writes no occurrence map, and the
    receiver ends with its own entries and, under the names it lacked,
    the entries of the other value. *)
Lemma Fields_Add_effect order :
  range_order G order →
  ∃ σ', Fields_Add order (Some lf) (Some lg) σ0 = Some σ'
        ∧ occurrenceObjects σ' = occurrenceObjects σ0
        ∧ fieldsObjects σ' = <[lf := F ∪ G]> (fieldsObjects σ0).
Proof.
  intros [Hnd Hset].
  destruct (added_loop order ∅ σ0 Hnd) as
    (σ' & Hrun & Hocc & Hother & (F' & HF' & Hk)).
  { intros n _. apply not_elem_of_empty. }
  { apply added_start. }
  exists σ'. split; [done|]. split; [done|].
  apply map_eq. intros l. destruct (decide (l = lf)) as [->|Hl].
  - rewrite lookup_insert_eq, HF'. f_equal. apply map_eq. intros n.
    rewrite Hk, lookup_union. destruct (F !! n) as [fo|].
    + by destruct (G !! n).
    + rewrite (left_id_L None (∪)). case_decide as Hin; [done|].
      destruct (G !! n) as [go|] eqn:Hgo; [|done].
      destruct Hin. apply elem_of_union_l. rewrite Hset.
      apply elem_of_dom. by rewrite Hgo.
  - rewrite lookup_insert_ne by done. by apply Hother.
Qed.
End AddLoop.

Lemma occ_read_ext σ σ' r :
  occurrenceObjects σ' = occurrenceObjects σ → occ_read σ' r = occ_read σ r.
Proof. intros Heq. destruct r as [l|]; [|done]. cbn. by rewrite Heq. Qed.

Lemma resolves_to_ext parent σ σ' f t :
  occ_read σ' (typeOccurrence f) = occ_read σ (typeOccurrence f) →
  resolves_to parent σ' f t ↔ resolves_to parent σ f t.
Proof. intros Heq. unfold resolves_to. by rewrite Heq. Qed.

(** X30.  For any two Fields map objects [f] and [g], [f.Add(g)] returns
    and writes no occurrence map.  Every entry [f] had stays as it is,
    with its occurrence map and the types it resolves to, whatever [g]
    holds under the same name; under a name [f] lacked, [f] has what [g]
    has, and nothing where [g] has nothing. *)
Theorem Fields_Add_keeps_entries (parent : DataType → DataType)
    (order : list string) (σ : Store) (lf lg : loc)
    (F G : gmap string Field) :
  fieldsObjects σ !! lf = Some F →
  fieldsObjects σ !! lg = Some G →
  range_order G order →
  ∃ σa,
    Fields_Add order (Some lf) (Some lg) σ = Some σa
    ∧ occurrenceObjects σa = occurrenceObjects σ
    ∧ (∀ n fo, F !! n = Some fo →
         fields_read σa (Some lf) !! n = Some fo
         ∧ occ_read σa (typeOccurrence fo) = occ_read σ (typeOccurrence fo)
         ∧ ∀ t, resolves_to parent σa fo t ↔ resolves_to parent σ fo t)
    ∧ (∀ n, F !! n = None → fields_read σa (Some lf) !! n = G !! n).
Proof.
  intros HF HG Horder.
  destruct (Fields_Add_effect σ lf lg F G HF HG order Horder)
    as (σa & Hrun & Hocc & Hfields).
  exists σa. split; [done|]. split; [done|].
  assert (fields_read σa (Some lf) = F ∪ G) as Hread.
  { cbn [fields_read]. by rewrite Hfields, lookup_insert_eq. }
  split.
  - intros n fo Hfo. split; [|split].
    + rewrite Hread. by apply lookup_union_Some_l.
    + by apply occ_read_ext.
    + intros t. by apply resolves_to_ext, occ_read_ext.
  - intros n Hfo. rewrite Hread. by apply lookup_union_r.
Qed.

Lemma Fields_Add_keeps_entries_witness :
  range_order sample_G ["a"; "b"]%string
  ∧ ∃ σa,
      Fields_Add ["a"; "b"]%string (Some 1%positive) (Some 2%positive)
        sample_store = Some σa
      ∧ fields_read σa (Some 1%positive) !! "a"%string
        = Some (mkField (Some INT64) None (Some 1%positive))
      ∧ fields_read σa (Some 1%positive) !! "b"%string
        = Some (mkField (Some BOOL) None (Some 3%positive))
      ∧ ∀ t, resolves_to chain_parent σa
               (mkField (Some INT64) None (Some 1%positive)) t
             ↔ resolves_to chain_parent sample_store
                 (mkField (Some INT64) None (Some 1%positive)) t.
Proof.
  assert (range_order sample_G ["a"; "b"]%string) as Horder.
  { apply range_order_decide. vm_compute. reflexivity. }
  split; [exact Horder|].
  destruct (Fields_Add_keeps_entries chain_parent ["a"; "b"]%string
              sample_store 1%positive 2%positive sample_F sample_G
              eq_refl eq_refl Horder)
    as (σa & Hadd & _ & Hkept & Hnew).
  exists σa. split; [exact Hadd|].
  destruct (Hkept "a"%string (mkField (Some INT64) None (Some 1%positive))
              eq_refl) as (Ha & _ & Hres).
  split; [exact Ha|]. split; [|exact Hres].
  exact (Hnew "b"%string eq_refl).
Defined.

(** C6: its merge half, as stated, fails on values the methods
    themselves produce.  Take the empty value [f], the value [k] with the
    boolean field [a] and the value [h] with the string field [a], as
    [NewField] makes them.  After [f.Merge(k)] and [f.Merge(h)] the entry
    of [k] has the occurrences boolean and string, through the map it
    shares with [f], and still the cached type boolean.  The two entries
    under [a] then have differing types, boolean in [k] and string in
    [h].  [k.Add(h)] leaves the entry of [k] as it is, as C6 says;
    but so does [k.Merge(h)], which finds no new kind: [k] goes on
    resolving [a] to boolean, whereas the join of boolean and string is
    string, in every hierarchy. *)
Theorem Fields_Merge_not_widened_after_reuse :
  ∃ σ1 σ2 σa σm ko,
    Fields_Merge ["a"%string] (Some 1%positive) (Some 2%positive)
      sample_store_chain = Some σ1
    ∧ Fields_Merge ["a"%string] (Some 1%positive) (Some 3%positive) σ1
      = Some σ2
    ∧ fields_read σ2 (Some 2%positive) !! "a"%string = Some ko
    ∧ fields_read σ2 (Some 3%positive) !! "a"%string
      = Some (mkField (Some STRING) None (Some 2%positive))
    ∧ occurrences σ2 ko = {[BOOL; STRING]}
    ∧ Fields_Add ["a"%string] (Some 2%positive) (Some 3%positive) σ2
      = Some σa
    ∧ fields_read σa (Some 2%positive) !! "a"%string = Some ko
    ∧ Fields_Merge ["a"%string] (Some 2%positive) (Some 3%positive) σ2
      = Some σm
    ∧ fields_read σm (Some 2%positive) !! "a"%string = Some ko
    ∧ ∀ parent, hierarchy parent →
        (∀ t, resolves_to parent σ2 ko t ↔ t = BOOL)
        ∧ (∀ t, resolves_to parent σ2
                  (mkField (Some STRING) None (Some 2%positive)) t
                ↔ t = STRING)
        ∧ (∀ t, resolves_to parent σm ko t ↔ t = BOOL)
        ∧ GetCommonAncestorType parent BOOL STRING = STRING
        ∧ ¬ (∀ tf tg t',
               resolves_to parent σ2 ko tf →
               resolves_to parent σ2
                 (mkField (Some STRING) None (Some 2%positive)) tg →
               resolves_to parent σm ko t' →
               t' = GetCommonAncestorType parent tf tg).
Proof.
  destruct (Fields_Merge ["a"%string] (Some 1%positive) (Some 2%positive)
              sample_store_chain) as [σ1|] eqn:H1; [|by vm_compute in H1].
  pose proof H1 as E1. vm_compute in E1. injection E1 as <-.
  match type of H1 with _ = Some ?s =>
    destruct (Fields_Merge ["a"%string] (Some 1%positive) (Some 3%positive) s)
      as [σ2|] eqn:H2; [|by vm_compute in H2] end.
  pose proof H2 as E2. vm_compute in E2. injection E2 as <-.
  match type of H2 with _ = Some ?s =>
    destruct (Fields_Add ["a"%string] (Some 2%positive) (Some 3%positive) s)
      as [σa|] eqn:Ha; [|by vm_compute in Ha];
    destruct (Fields_Merge ["a"%string] (Some 2%positive) (Some 3%positive) s)
      as [σm|] eqn:Hm; [|by vm_compute in Hm] end.
  pose proof Ha as Ea. vm_compute in Ea. injection Ea as <-.
  pose proof Hm as Em. vm_compute in Em. injection Em as <-.
  eexists _, _, _, _, (mkField (Some BOOL) None (Some 1%positive)).
  split; [exact H1|]. split; [exact H2|]. split; [reflexivity|].
  split; [reflexivity|]. split; [by vm_compute|].
  split; [exact Ha|]. split; [reflexivity|].
  split; [exact Hm|]. split; [reflexivity|].
  intros parent Hh.
  split; [intros t; by apply resolves_to_cached|].
  split; [intros t; by apply resolves_to_cached|].
  split; [intros t; by apply resolves_to_cached|].
  split; [by apply join_string|].
  intros Hclaim.
  enough (BOOL = GetCommonAncestorType parent BOOL STRING) as Habs.
  { rewrite (join_string parent Hh) in Habs. discriminate Habs. }
  apply Hclaim.
  - by apply (resolves_to_cached parent _ _ BOOL).
  - by apply (resolves_to_cached parent _ _ STRING).
  - by apply (resolves_to_cached parent _ _ BOOL).
Qed.

(** ** Fields.Clone *)

Lemma copy_occurrences_lookup entries acc k :
  NoDup entries.*1 →
  copy_occurrences entries acc !! k
  = match (list_to_map entries : gmap DataType bool) !! k with
    | Some v => Some v
    | None => acc !! k
    end.
Proof.
  revert acc. induction entries as [|[k0 v0] rest IH]; intros acc Hnd.
  - cbn [list_to_map foldr]. by rewrite lookup_empty.
  - apply NoDup_cons in Hnd as [Hk0 Hnd].
    unfold copy_occurrences in *. cbn [foldl fst snd].
    rewrite IH by done. cbn [list_to_map foldr uncurry fst snd].
    destruct (decide (k = k0)) as [->|Hne].
    + rewrite (not_elem_of_list_to_map_1 rest k0) by done.
      by rewrite !lookup_insert_eq.
    + by rewrite !lookup_insert_ne.
Qed.

(** The inner loop of [Clone] yields a copy of the map it ranges over. *)
Lemma copy_occurrences_all m : copy_occurrences (map_to_list m) ∅ = m.
Proof.
  apply map_eq. intros k.
  rewrite copy_occurrences_lookup by apply NoDup_fst_map_to_list.
  rewrite list_to_map_to_list, lookup_empty. by destruct (m !! k).
Qed.

Section CloneLoop.
Variable σ0 : Store.
Variable lf : loc.
Variable F : gmap string Field.
Hypothesis HF : fieldsObjects σ0 !! lf = Some F.

Local Abbreviation c := (fresh (dom (fieldsObjects σ0))).

Lemma clone_fresh : fieldsObjects σ0 !! c = None.
Proof. apply not_elem_of_dom, is_fresh. Qed.

Lemma clone_other : lf ≠ c.
Proof. intros Heq. pose proof clone_fresh as Hc. congruence. Qed.

(** The state of the loop once the names in [P] have been visited. *)
Local Abbreviation cloned P σ :=
  ((∀ l, l ≠ c → fieldsObjects σ !! l = fieldsObjects σ0 !! l)
   ∧ (∀ l, is_Some (occurrenceObjects σ0 !! l) →
        occurrenceObjects σ !! l = occurrenceObjects σ0 !! l)
   ∧ (∃ C, fieldsObjects σ !! c = Some C
        ∧ ∀ n, match C !! n with
               | None => n ∉ (P : gset string) ∨ F !! n = None
               | Some fc =>
                   n ∈ P
                   ∧ ∃ fo l m,
                       F !! n = Some fo
                       ∧ fc = mkField (dataType fo) None (Some l)
                       ∧ occurrenceObjects σ0 !! l = None
                       ∧ occurrenceObjects σ !! l = Some m
                       ∧ (Field_allocated σ0 fo →
                            m = occ_read σ0 (typeOccurrence fo))
               end)
   ∧ (∀ C n n' fc fc' l,
        fieldsObjects σ !! c = Some C →
        C !! n = Some fc → C !! n' = Some fc' →
        typeOccurrence fc = Some l → typeOccurrence fc' = Some l → n = n')).

Lemma cloned_start :
  cloned (∅ : gset string)
    (mkStore (<[c := ∅]> (fieldsObjects σ0)) (occurrenceObjects σ0)).
Proof.
  split; [|split].
  - intros l Hl. cbn. by rewrite lookup_insert_ne.
  - done.
  - split.
    + exists ∅. split; [apply lookup_insert_eq|]. intros n.
      rewrite lookup_empty. left. apply not_elem_of_empty.
    + intros C n n' fc fc' l HC. cbn in HC.
      rewrite lookup_insert_eq in HC. injection HC as <-.
      by rewrite lookup_empty.
Qed.

Lemma cloned_occ_read σ P fo :
  cloned P σ → Field_allocated σ0 fo →
  occ_read σ (typeOccurrence fo) = occ_read σ0 (typeOccurrence fo).
Proof.
  intros (_ & Hold & _ & _) Ha. unfold Field_allocated in Ha.
  destruct (typeOccurrence fo) as [l|]; [|done].
  cbn [occ_read]. by rewrite Hold.
Qed.

Lemma cloned_step P σ n rest :
  cloned P σ → n ∉ P →
  ∃ σ1, Fields_Clone_loop (n :: rest) (Some lf) c σ
        = Fields_Clone_loop rest (Some lf) c σ1
        ∧ cloned ({[n]} ∪ P) σ1.
Proof.
  intros Hv Hn. pose proof (λ fo, cloned_occ_read σ P fo Hv) as Hocc.
  destruct Hv as (Hother & Hold & (C & HC & Hk) & Hdist).
  pose proof (λ n n' fc fc' l, Hdist C n n' fc fc' l HC) as Hd.
  assert (∀ x, x ≠ n → x ∈ {[n]} ∪ P ↔ x ∈ P) as Hmem.
  { intros x Hx. rewrite elem_of_union, elem_of_singleton.
    split; [by intros [?|?]|by right]. }
  assert (n ∈ {[n]} ∪ P) as Hnin.
  { apply elem_of_union_l. by apply elem_of_singleton. }
  assert (fields_read σ (Some lf) !! n = F !! n) as Hread.
  { cbn [fields_read]. rewrite Hother by apply clone_other. by rewrite HF. }
  assert (C !! n = None) as HCn.
  { specialize (Hk n). destruct (C !! n); [by destruct Hk|done]. }
  cbn [Fields_Clone_loop]. rewrite Hread.
  destruct (F !! n) as [fo|] eqn:Hfo.
  - eexists. split; [reflexivity|]. unfold Fields_Clone_step.
    cbn [fieldsObjects occurrenceObjects fields_read].
    rewrite HC. cbn [default from_option id].
    set (l := fresh (dom (occurrenceObjects σ))).
    assert (occurrenceObjects σ !! l = None) as Hl.
    { apply not_elem_of_dom, is_fresh. }
    assert (occurrenceObjects σ0 !! l = None) as Hl0.
    { destruct (occurrenceObjects σ0 !! l) eqn:H0; [|done].
      rewrite <- Hold in H0 by eauto. congruence. }
    split; [|split; [|split]].
    + intros l' Hl'. rewrite lookup_insert_ne by done. by apply Hother.
    + intros l' Hl'. rewrite lookup_insert_ne; [by apply Hold|].
      intros ->. destruct Hl' as [? ?]. congruence.
    + eexists. split; [apply lookup_insert_eq|]. intros x.
      destruct (decide (x = n)) as [->|Hx].
      * rewrite lookup_insert_eq. split; [done|].
        exists fo, l. eexists. split; [done|]. split; [done|].
        split; [done|]. split; [apply lookup_insert_eq|].
        intros Ha. rewrite copy_occurrences_all. by apply Hocc.
      * rewrite lookup_insert_ne by done. specialize (Hk x).
        destruct (C !! x) as [fc|].
        -- destruct Hk as (Hx' & fo' & l' & m' & ? & ? & ? & Hm' & ?).
           split; [by apply Hmem|]. exists fo', l', m'.
           repeat (split; [done|]). split; [|done].
           rewrite lookup_insert_ne; [done|]. intros ->. congruence.
        -- destruct Hk as [Hk|Hk]; [left|by right].
           by rewrite Hmem.
    + assert (∀ x fc, C !! x = Some fc → typeOccurrence fc ≠ Some l)
        as Hold_ref.
      { intros x fc Hfc Href. specialize (Hk x). rewrite Hfc in Hk.
        destruct Hk as (_ & fo' & l' & m' & _ & -> & _ & Hm' & _).
        cbn in Href. congruence. }
      intros C' x x' fc fc' l' HC'. rewrite lookup_insert_eq in HC'.
      injection HC' as <-. intros Hfc Hfc' Href Href'.
      destruct (decide (x = n)) as [->|Hx];
        destruct (decide (x' = n)) as [->|Hx']; [done|..].
      * rewrite lookup_insert_eq in Hfc. rewrite lookup_insert_ne in Hfc' by done.
        injection Hfc as <-. cbn in Href. injection Href as <-.
        by destruct (Hold_ref x' fc').
      * rewrite lookup_insert_eq in Hfc'. rewrite lookup_insert_ne in Hfc by done.
        injection Hfc' as <-. cbn in Href'. injection Href' as <-.
        by destruct (Hold_ref x fc).
      * rewrite lookup_insert_ne in Hfc, Hfc' by done.
        by eapply (Hd x x' fc fc' l').
  - exists σ. split; [done|]. split; [done|]. split; [done|]. split.
    + exists C. split; [done|]. intros x.
      destruct (decide (x = n)) as [->|Hx].
      * rewrite HCn. by right.
      * specialize (Hk x). destruct (C !! x) as [fc|].
        -- destruct Hk as [Hx' Hrest]. split; [by apply Hmem|done].
        -- destruct Hk as [Hk|Hk]; [left|by right]. by rewrite Hmem.
    + intros C' x x' fc fc' l' HC'.
      assert (C' = C) as -> by congruence. by apply Hd.
Qed.

Lemma cloned_loop rest P σ :
  NoDup rest → (∀ n, n ∈ rest → n ∉ P) → cloned P σ →
  cloned (list_to_set rest ∪ P) (Fields_Clone_loop rest (Some lf) c σ).
Proof.
  revert P σ. induction rest as [|n rest IH]; intros P σ Hnd Hfresh Hv.
  - cbn [list_to_set foldr Fields_Clone_loop].
    by rewrite (left_id_L ∅ (∪)).
  - apply NoDup_cons in Hnd as [Hn Hnd].
    destruct (cloned_step P σ n rest Hv) as (σ1 & -> & Hv1).
    { apply Hfresh, list_elem_of_here. }
    cbn [list_to_set foldr].
    replace ({[n]} ∪ list_to_set rest ∪ P)
      with (list_to_set rest ∪ ({[n]} ∪ P)).
    + apply IH; [done| |done].
      intros x Hx. rewrite not_elem_of_union, elem_of_singleton. split.
      * intros ->. done.
      * apply Hfresh. by apply list_elem_of_further.
    + rewrite (assoc_L (∪)). f_equal. apply (comm_L (∪)).
Qed.
End CloneLoop.

(** [Fields.Clone]: the new map, its entries and their fresh occurrence
    maps; no object of the store before the call is written. *)
Lemma Fields_Clone_effect order σ lf F c σ' :
  fieldsObjects σ !! lf = Some F →
  range_order F order →
  Fields_Clone order (Some lf) σ = (c, σ') →
  fieldsObjects σ !! c = None
  ∧ (∀ l, l ≠ c → fieldsObjects σ' !! l = fieldsObjects σ !! l)
  ∧ (∀ l, is_Some (occurrenceObjects σ !! l) →
       occurrenceObjects σ' !! l = occurrenceObjects σ !! l)
  ∧ ∃ C, fieldsObjects σ' !! c = Some C
      ∧ (∀ n, C !! n = None ↔ F !! n = None)
      ∧ (∀ n fc, C !! n = Some fc →
           ∃ fo l m,
             F !! n = Some fo
             ∧ fc = mkField (dataType fo) None (Some l)
             ∧ occurrenceObjects σ !! l = None
             ∧ occurrenceObjects σ' !! l = Some m
             ∧ (Field_allocated σ fo → m = occ_read σ (typeOccurrence fo)))
      ∧ (∀ n n' fc fc' l,
           C !! n = Some fc → C !! n' = Some fc' →
           typeOccurrence fc = Some l → typeOccurrence fc' = Some l →
           n = n').
Proof.
  intros HF [Hnd Hset] Hclone. unfold Fields_Clone in Hclone.
  injection Hclone as <- <-.
  pose proof (cloned_loop σ lf F HF order ∅ _ Hnd
                (λ n _, not_elem_of_empty n) (cloned_start σ F))
    as (Hother & Hold & (C & HC & Hk) & Hdist).
  split; [apply clone_fresh|]. split; [done|]. split; [done|].
  exists C. split; [done|]. split; [|split].
  - intros n. specialize (Hk n). destruct (C !! n) as [fc|].
    + destruct Hk as (_ & fo & ? & ? & Hfo & _). split; [done|congruence].
    + split; [|done]. intros _. destruct Hk as [Hk|Hk]; [|done].
      apply not_elem_of_dom. rewrite <- Hset.
      intros Hin. apply Hk. by apply elem_of_union_l.
  - intros n fc Hfc. specialize (Hk n). rewrite Hfc in Hk.
    destruct Hk as (_ & fo & l & m & Hk). by exists fo, l, m.
  - intros n n' fc fc' l. by apply Hdist.
Qed.

(** ** What a merge can write *)

Lemma Field_Merge_in_frame ts f σ f' σ' :
  Field_Merge_in ts f σ = Some (f', σ') →
  fieldsObjects σ' = fieldsObjects σ
  ∧ ∀ l, typeOccurrence f ≠ Some l →
      occurrenceObjects σ' !! l = occurrenceObjects σ !! l.
Proof.
  intros Hrun.
  destruct (typeOccurrence f) as [l0|] eqn:Hl0.
  - destruct (occurrenceObjects σ !! l0) as [m|] eqn:Hm.
    + rewrite (Field_Merge_in_alloc ts f σ l0 m Hl0 Hm) in Hrun.
      injection Hrun as <- <-. split; [done|]. intros l Hl. cbn.
      rewrite lookup_insert_ne; [done|]. congruence.
    + rewrite Field_Merge_in_unalloc in Hrun by (intros ? ?; congruence).
      destruct ts; [|done]. by injection Hrun as <- <-.
  - rewrite Field_Merge_in_unalloc in Hrun by (intros ? ?; congruence).
    destruct ts; [|done]. by injection Hrun as <- <-.
Qed.

(** [f.Merge(g)] writes the map object of [f] and the occurrence maps its
    entries referred to on entry, and nothing else. *)
Lemma Fields_Merge_frame order x g σ X σ'' :
  NoDup order →
  fieldsObjects σ !! x = Some X →
  Fields_Merge order (Some x) g σ = Some σ'' →
  (∀ l, l ≠ x → fieldsObjects σ'' !! l = fieldsObjects σ !! l)
  ∧ (∀ l, (∀ n fo, n ∈ order → X !! n = Some fo →
             typeOccurrence fo ≠ Some l) →
       occurrenceObjects σ'' !! l = occurrenceObjects σ !! l).
Proof.
  revert σ X. induction order as [|n rest IH]; intros σ X Hnd HX Hrun.
  { cbn in Hrun. by injection Hrun as <-. }
  apply NoDup_cons in Hnd as [Hn Hnd]. cbn [Fields_Merge] in Hrun.
  assert (∀ σ2 X2,
            fieldsObjects σ2 = <[x := X2]> (fieldsObjects σ) →
            (∀ n', n' ≠ n → X2 !! n' = X !! n') →
            (∀ l, (∀ fo, X !! n = Some fo → typeOccurrence fo ≠ Some l) →
               occurrenceObjects σ2 !! l = occurrenceObjects σ !! l) →
            Fields_Merge rest (Some x) g σ2 = Some σ'' →
            (∀ l, l ≠ x → fieldsObjects σ'' !! l = fieldsObjects σ !! l)
            ∧ (∀ l, (∀ n' fo, n' ∈ n :: rest → X !! n' = Some fo →
                       typeOccurrence fo ≠ Some l) →
                 occurrenceObjects σ'' !! l = occurrenceObjects σ !! l))
    as Hnext.
  { intros σ2 X2 Hfields Hsame Hocc Hrest.
    destruct (IH σ2 X2 Hnd) as [Hf Ho]; [|done|].
    { by rewrite Hfields, lookup_insert_eq. }
    split.
    - intros l Hl. rewrite Hf, Hfields by done. by rewrite lookup_insert_ne.
    - intros l Hl. rewrite Ho.
      + apply Hocc. intros fo. apply Hl, list_elem_of_here.
      + intros n' fo Hn' Hfo. apply (Hl n' fo).
        * by apply list_elem_of_further.
        * rewrite <- Hsame; [done|]. by intros ->. }
  destruct (fields_read σ g !! n) as [go|].
  - cbn [fields_read] in Hrun. rewrite HX in Hrun.
    cbn [default from_option id] in Hrun.
    destruct (X !! n) as [cur|] eqn:Hcur.
    + destruct (Field_Merge cur go σ) as [[cur' σ1]|] eqn:Hmerge; [|done].
      apply Field_Merge_in_frame in Hmerge as [Hf1 Ho1].
      cbn [mbind option_bind fields_write] in Hrun.
      rewrite Hf1, HX in Hrun. cbn [mbind option_bind] in Hrun.
      eapply (Hnext _ (<[n := cur']> X)); [..|exact Hrun].
      * done.
      * intros n' Hn'. by rewrite lookup_insert_ne.
      * intros l Hl. cbn. apply Ho1. by apply Hl.
    + cbn [mbind option_bind fields_write] in Hrun. rewrite HX in Hrun.
      cbn [mbind option_bind] in Hrun.
      eapply (Hnext _ (<[n := go]> X)); [..|exact Hrun].
      * done.
      * intros n' Hn'. by rewrite lookup_insert_ne.
      * done.
  - eapply (Hnext σ X); [..|exact Hrun]; try done.
    by rewrite insert_id.
Qed.

Lemma Fields_Merge_modifies_only order x g σ X σ'' :
  NoDup order →
  fieldsObjects σ !! x = Some X →
  Fields_Merge order (Some x) g σ = Some σ'' →
  modifies_only x X σ σ''.
Proof.
  intros Hnd HX Hrun.
  destruct (Fields_Merge_frame order x g σ X σ'' Hnd HX Hrun) as [Hf Ho].
  split; [done|]. intros l Hl. apply Ho. intros n fo _ Hfo Href.
  apply Hl. by exists n, fo.
Qed.

Lemma same_fields_resolves parent σ σ' r n f t :
  same_fields σ σ' r →
  fields_read σ r !! n = Some f →
  resolves_to parent σ' f t ↔ resolves_to parent σ f t.
Proof. intros [_ Hocc] Hf. apply resolves_to_ext. by eapply Hocc. Qed.

(** ** Independence of a clone *)

Lemma Field_allocated_ref σ F n fo l :
  Fields_allocated σ F → F !! n = Some fo → typeOccurrence fo = Some l →
  is_Some (occurrenceObjects σ !! l).
Proof.
  intros Ha Hfo Hl. specialize (Ha n fo Hfo). unfold Field_allocated in Ha.
  by rewrite Hl in Ha.
Qed.

(** C8.  [f.Clone()] returns a map object that did not exist, with the
    names of [f]; each entry has the cached type of the original entry
    and an occurrence map that did not exist, shared with no other entry
    and holding a copy of the original's occurrences.  No object of the
    store before the call is written.  Whatever is then written to the
    clone's map and occurrence maps, adding or removing kinds, merging
    into the clone, the original reads as before the call, occurrence
    sets and resolved types included; and whatever is written to the
    original's map and occurrence maps, the clone reads as it did. *)
Theorem Clone_independent (order : list string) (σ : Store) (lf : loc)
    (F : gmap string Field) (c : loc) (σ' : Store) :
  fieldsObjects σ !! lf = Some F →
  range_order F order →
  Fields_allocated σ F →
  Fields_Clone order (Some lf) σ = (c, σ') →
  ∃ C,
    fieldsObjects σ !! c = None
    ∧ fieldsObjects σ' !! c = Some C
    ∧ dom C = dom F
    ∧ (∀ n fo, F !! n = Some fo →
         ∃ fc l, C !! n = Some fc
           ∧ dataType fc = dataType fo
           ∧ typeOccurrence fc = Some l
           ∧ occurrenceObjects σ !! l = None
           ∧ occurrenceObjects σ' !! l
             = Some (occ_read σ (typeOccurrence fo)))
    ∧ (∀ n n' fc fc' l,
         C !! n = Some fc → C !! n' = Some fc' →
         typeOccurrence fc = Some l → typeOccurrence fc' = Some l →
         n = n')
    ∧ same_fields σ σ' (Some lf)
    ∧ (∀ σ'', modifies_only c C σ' σ'' → same_fields σ σ'' (Some lf))
    ∧ (∀ σ'', modifies_only lf F σ' σ'' → same_fields σ' σ'' (Some c))
    ∧ (∀ order' g σ'', NoDup order' →
         Fields_Merge order' (Some c) g σ' = Some σ'' →
         same_fields σ σ'' (Some lf))
    ∧ (∀ order' g σ'', NoDup order' →
         Fields_Merge order' (Some lf) g σ' = Some σ'' →
         same_fields σ' σ'' (Some c))
    ∧ (∀ parent σ1 σ2 r n f t,
         same_fields σ1 σ2 r → fields_read σ1 r !! n = Some f →
         resolves_to parent σ2 f t ↔ resolves_to parent σ1 f t).
Proof.
  intros HF Horder Halloc Hclone.
  destruct (Fields_Clone_effect order σ lf F c σ' HF Horder Hclone)
    as (Hfresh & Hother & Hold & C & HC & Hnone & Hentry & Hdist).
  assert (lf ≠ c) as Hlfc by (intros ->; congruence).
  assert (fieldsObjects σ' !! lf = Some F) as HF'.
  { by rewrite Hother. }
  assert (∀ l, refers C l → occurrenceObjects σ !! l = None) as HrefC.
  { intros l (n & fc & Hfc & Href).
    destruct (Hentry n fc Hfc) as (fo & l' & m & _ & -> & Hl' & _).
    cbn in Href. congruence. }
  assert (∀ l, refers F l → is_Some (occurrenceObjects σ !! l)) as HrefF.
  { intros l (n & fo & Hfo & Href). by eapply Field_allocated_ref. }
  assert (∀ σ'', modifies_only c C σ' σ'' → same_fields σ σ'' (Some lf))
    as Hclone_side.
  { intros σ'' [Hf Ho]. split.
    - cbn [fields_read]. by rewrite Hf, HF', HF.
    - cbn [fields_read]. rewrite HF. cbn. intros n fo Hfo.
      destruct (typeOccurrence fo) as [l|] eqn:Hl; [|done].
      cbn [occ_read]. rewrite Ho, Hold; [done|..].
      + by eapply Field_allocated_ref.
      + intros Href. apply HrefC in Href.
        destruct (Field_allocated_ref σ F n fo l Halloc Hfo Hl). congruence. }
  assert (∀ σ'', modifies_only lf F σ' σ'' → same_fields σ' σ'' (Some c))
    as Horig_side.
  { intros σ'' [Hf Ho]. split.
    - cbn [fields_read]. by rewrite Hf.
    - cbn [fields_read]. rewrite HC. cbn. intros n fc Hfc.
      destruct (typeOccurrence fc) as [l|] eqn:Hl; [|done].
      cbn [occ_read]. rewrite Ho; [done|].
      intros Href. apply HrefF in Href as [? Href].
      rewrite HrefC in Href; [done|]. by exists n, fc. }
  exists C. split; [done|]. split; [done|]. split.
  { apply set_eq. intros n. rewrite !elem_of_dom, <- !not_eq_None_Some.
    by rewrite Hnone. }
  split.
  { intros n fo Hfo. destruct (C !! n) as [fc|] eqn:Hfc.
    - destruct (Hentry n fc Hfc) as (fo' & l & m & Hfo' & -> & Hl & Hm & Hcopy).
      assert (fo' = fo) as -> by congruence.
      exists (mkField (dataType fo) None (Some l)), l.
      repeat (split; [done|]). rewrite Hm, Hcopy; [done|]. by eapply Halloc.
    - apply Hnone in Hfc. congruence. }
  split; [done|]. split.
  { apply Hclone_side. by split. }
  split; [done|]. split; [done|]. split.
  { intros order' g σ'' Hnd Hrun. apply Hclone_side.
    by eapply Fields_Merge_modifies_only. }
  split.
  { intros order' g σ'' Hnd Hrun. apply Horig_side.
    by eapply Fields_Merge_modifies_only. }
  intros parent σ1 σ2 r n f t. apply same_fields_resolves.
Qed.

Lemma Clone_independent_witness :
  range_order sample_G ["b"; "a"]%string
  ∧ Fields_allocated sample_store sample_G
  ∧ ∃ c σ' C,
      Fields_Clone ["b"; "a"]%string (Some 2%positive) sample_store = (c, σ')
      ∧ fieldsObjects σ' !! c = Some C
      ∧ dom C = dom sample_G
      ∧ same_fields sample_store σ' (Some 2%positive)
      ∧ ∀ order' g σ'', NoDup order' →
          Fields_Merge order' (Some c) g σ' = Some σ'' →
          same_fields sample_store σ'' (Some 2%positive).
Proof.
  assert (range_order sample_G ["b"; "a"]%string) as Horder.
  { apply range_order_decide. vm_compute. reflexivity. }
  assert (Fields_allocated sample_store sample_G) as Halloc.
  { apply (bool_decide_unpack _). vm_compute. exact I. }
  split; [exact Horder|]. split; [exact Halloc|].
  destruct (Fields_Clone ["b"; "a"]%string (Some 2%positive) sample_store)
    as [c σ'] eqn:Hclone.
  destruct (Clone_independent ["b"; "a"]%string sample_store 2%positive
              sample_G c σ' eq_refl Horder Halloc Hclone)
    as (C & _ & HC & Hdom & _ & _ & Hsame & _ & _ & Hmerge & _).
  exists c, σ', C. repeat (split; [first [reflexivity|assumption]|]).
  exact Hmerge.
Defined.

(** C10.  Every entry of [f.Clone()] comes without a type suggestion,
    whatever the original entry carries, so that [GetSuggestedSQLType]
    on it gives the zero column and false for every destination. *)
Theorem Clone_drops_suggestion (order : list string) (σ : Store) (lf : loc)
    (F : gmap string Field) (c : loc) (σ' : Store) :
  fieldsObjects σ !! lf = Some F →
  range_order F order →
  Fields_Clone order (Some lf) σ = (c, σ') →
  ∀ n fo, F !! n = Some fo →
    ∃ fc, fields_read σ' (Some c) !! n = Some fc
      ∧ sqlTypeSuggestion fc = None
      ∧ ∀ destinationType,
          Field_GetSuggestedSQLType fc destinationType
          = (SQLColumn_zero, false).
Proof.
  intros HF Horder Hclone n fo Hfo.
  destruct (Fields_Clone_effect order σ lf F c σ' HF Horder Hclone)
    as (_ & _ & _ & C & HC & Hnone & Hentry & _).
  cbn [fields_read]. rewrite HC. cbn [default from_option id].
  destruct (C !! n) as [fc|] eqn:Hfc.
  - exists fc. split; [done|].
    destruct (Hentry n fc Hfc) as (fo' & l & m & _ & -> & _).
    split; [done|]. intros destinationType. reflexivity.
  - apply Hnone in Hfc. congruence.
Qed.

Lemma Clone_drops_suggestion_witness :
  range_order ({[ "a"%string := sample_suggested ]} : gmap string Field)
    ["a"%string]
  ∧ Field_GetSuggestedSQLType sample_suggested "postgres"
    = (mkSQLColumn "jsonb" "json" true, true)
  ∧ Field_GetSuggestedSQLType sample_suggested "mysql"
    = (mkSQLColumn "text" "text" true, true)
  ∧ ∃ c σ' fc,
      Fields_Clone ["a"%string] (Some 1%positive) sample_store_suggested
      = (c, σ')
      ∧ fields_read σ' (Some c) !! "a"%string = Some fc
      ∧ Field_GetSuggestedSQLType fc "postgres" = (SQLColumn_zero, false)
      ∧ Field_GetSuggestedSQLType fc "mysql" = (SQLColumn_zero, false).
Proof.
  assert (range_order ({[ "a"%string := sample_suggested ]}
                        : gmap string Field) ["a"%string]) as Horder.
  { apply range_order_decide. vm_compute. reflexivity. }
  split; [exact Horder|]. split; [reflexivity|]. split; [reflexivity|].
  destruct (Fields_Clone ["a"%string] (Some 1%positive)
              sample_store_suggested) as [c σ'] eqn:Hclone.
  destruct (Clone_drops_suggestion ["a"%string] sample_store_suggested
              1%positive _ c σ' eq_refl Horder Hclone
              "a"%string sample_suggested eq_refl)
    as (fc & Hfc & _ & Hnone).
  exists c, σ', fc. split; [reflexivity|]. split; [exact Hfc|].
  split; apply Hnone.
Defined.

(** ** Field.GetType and its cache *)

(** On a field that satisfies the invariants, [GetType] returns the join
    of the occurrence set. *)
Lemma Field_GetType_join parent σ f types :
  hierarchy parent → Field_ok parent σ f →
  range_order (occ_read σ (typeOccurrence f)) types →
  fold_common parent (keys (occ_read σ (typeOccurrence f)))
  = Some (Field_GetType parent types f).1.
Proof.
  intros Hh Hok Horder. apply resolves_to_join; [done..|].
  by exists types.
Qed.

(** The caller's struct is what it was, whatever the call computed. *)
Lemma call_GetType_keeps parent types x :
  (call_GetType parent types x).2 = x.
Proof. done. Qed.

(** C5, at the field whose cached type is unset and whose occurrence set
    is [{INT64}]: the call returns INT64 and sets the cached type in the
    copy the method works on; the field of the caller still has no cached
    type after the call. *)
Theorem GetType_result_not_cached :
  range_order (occ_read sample_store_uncached (typeOccurrence sample_uncached))
    [INT64]
  ∧ Field_GetType chain_parent [INT64] sample_uncached
    = (INT64, mkField (Some INT64) None (Some 1%positive))
  ∧ call_GetType chain_parent [INT64] sample_uncached
    = (INT64, sample_uncached)
  ∧ dataType (call_GetType chain_parent [INT64] sample_uncached).2 = None.
Proof.
  split; [|by repeat split].
  apply range_order_decide. vm_compute. reflexivity.
Qed.

(** ** Further checks on concrete inputs *)

(** The copy made by the inner loop of [Clone] does not depend on the
    order in which the range delivers the entries. *)
Lemma copy_occurrences_order m entries :
  entries ≡ₚ map_to_list m → copy_occurrences entries ∅ = m.
Proof.
  intros Hp. apply map_eq. intros k.
  assert (NoDup entries.*1) as Hnd.
  { rewrite Hp. apply NoDup_fst_map_to_list. }
  rewrite copy_occurrences_lookup by done.
  rewrite (list_to_map_proper entries (map_to_list m)) by done.
  rewrite list_to_map_to_list, lookup_empty. by destruct (m !! k).
Qed.

(** [NewField] establishes the invariants of a field. *)
Lemma NewField_ok parent t σ :
  Field_ok parent (NewField t σ).2 (NewField t σ).1
  ∧ Field_allocated (NewField t σ).2 (NewField t σ).1.
Proof.
  unfold Field_ok, Field_allocated, occurrences, NewField.
  cbn [fst snd typeOccurrence dataType occ_read occurrenceObjects].
  rewrite lookup_insert_eq. cbn [default from_option id].
  split; [split|by eexists].
  - rewrite dom_singleton_L. apply non_empty_singleton_L.
  - right. unfold keys. by rewrite map_to_list_singleton.
Qed.

Example BuildConstraintName_sample :
  BuildConstraintName "public" "events" = "public_events_pk"%string.
Proof. reflexivity. Qed.

(** The primary-key scenarios of the spec: re-creation, creation, and a
    constraint managed from outside. *)
Example Diff_pk_recreate :
  let patch := Table_Diff ["id"%string] sample_keyed
                 (Some sample_desired_tenant) in
  DeletePkFields patch = true
  ∧ PKFields patch = {["id"%string; "tenant"%string]}
  ∧ PrimaryKeyName patch = "public_events_pk"%string.
Proof. by vm_compute. Qed.

Example Diff_pk_create :
  let patch := Table_Diff ["name"; "id"]%string sample_current
                 (Some sample_desired) in
  DeletePkFields patch = false
  ∧ PKFields patch = {["id"%string]}
  ∧ PrimaryKeyName patch = "public_events_pk"%string.
Proof. by vm_compute. Qed.

Example Diff_pk_foreign :
  no_pk_change (Table_Diff ["id"%string] sample_foreign
                  (Some sample_desired_tenant)).
Proof. by vm_compute. Qed.

(** A 400 answer is final on the first request: without an error when the
    body carries the validation marker, with the status error otherwise. *)
Example Upload_400_partial_failure :
  MixpanelBulker_Upload None (always 400 sample_partial_failure) false None
  = mkUploadState 400 sample_partial_failure None [] 1.
Proof. reflexivity. Qed.

Example Upload_400_rejected :
  MixpanelBulker_Upload None (always 400 "bad request") false None
  = mkUploadState 400 "bad request" (Some (HttpStatus 400 "")) [] 1.
Proof. reflexivity. Qed.

(** A transport error on every attempt: the whole schedule is slept. *)
Example Upload_unreachable :
  MixpanelBulker_Upload None (λ _, TransportError "timeout") false None
  = mkUploadState 0 "" (Some (TransportFailed "timeout"))
      [100; 200; 200; 500; 0]%Z 5.
Proof. reflexivity. Qed.

(** A closed instance sends nothing. *)
Example Upload_closed :
  MixpanelBulker_Upload None (always 200 "ok") true None
  = mkUploadState 0 "" (Some ClosedInstance) [] 0.
Proof. reflexivity. Qed.

(** Scenario A of the spec: an integer and a string observed for one
    field resolve to string, in either order. *)
Example fold_integer_string :
  fold_common chain_parent [INT64; STRING] = Some STRING
  ∧ fold_common chain_parent [STRING; INT64] = Some STRING.
Proof. by split. Qed.

(** An entry that [Merge] copies in shares its occurrence map with the
    entry it was copied from.  After [f.Merge(g)] into an empty [f] and a
    further [f.Merge(h)], the entry of [g] has gained the kind brought by
    [h] and kept its cached type, which [GetType] goes on returning: the
    entry no longer satisfies the invariants that the statements on
    [Merge] above assume, and its resolved type is not the join of its
    occurrence set. *)
Example Merge_shares_copied_entry :
  ∃ σ1 σ2 fg,
    Fields_Merge ["a"%string] (Some 1%positive) (Some 2%positive)
      sample_store_chain = Some σ1
    ∧ Fields_Merge ["a"%string] (Some 1%positive) (Some 3%positive) σ1
      = Some σ2
    ∧ fields_read sample_store_chain (Some 2%positive) !! "a"%string
      = Some fg
    ∧ fields_read σ2 (Some 2%positive) !! "a"%string = Some fg
    ∧ Field_ok chain_parent sample_store_chain fg
    ∧ occurrences sample_store_chain fg = {[BOOL]}
    ∧ occurrences σ2 fg = {[BOOL; STRING]}
    ∧ (∀ types, (Field_GetType chain_parent types fg).1 = BOOL)
    ∧ fold_common chain_parent (keys (occ_read σ2 (typeOccurrence fg)))
      = Some STRING
    ∧ ¬ Field_ok chain_parent σ2 fg.
Proof.
  eexists _, _, _. split; [vm_compute; reflexivity|].
  split; [vm_compute; reflexivity|].
  split; [vm_compute; reflexivity|].
  split; [vm_compute; reflexivity|].
  split; [apply (bool_decide_unpack _); vm_compute; exact I|].
  split; [by vm_compute|]. split; [by vm_compute|].
  split; [done|]. split; [by vm_compute|].
  intros Hok. apply (bool_decide_pack _) in Hok. by vm_compute in Hok.
Qed.

(** * Further properties of the code *)

(** ** Sorted names *)

Lemma append_keys_app order header :
  append_keys order header = header ++ order.
Proof.
  revert header. induction order as [|n rest IH]; intros header; cbn.
  - by rewrite app_nil_r.
  - unfold append_keys in IH. rewrite IH. by rewrite <- app_assoc.
Qed.

Lemma sort_Strings_Sorted x : Sorted String.le (sort_Strings x).
Proof. apply (Sorted_merge_sort String.le). Qed.

Lemma sort_Strings_Permutation x : sort_Strings x ≡ₚ x.
Proof. apply merge_sort_Permutation. Qed.

(** Two slices with the same elements sort to the same slice. *)
Lemma sort_Strings_order x y : x ≡ₚ y → sort_Strings x = sort_Strings y.
Proof.
  intros Hp. apply (Sorted_unique String.le); try apply sort_Strings_Sorted.
  by rewrite !sort_Strings_Permutation.
Qed.

Lemma sort_Strings_sorted_id x : Sorted String.le x → sort_Strings x = x.
Proof.
  intros Hs. apply (Sorted_unique String.le);
    [apply sort_Strings_Sorted|done|apply sort_Strings_Permutation].
Qed.

(** X1.  [Fields.Header] returns the names of the fields in increasing
    order, each once, and the same slice whatever order the range over
    the map takes. *)
Theorem Fields_Header_sorted (σ : Store) (f : option loc)
    (order order' : list string) :
  range_order (fields_read σ f) order →
  range_order (fields_read σ f) order' →
  Sorted String.le (Fields_Header order)
  ∧ NoDup (Fields_Header order)
  ∧ (∀ name, name ∈ Fields_Header order
             ↔ is_Some (fields_read σ f !! name))
  ∧ length (Fields_Header order) = size (fields_read σ f)
  ∧ Fields_Header order = Fields_Header order'.
Proof.
  intros Ho Ho'. unfold Fields_Header. rewrite !append_keys_app. cbn [app].
  pose proof (sort_Strings_Permutation order) as Hp.
  split; [apply sort_Strings_Sorted|]. split; [|split; [|split]].
  - rewrite Hp. apply Ho.
  - intros name. rewrite Hp. by apply range_order_elem.
  - rewrite Hp. destruct Ho as [Hnd Hset].
    rewrite <- size_dom, <- Hset. by rewrite size_list_to_set.
  - apply sort_Strings_order. by eapply range_order_perm.
Qed.

Lemma Fields_Header_sorted_witness :
  range_order (fields_read sample_store (Some 2%positive)) ["b"; "a"]%string
  ∧ range_order (fields_read sample_store (Some 2%positive))
      ["a"; "b"]%string
  ∧ Fields_Header ["b"; "a"]%string = ["a"; "b"]%string
  ∧ Fields_Header ["b"; "a"]%string = Fields_Header ["a"; "b"]%string.
Proof.
  assert (range_order (fields_read sample_store (Some 2%positive))
            ["b"; "a"]%string) as Ho.
  { apply range_order_decide. vm_compute. reflexivity. }
  assert (range_order (fields_read sample_store (Some 2%positive))
            ["a"; "b"]%string) as Ho'.
  { apply range_order_decide. vm_compute. reflexivity. }
  split; [exact Ho|]. split; [exact Ho'|]. split; [by vm_compute|].
  apply (Fields_Header_sorted sample_store (Some 2%positive) _ _ Ho Ho').
Defined.

(** X2.  [Table.SortedColumnNames] returns the column names of the table
    in increasing order, each once, whatever order the range takes. *)
Theorem Table_SortedColumnNames_sorted (t : Table)
    (order order' : list string) :
  range_order (Columns t) order →
  range_order (Columns t) order' →
  Sorted String.le (Table_SortedColumnNames order)
  ∧ Table_SortedColumnNames order ≡ₚ keys (Columns t)
  ∧ (∀ name, name ∈ Table_SortedColumnNames order
             ↔ is_Some (Columns t !! name))
  ∧ Table_SortedColumnNames order = Table_SortedColumnNames order'.
Proof.
  intros Ho Ho'. unfold Table_SortedColumnNames.
  rewrite !append_keys_app. cbn [app].
  pose proof (sort_Strings_Permutation order) as Hp.
  split; [apply sort_Strings_Sorted|]. split; [|split].
  - rewrite Hp. eapply range_order_perm; [done|apply range_order_keys].
  - intros name. rewrite Hp. by apply range_order_elem.
  - apply sort_Strings_order. by eapply range_order_perm.
Qed.

Lemma Table_SortedColumnNames_sorted_witness :
  range_order (Columns sample_desired) ["name"; "id"]%string
  ∧ Table_SortedColumnNames ["name"; "id"]%string = ["id"; "name"]%string
  ∧ Sorted String.le (Table_SortedColumnNames ["name"; "id"]%string).
Proof.
  assert (range_order (Columns sample_desired) ["name"; "id"]%string) as Ho.
  { apply range_order_decide. vm_compute. reflexivity. }
  split; [exact Ho|]. split; [by vm_compute|].
  apply (Table_SortedColumnNames_sorted sample_desired _ _ Ho Ho).
Defined.

(** ** Fields.OverrideTypes *)

Lemma overridden_entry_self F n : overridden_entry F F n = F !! n.
Proof.
  unfold overridden_entry. destruct (F !! n) as [fo|]; [|done].
  by destruct fo.
Qed.

Section OverrideLoop.
Variable σ0 : Store.
Variables lf lg : loc.
Variables F G : gmap string Field.
Hypothesis HF : fieldsObjects σ0 !! lf = Some F.
Hypothesis HG : fieldsObjects σ0 !! lg = Some G.

(** The state of the loop once the names in [P] have been visited. *)
Local Abbreviation overridden P σ :=
  (occurrenceObjects σ = occurrenceObjects σ0
   ∧ (∀ l, l ≠ lf → fieldsObjects σ !! l = fieldsObjects σ0 !! l)
   ∧ (∃ Fk, fieldsObjects σ !! lf = Some Fk
        ∧ ∀ n, Fk !! n = if decide (n ∈ (P : gset string))
                         then overridden_entry F G n else F !! n)).

Lemma overridden_start : overridden (∅ : gset string) σ0.
Proof.
  split; [done|]. split; [done|]. exists F. split; [done|].
  intros n. by rewrite decide_False.
Qed.

Lemma overridden_step P σ n rest :
  overridden P σ → n ∉ P →
  ∃ σ1, Fields_OverrideTypes (n :: rest) (Some lf) (Some lg) σ
        = Fields_OverrideTypes rest (Some lf) (Some lg) σ1
        ∧ overridden ({[n]} ∪ P) σ1.
Proof.
  intros (Hocc & Hother & (Fk & HFk & Hk)) Hn.
  assert (∀ x, x ≠ n → x ∈ {[n]} ∪ P ↔ x ∈ P) as Hmem.
  { intros x Hx. rewrite elem_of_union, elem_of_singleton.
    split; [by intros [?|?]|by right]. }
  assert (n ∈ {[n]} ∪ P) as Hnin.
  { apply elem_of_union_l. by apply elem_of_singleton. }
  assert (fields_read σ (Some lf) !! n = F !! n) as Hreadf.
  { cbn [fields_read]. rewrite HFk. cbn. by rewrite Hk, decide_False. }
  assert (fields_read σ (Some lg) !! n = G !! n) as Hread.
  { cbn [fields_read]. destruct (decide (lg = lf)) as [->|Hne].
    - rewrite HFk. cbn. rewrite Hk, decide_False by done. congruence.
    - rewrite Hother by done. by rewrite HG. }
  assert (∀ Fk' : gmap string Field,
            (∀ x, x ≠ n → Fk' !! x = Fk !! x) →
            Fk' !! n = overridden_entry F G n →
            ∀ x, Fk' !! x = if decide (x ∈ {[n]} ∪ P)
                            then overridden_entry F G x else F !! x)
    as Hnext.
  { intros Fk' Hsame Hat x. destruct (decide (x = n)) as [->|Hx].
    - by rewrite Hat, decide_True.
    - rewrite Hsame, Hk by done. apply decide_ext. symmetry. by apply Hmem. }
  cbn [Fields_OverrideTypes]. rewrite Hread, Hreadf.
  destruct (G !! n) as [go|] eqn:Hgo.
  - destruct (F !! n) as [fo|] eqn:Hfo.
    + cbn [fields_write]. rewrite HFk. cbn [mbind option_bind].
      eexists. split; [reflexivity|]. cbn [fieldsObjects occurrenceObjects].
      split; [done|]. split.
      * intros l Hl. rewrite lookup_insert_ne by done. by apply Hother.
      * eexists. split; [apply lookup_insert_eq|]. apply Hnext.
        -- intros x Hx. by rewrite lookup_insert_ne.
        -- rewrite lookup_insert_eq. unfold overridden_entry.
           by rewrite Hfo, Hgo.
    + exists σ. split; [done|]. split; [done|]. split; [done|].
      exists Fk. split; [done|]. apply Hnext; [done|].
      rewrite Hk, decide_False by done. unfold overridden_entry.
      by rewrite Hfo.
  - exists σ. split; [done|]. split; [done|]. split; [done|].
    exists Fk. split; [done|]. apply Hnext; [done|].
    rewrite Hk, decide_False by done. unfold overridden_entry.
    rewrite Hgo. by destruct (F !! n).
Qed.

Lemma overridden_loop rest P σ :
  NoDup rest → (∀ n, n ∈ rest → n ∉ P) → overridden P σ →
  ∃ σ', Fields_OverrideTypes rest (Some lf) (Some lg) σ = Some σ'
        ∧ overridden (list_to_set rest ∪ P) σ'.
Proof.
  revert P σ. induction rest as [|n rest IH]; intros P σ Hnd Hfresh Hv.
  - exists σ. split; [done|]. cbn [list_to_set foldr].
    by rewrite (left_id_L ∅ (∪)).
  - apply NoDup_cons in Hnd as [Hn Hnd].
    destruct (overridden_step P σ n rest Hv) as (σ1 & -> & Hv1).
    { apply Hfresh, list_elem_of_here. }
    destruct (IH ({[n]} ∪ P) σ1 Hnd) as (σ' & Hrun & Hv'); [|done|].
    { intros x Hx. rewrite not_elem_of_union, elem_of_singleton. split.
      - intros ->. done.
      - apply Hfresh. by apply list_elem_of_further. }
    exists σ'. split; [done|]. cbn [list_to_set foldr].
    replace ({[n]} ∪ list_to_set rest ∪ P)
      with (list_to_set rest ∪ ({[n]} ∪ P)); [done|].
    rewrite (assoc_L (∪)). f_equal. apply (comm_L (∪)).
Qed.

(** [Fields.OverrideTypes] runs to completion and writes the receiver's
    map object only. *)
Lemma Fields_OverrideTypes_effect order :
  range_order G order →
  ∃ σ' F',
    Fields_OverrideTypes order (Some lf) (Some lg) σ0 = Some σ'
    ∧ σ' = mkStore (<[lf := F']> (fieldsObjects σ0)) (occurrenceObjects σ0)
    ∧ ∀ n, F' !! n = overridden_entry F G n.
Proof.
  intros [Hnd Hset].
  destruct (overridden_loop order ∅ σ0 Hnd) as
    (σ' & Hrun & Hocc & Hother & (F' & HF' & Hk)).
  { intros n _. apply not_elem_of_empty. }
  { apply overridden_start. }
  exists σ', F'. split; [done|]. split.
  - destruct σ' as [fs os]. cbn in *. subst os. f_equal.
    apply map_eq. intros l. destruct (decide (l = lf)) as [->|Hl].
    + by rewrite lookup_insert_eq.
    + rewrite lookup_insert_ne by done. by apply Hother.
  - intros n. rewrite Hk. case_decide as Hin; [done|].
    unfold overridden_entry. destruct (F !! n) as [fo|]; [|done].
    destruct (G !! n) as [go|] eqn:Hgo; [|done].
    destruct Hin. apply elem_of_union_l. rewrite Hset.
    apply elem_of_dom. by rewrite Hgo.
Qed.
End OverrideLoop.

Lemma resolves_to_struct parent σ σ' f f' t :
  dataType f' = dataType f →
  occ_read σ' (typeOccurrence f') = occ_read σ (typeOccurrence f) →
  resolves_to parent σ' f' t ↔ resolves_to parent σ f t.
Proof.
  intros Hd Ho. unfold resolves_to. rewrite Ho.
  assert (∀ types, (Field_GetType parent types f').1
                   = (Field_GetType parent types f).1) as Heq.
  { intros types. unfold Field_GetType. rewrite Hd.
    destruct (dataType f); [done|]. by destruct (fold_common parent types). }
  split; intros (types & Horder & Hget); exists types;
    (split; [done|]); by rewrite ?Heq in *.
Qed.

Lemma Field_ok_struct parent σ σ' f f' :
  dataType f' = dataType f →
  occ_read σ' (typeOccurrence f') = occ_read σ (typeOccurrence f) →
  Field_ok parent σ f → Field_ok parent σ' f'.
Proof.
  intros Hd Ho. unfold Field_ok, occurrences. by rewrite Hd, Ho.
Qed.

Lemma overridden_entry_twice F F' G n :
  (∀ x, F' !! x = overridden_entry F G x) →
  overridden_entry F' G n = F' !! n.
Proof.
  intros HF'. unfold overridden_entry at 1. rewrite (HF' n).
  unfold overridden_entry.
  destruct (F !! n) as [fo|], (G !! n) as [go|]; done.
Qed.

(** X3.  [f.OverrideTypes(g)] returns, writes the map object of [f] only
    and no occurrence map.  It leaves [f] with the names it had.  Under a
    name that [g] holds too, the entry of [f] has the cached type and the
    occurrence map of the entry of [g], so that it resolves to the types
    the entry of [g] resolves to and satisfies the invariants if that one
    does, and it has kept its own type suggestion.  Every other entry of
    [f] is what it was. *)
Theorem Fields_OverrideTypes_takes_types (order : list string) (σ : Store)
    (lf lg : loc) (F G : gmap string Field) :
  fieldsObjects σ !! lf = Some F →
  fieldsObjects σ !! lg = Some G →
  range_order G order →
  ∃ σ',
    Fields_OverrideTypes order (Some lf) (Some lg) σ = Some σ'
    ∧ occurrenceObjects σ' = occurrenceObjects σ
    ∧ (∀ l, l ≠ lf → fieldsObjects σ' !! l = fieldsObjects σ !! l)
    ∧ fields_read σ' (Some lg) = G
    ∧ dom (fields_read σ' (Some lf)) = dom F
    ∧ (∀ n fo, F !! n = Some fo → G !! n = None →
         fields_read σ' (Some lf) !! n = Some fo)
    ∧ (∀ n fo go, F !! n = Some fo → G !! n = Some go →
         ∃ fo', fields_read σ' (Some lf) !! n = Some fo'
           ∧ dataType fo' = dataType go
           ∧ typeOccurrence fo' = typeOccurrence go
           ∧ sqlTypeSuggestion fo' = sqlTypeSuggestion fo
           ∧ (∀ d, Field_GetSuggestedSQLType fo' d
                   = Field_GetSuggestedSQLType fo d)
           ∧ (∀ parent t, resolves_to parent σ' fo' t
                          ↔ resolves_to parent σ go t)
           ∧ (∀ parent, Field_ok parent σ go → Field_ok parent σ' fo')).
Proof.
  intros HF HG Horder.
  destruct (Fields_OverrideTypes_effect σ lf lg F G HF HG order Horder)
    as (σ' & F' & Hrun & -> & HF').
  eexists. split; [exact Hrun|]. cbn [occurrenceObjects fieldsObjects].
  assert (fields_read
            (mkStore (<[lf := F']> (fieldsObjects σ)) (occurrenceObjects σ))
            (Some lf) = F') as Hread.
  { cbn [fields_read fieldsObjects]. by rewrite lookup_insert_eq. }
  split; [done|]. split; [|split; [|split; [|split]]].
  - intros l Hl. by rewrite lookup_insert_ne.
  - cbn [fields_read fieldsObjects].
    destruct (decide (lg = lf)) as [->|Hne].
    + rewrite lookup_insert_eq. cbn. apply map_eq. intros n.
      rewrite HF'. assert (F = G) as HFG by congruence.
      subst G. by rewrite overridden_entry_self.
    + rewrite lookup_insert_ne by done. by rewrite HG.
  - rewrite Hread. apply set_eq. intros n. rewrite !elem_of_dom, HF'.
    unfold overridden_entry.
    destruct (F !! n) as [fo|], (G !! n) as [go|]; done.
  - intros n fo Hfo Hgo. rewrite Hread, HF'. unfold overridden_entry.
    by rewrite Hfo, Hgo.
  - intros n fo go Hfo Hgo. rewrite Hread, HF'. unfold overridden_entry.
    rewrite Hfo, Hgo. eexists. split; [reflexivity|].
    cbn [dataType typeOccurrence sqlTypeSuggestion].
    split; [done|]. split; [done|]. split; [done|]. split; [done|]. split.
    + intros parent t. by apply resolves_to_struct.
    + intros parent. by apply Field_ok_struct.
Qed.

Lemma Fields_OverrideTypes_takes_types_witness :
  ∃ σ',
    Fields_OverrideTypes ["b"; "a"]%string (Some 1%positive)
      (Some 2%positive) sample_store = Some σ'
    ∧ occurrenceObjects σ' = occurrenceObjects sample_store
    ∧ fields_read σ' (Some 1%positive)
      = {[ "a"%string := mkField (Some STRING) None (Some 2%positive) ]}.
Proof.
  assert (fieldsObjects sample_store !! 1%positive = Some sample_F) as HF
    by reflexivity.
  assert (fieldsObjects sample_store !! 2%positive = Some sample_G) as HG
    by reflexivity.
  assert (range_order sample_G ["b"; "a"]%string) as Ho.
  { apply range_order_decide. vm_compute. reflexivity. }
  destruct (Fields_OverrideTypes_takes_types _ _ _ _ _ _ HF HG Ho)
    as (σ' & Hrun & Hocc & _).
  exists σ'. split; [exact Hrun|]. split; [exact Hocc|].
  vm_compute in Hrun. injection Hrun as <-. by vm_compute.
Defined.

(** X4.  The outcome of [f.OverrideTypes(g)] does not depend on the order
    in which the range visits [g], and a second call right after the first
    changes nothing. *)
Theorem Fields_OverrideTypes_idempotent (order order' : list string)
    (σ : Store) (lf lg : loc) (F G : gmap string Field) :
  fieldsObjects σ !! lf = Some F →
  fieldsObjects σ !! lg = Some G →
  range_order G order →
  range_order G order' →
  ∃ σ',
    Fields_OverrideTypes order (Some lf) (Some lg) σ = Some σ'
    ∧ Fields_OverrideTypes order' (Some lf) (Some lg) σ = Some σ'
    ∧ Fields_OverrideTypes order' (Some lf) (Some lg) σ' = Some σ'.
Proof.
  intros HF HG Horder Horder'.
  destruct (Fields_OverrideTypes_effect σ lf lg F G HF HG order Horder)
    as (σ1 & F1 & Hrun1 & Hσ1 & HF1).
  destruct (Fields_OverrideTypes_effect σ lf lg F G HF HG order' Horder')
    as (σ2 & F2 & Hrun2 & Hσ2 & HF2).
  assert (F2 = F1) as ->.
  { apply map_eq. intros n. by rewrite HF1, HF2. }
  assert (σ2 = σ1) as -> by congruence.
  exists σ1. split; [done|]. split; [done|].
  assert (fieldsObjects σ1 !! lf = Some F1) as HF'.
  { rewrite Hσ1. cbn. apply lookup_insert_eq. }
  assert (∃ G', fieldsObjects σ1 !! lg = Some G'
                ∧ ∀ n, overridden_entry F1 G' n = F1 !! n)
    as (G' & HG' & Hsame).
  { rewrite Hσ1. cbn. destruct (decide (lg = lf)) as [->|Hne].
    - exists F1. split; [apply lookup_insert_eq|].
      intros n. apply overridden_entry_self.
    - exists G. rewrite lookup_insert_ne by done. split; [done|].
      intros n. by apply (overridden_entry_twice F). }
  assert (range_order G' order') as Horder''.
  { destruct (decide (lg = lf)) as [->|Hne].
    - assert (G' = F1) as -> by congruence.
      assert (F = G) as HFG by congruence.
      destruct Horder' as [Hnd Hset]. split; [done|]. rewrite Hset.
      apply set_eq. intros n. rewrite !elem_of_dom, HF1.
      subst G. by rewrite overridden_entry_self.
    - rewrite Hσ1 in HG'. cbn in HG'.
      rewrite lookup_insert_ne in HG' by done. congruence. }
  destruct (Fields_OverrideTypes_effect σ1 lf lg F1 G' HF' HG' order'
              Horder'') as (σ3 & F3 & Hrun3 & Hσ3 & HF3).
  rewrite Hrun3. f_equal. rewrite Hσ3.
  assert (F3 = F1) as ->.
  { apply map_eq. intros n. by rewrite HF3. }
  rewrite Hσ1. cbn. by rewrite insert_insert_eq.
Qed.

Lemma Fields_OverrideTypes_idempotent_witness :
  ∃ σ',
    Fields_OverrideTypes ["b"; "a"]%string (Some 1%positive)
      (Some 2%positive) sample_store = Some σ'
    ∧ Fields_OverrideTypes ["a"; "b"]%string (Some 1%positive)
        (Some 2%positive) sample_store = Some σ'
    ∧ Fields_OverrideTypes ["a"; "b"]%string (Some 1%positive)
        (Some 2%positive) σ' = Some σ'.
Proof.
  assert (fieldsObjects sample_store !! 1%positive = Some sample_F) as HF
    by reflexivity.
  assert (fieldsObjects sample_store !! 2%positive = Some sample_G) as HG
    by reflexivity.
  assert (range_order sample_G ["b"; "a"]%string) as Ho.
  { apply range_order_decide. vm_compute. reflexivity. }
  assert (range_order sample_G ["a"; "b"]%string) as Ho'.
  { apply range_order_decide. vm_compute. reflexivity. }
  exact (Fields_OverrideTypes_idempotent _ _ _ _ _ _ _ HF HG Ho Ho').
Defined.

(** ** Occurrence maps held by two fields *)

Lemma keys_empty_dom `{Countable K} {V : Type} (m : gmap K V) :
  dom m = ∅ → keys m = [].
Proof.
  intros Hd. apply dom_empty_inv_L in Hd as ->. unfold keys.
  by rewrite map_to_list_empty.
Qed.

(** [Field.Merge] in terms of occurrence sets: where it returns, the map
    behind the receiver holds the kinds of both fields, whichever struct
    it is read through. *)
Lemma Field_Merge_occurrences fo go σ fo' σ' f2 :
  Field_Merge fo go σ = Some (fo', σ') →
  typeOccurrence f2 = typeOccurrence fo →
  occurrences σ' f2 = occurrences σ fo ∪ occurrences σ go.
Proof.
  intros Hrun Href. unfold occurrences at 1 2. rewrite Href.
  destruct (typeOccurrence fo) as [l|] eqn:Hl.
  - destruct (occurrenceObjects σ !! l) as [m|] eqn:Hm.
    + rewrite (Field_Merge_alloc fo go σ l m Hl Hm) in Hrun.
      injection Hrun as <- <-. cbn [occ_read occurrenceObjects].
      rewrite lookup_insert_eq, Hm. cbn [default from_option id].
      by rewrite merged_occurrences_dom.
    + unfold Field_Merge in Hrun.
      rewrite Field_Merge_in_unalloc in Hrun by (intros ? ?; congruence).
      destruct (keys (occ_read σ (typeOccurrence go))) as [|t ts] eqn:Hk;
        [|done].
      injection Hrun as <- <-. unfold occurrences.
      rewrite <- (list_to_set_keys (occ_read σ (typeOccurrence go))), Hk.
      cbn [list_to_set foldr]. by rewrite (right_id_L ∅ (∪)).
  - unfold Field_Merge in Hrun.
    rewrite Field_Merge_in_unalloc in Hrun by (intros ? ?; congruence).
    destruct (keys (occ_read σ (typeOccurrence go))) as [|t ts] eqn:Hk;
      [|done].
    injection Hrun as <- <-. unfold occurrences.
    rewrite <- (list_to_set_keys (occ_read σ (typeOccurrence go))), Hk.
    cbn [list_to_set foldr occ_read]. by rewrite (right_id_L ∅ (∪)).
Qed.

(** X5.  After [f.OverrideTypes(g)] an entry of [f] under a name of [g]
    and the entry of [g] hold one occurrence map: a later [Field.Merge]
    of any field [h] into the entry of [f] puts the kinds of [h] into the
    occurrence set of the entry of [g] as well, while the entry of [g]
    itself, its cached type included, stays as it is in the map of [g]. *)
Theorem Fields_OverrideTypes_shares_occurrences (order : list string)
    (σ σ' : Store) (lf lg : loc) (F G : gmap string Field) (n : string)
    (fo go fo' h h' : Field) (σ'' : Store) :
  fieldsObjects σ !! lf = Some F →
  fieldsObjects σ !! lg = Some G →
  range_order G order →
  F !! n = Some fo → G !! n = Some go →
  Fields_OverrideTypes order (Some lf) (Some lg) σ = Some σ' →
  fields_read σ' (Some lf) !! n = Some fo' →
  Field_Merge fo' h σ' = Some (h', σ'') →
  fields_read σ'' (Some lg) !! n = Some go
  ∧ occurrences σ'' go = occurrences σ go ∪ occurrences σ' h.
Proof.
  intros HF HG Horder Hfo Hgo Hrun Hfo' Hmerge.
  destruct (Fields_OverrideTypes_effect σ lf lg F G HF HG order Horder)
    as (σ1 & F' & Hrun1 & Hσ1 & HF').
  assert (σ1 = σ') as -> by congruence.
  assert (typeOccurrence fo' = typeOccurrence go) as Href.
  { rewrite Hσ1 in Hfo'. cbn [fields_read fieldsObjects] in Hfo'.
    rewrite lookup_insert_eq in Hfo'. cbn [default from_option id] in Hfo'.
    rewrite HF' in Hfo'. unfold overridden_entry in Hfo'.
    rewrite Hfo, Hgo in Hfo'. by injection Hfo' as <-. }
  assert (fields_read σ' (Some lg) = G) as Hg.
  { rewrite Hσ1. cbn [fields_read fieldsObjects].
    destruct (decide (lg = lf)) as [->|Hne].
    - rewrite lookup_insert_eq. cbn. apply map_eq. intros x.
      rewrite HF'. assert (F = G) as HFG by congruence.
      subst G. by rewrite overridden_entry_self.
    - rewrite lookup_insert_ne by done. by rewrite HG. }
  split.
  - unfold Field_Merge in Hmerge.
    destruct (Field_Merge_in_frame _ _ _ _ _ Hmerge) as [Hfields _].
    assert (fields_read σ'' (Some lg) = fields_read σ' (Some lg)) as ->.
    { cbn [fields_read]. by rewrite Hfields. }
    by rewrite Hg.
  - rewrite (Field_Merge_occurrences fo' h σ' h' σ'' go Hmerge)
      by (by symmetry).
    f_equal. unfold occurrences. rewrite Href.
    f_equal. apply occ_read_ext. by rewrite Hσ1.
Qed.

Lemma Fields_OverrideTypes_shares_occurrences_witness :
  ∃ σ' σ'' h',
    Fields_OverrideTypes ["a"; "b"]%string (Some 1%positive)
      (Some 2%positive) sample_store = Some σ'
    ∧ Field_Merge (mkField (Some STRING) None (Some 2%positive))
        (mkField (Some BOOL) None (Some 3%positive)) σ' = Some (h', σ'')
    ∧ fields_read σ'' (Some 2%positive) !! "a"%string
      = Some (mkField (Some STRING) None (Some 2%positive))
    ∧ occurrences σ'' (mkField (Some STRING) None (Some 2%positive))
      = occurrences sample_store (mkField (Some STRING) None (Some 2%positive))
        ∪ occurrences σ' (mkField (Some BOOL) None (Some 3%positive)).
Proof.
  assert (fieldsObjects sample_store !! 1%positive = Some sample_F) as HF
    by reflexivity.
  assert (fieldsObjects sample_store !! 2%positive = Some sample_G) as HG
    by reflexivity.
  assert (range_order sample_G ["a"; "b"]%string) as Ho.
  { apply range_order_decide. vm_compute. reflexivity. }
  destruct (Fields_OverrideTypes ["a"; "b"]%string (Some 1%positive)
              (Some 2%positive) sample_store) as [σ'|] eqn:Hrun;
    [|by vm_compute in Hrun].
  assert (fields_read σ' (Some 1%positive) !! "a"%string
          = Some (mkField (Some STRING) None (Some 2%positive))) as Hfo'.
  { vm_compute in Hrun. injection Hrun as <-. reflexivity. }
  destruct (Field_Merge (mkField (Some STRING) None (Some 2%positive))
              (mkField (Some BOOL) None (Some 3%positive)) σ')
    as [[h' σ'']|] eqn:Hm.
  2: { vm_compute in Hrun. injection Hrun as <-. by vm_compute in Hm. }
  exists σ', σ'', h'. split; [done|]. split; [done|].
  exact (Fields_OverrideTypes_shares_occurrences ["a"; "b"]%string
           sample_store σ' 1%positive 2%positive sample_F sample_G
           "a"%string (mkField (Some INT64) None (Some 1%positive))
           (mkField (Some STRING) None (Some 2%positive))
           (mkField (Some STRING) None (Some 2%positive))
           (mkField (Some BOOL) None (Some 3%positive)) h' σ''
           HF HG Ho eq_refl eq_refl Hrun Hfo' Hm).
Defined.

(** ** Nil receivers *)

Lemma Fields_OverrideTypes_nil order other σ :
  Fields_OverrideTypes order None other σ = Some σ.
Proof.
  induction order as [|n rest IH]; [done|]. cbn [Fields_OverrideTypes].
  destruct (fields_read σ other !! n); [|done].
  cbn [fields_read]. by rewrite lookup_empty.
Qed.

(** X6.  On a nil receiver, [Merge] and [Add] panic as soon as the other
    value has an entry and return without effect when it has none;
    [OverrideTypes] always returns without effect. *)
Theorem Fields_nil_receiver (order : list string) (σ : Store) (lg : loc)
    (G : gmap string Field) :
  fieldsObjects σ !! lg = Some G →
  range_order G order →
  Fields_Merge order None (Some lg) σ
  = (if decide (G = ∅) then Some σ else None)
  ∧ Fields_Add order None (Some lg) σ
    = (if decide (G = ∅) then Some σ else None)
  ∧ Fields_OverrideTypes order None (Some lg) σ = Some σ.
Proof.
  intros HG [Hnd Hset]. split; [|split].
  3: apply Fields_OverrideTypes_nil.
  all: destruct order as [|n rest].
  1,3: rewrite decide_True; [done|];
       apply dom_empty_inv_L; by rewrite <- Hset.
  all: assert (is_Some (G !! n)) as [go Hgo]
         by (apply elem_of_dom; rewrite <- Hset;
             apply elem_of_list_to_set, list_elem_of_here).
  all: rewrite decide_False by (intros ->; by rewrite lookup_empty in Hgo).
  - cbn [Fields_Merge fields_read]. rewrite HG. cbn [default from_option id].
    rewrite Hgo. by rewrite lookup_empty.
  - cbn [Fields_Add fields_read]. rewrite HG. cbn [default from_option id].
    rewrite Hgo. by rewrite lookup_empty.
Qed.

Lemma Fields_nil_receiver_witness :
  Fields_Merge ["a"; "b"]%string None (Some 2%positive) sample_store = None
  ∧ Fields_Add ["a"; "b"]%string None (Some 2%positive) sample_store = None
  ∧ Fields_OverrideTypes ["a"; "b"]%string None (Some 2%positive)
      sample_store = Some sample_store.
Proof.
  assert (fieldsObjects sample_store !! 2%positive = Some sample_G) as HG
    by reflexivity.
  assert (range_order sample_G ["a"; "b"]%string) as Ho.
  { apply range_order_decide. vm_compute. reflexivity. }
  exact (Fields_nil_receiver _ _ _ _ HG Ho).
Defined.

(** ** Field.GetSuggestedSQLType *)

(** X7.  [Field.GetSuggestedSQLType] answers true exactly when the field
    has a suggestion that holds an entry for the destination or a default
    with a type name.  The entry for the destination goes before the
    default, whatever its type name; the column returned has the type
    name and the column type of the one chosen and the override flag set,
    whatever the flag stored; with the answer false the column is the
    zero value. *)
Theorem Field_GetSuggestedSQLType_cases (f : Field)
    (destinationType : string) :
  ((Field_GetSuggestedSQLType f destinationType).2 = true
   ↔ ∃ s, sqlTypeSuggestion f = Some s
          ∧ (is_Some (sqlTypePerDestination s !! destinationType)
             ∨ Type_ (sqlType s) ≠ ""%string))
  ∧ ((Field_GetSuggestedSQLType f destinationType).2 = false →
     (Field_GetSuggestedSQLType f destinationType).1 = SQLColumn_zero)
  ∧ ((Field_GetSuggestedSQLType f destinationType).2 = true →
     Override (Field_GetSuggestedSQLType f destinationType).1 = true)
  ∧ (∀ s c, sqlTypeSuggestion f = Some s →
       sqlTypePerDestination s !! destinationType = Some c →
       Field_GetSuggestedSQLType f destinationType
       = (mkSQLColumn (Type_ c) (ColumnType c) true, true))
  ∧ (∀ s, sqlTypeSuggestion f = Some s →
       sqlTypePerDestination s !! destinationType = None →
       Type_ (sqlType s) ≠ ""%string →
       Field_GetSuggestedSQLType f destinationType
       = (mkSQLColumn (Type_ (sqlType s)) (ColumnType (sqlType s)) true,
          true)).
Proof.
  unfold Field_GetSuggestedSQLType.
  destruct (sqlTypeSuggestion f) as [s|].
  2: { split; [|by repeat split].
       split; [done|]. by intros (s & ? & _). }
  assert (∀ s', Some s = Some s' → s' = s) as Hinj by (by intros s' [= <-]).
  destruct (sqlTypePerDestination s !! destinationType) as [c|] eqn:Hc;
    cbn [negb andb].
  - split; [|split; [|split; [|split]]].
    + split; [|done]. intros _. exists s. split; [done|]. left. by eexists.
    + done.
    + done.
    + intros s' c' Hs' Hc'. apply Hinj in Hs' as ->.
      rewrite Hc in Hc'. by injection Hc' as <-.
    + intros s' Hs' Hc'. apply Hinj in Hs' as ->. congruence.
  - destruct (String.eqb_spec (Type_ (sqlType s)) "") as [Heq|Hne];
      cbn [negb].
    + split; [|split; [|split; [|split]]].
      * split; [done|]. intros (s' & Hs' & [[c' Hc']|Hne]).
        -- apply Hinj in Hs' as ->. congruence.
        -- apply Hinj in Hs' as ->. done.
      * done.
      * done.
      * intros s' c' Hs' Hc'. apply Hinj in Hs' as ->. congruence.
      * intros s' Hs' _ Hne. apply Hinj in Hs' as ->. done.
    + split; [|split; [|split; [|split]]].
      * split; [|done]. intros _. exists s. split; [done|]. by right.
      * done.
      * done.
      * intros s' c' Hs' Hc'. apply Hinj in Hs' as ->. congruence.
      * intros s' Hs' _ _. apply Hinj in Hs' as ->. done.
Qed.

(** ** NewField and NewFieldWithSQLType *)

(** X8.  [NewFieldWithSQLType] creates an occurrence map that did not
    exist and touches no other object.  The field it returns has the
    single occurrence [t], carries the suggestion passed, satisfies the
    invariants of a field, and [GetType] returns [t] on it whatever the
    range delivers.  [NewField] is the same with no suggestion. *)
Theorem NewFieldWithSQLType_fresh (parent : DataType → DataType)
    (t : DataType) (suggestion : option SQLTypeSuggestion) (σ : Store) :
  fieldsObjects (NewFieldWithSQLType t suggestion σ).2 = fieldsObjects σ
  ∧ (∃ l, typeOccurrence (NewFieldWithSQLType t suggestion σ).1 = Some l
          ∧ occurrenceObjects σ !! l = None
          ∧ occurrenceObjects (NewFieldWithSQLType t suggestion σ).2 !! l
            = Some {[t := true]}
          ∧ ∀ l', l' ≠ l →
              occurrenceObjects (NewFieldWithSQLType t suggestion σ).2 !! l'
              = occurrenceObjects σ !! l')
  ∧ occurrences (NewFieldWithSQLType t suggestion σ).2
      (NewFieldWithSQLType t suggestion σ).1 = {[t]}
  ∧ sqlTypeSuggestion (NewFieldWithSQLType t suggestion σ).1 = suggestion
  ∧ Field_ok parent (NewFieldWithSQLType t suggestion σ).2
      (NewFieldWithSQLType t suggestion σ).1
  ∧ (∀ types,
       (Field_GetType parent types
          (NewFieldWithSQLType t suggestion σ).1).1 = t)
  ∧ NewField t σ = NewFieldWithSQLType t None σ.
Proof.
  unfold NewFieldWithSQLType, NewField, Field_ok, occurrences.
  cbn [fst snd typeOccurrence dataType occ_read occurrenceObjects
       fieldsObjects sqlTypeSuggestion].
  set (l := fresh (dom (occurrenceObjects σ))).
  assert (occurrenceObjects σ !! l = None) as Hfresh.
  { apply not_elem_of_dom. apply is_fresh. }
  rewrite lookup_insert_eq. cbn [default from_option id].
  split; [done|]. split.
  { exists l. split; [done|]. split; [done|].
    split; [apply lookup_insert_eq|].
    intros l' Hl'. by rewrite lookup_insert_ne. }
  rewrite dom_singleton_L.
  split; [done|]. split; [done|]. split; [|done].
  split.
  - intros Hempty. assert (t ∈ ({[t]} : gset DataType)) as Hin
      by (by apply elem_of_singleton).
    rewrite Hempty in Hin. by apply elem_of_empty in Hin.
  - right. unfold keys. by rewrite map_to_list_singleton.
Qed.

(** ** Field.Merge on its own *)

(** Merging kinds the receiver already has changes nothing, with or
    without an occurrence map behind the receiver. *)
Lemma Field_Merge_noop fo go σ :
  occurrences σ go ⊆ occurrences σ fo → Field_Merge fo go σ = Some (fo, σ).
Proof.
  intros Hsub. destruct (typeOccurrence fo) as [l|] eqn:Hl.
  - destruct (occurrenceObjects σ !! l) as [m|] eqn:Hm.
    + rewrite (Field_Merge_alloc fo go σ l m Hl Hm).
      unfold merged_field. rewrite decide_True by done.
      assert (occurrences σ go ⊆ dom m) as Hsub'.
      { unfold occurrences in Hsub at 2. rewrite Hl in Hsub.
        cbn [occ_read] in Hsub. by rewrite Hm in Hsub. }
      rewrite merged_occurrences_subseteq by done.
      rewrite insert_id by done. rewrite Store_eta.
      destruct fo; cbn in *; by subst.
    + assert (occurrences σ go = ∅) as Hempty.
      { apply (anti_symm (⊆)); [|apply empty_subseteq].
        unfold occurrences in Hsub at 2. rewrite Hl in Hsub.
        cbn [occ_read] in Hsub. rewrite Hm in Hsub.
        cbn in Hsub. by rewrite dom_empty_L in Hsub. }
      unfold Field_Merge. by rewrite (keys_empty_dom _ Hempty).
  - assert (occurrences σ go = ∅) as Hempty.
    { apply (anti_symm (⊆)); [|apply empty_subseteq].
      unfold occurrences in Hsub at 2. rewrite Hl in Hsub.
      cbn [occ_read] in Hsub. by rewrite dom_empty_L in Hsub. }
    unfold Field_Merge. by rewrite (keys_empty_dom _ Hempty).
Qed.

(** [Field.Merge] on the struct of a receiver with an occurrence map,
    in full: what is written, what the receiver holds afterwards, and
    when the cached type is wiped. *)
Lemma Field_Merge_widens_struct (fo go : Field) (σ : Store) (l : loc)
    (m : gmap DataType bool) :
  typeOccurrence fo = Some l →
  occurrenceObjects σ !! l = Some m →
  ∃ fo' σ',
    Field_Merge fo go σ = Some (fo', σ')
    ∧ fieldsObjects σ' = fieldsObjects σ
    ∧ (∀ l', l' ≠ l → occurrenceObjects σ' !! l' = occurrenceObjects σ !! l')
    ∧ occurrences σ' fo' = occurrences σ fo ∪ occurrences σ go
    ∧ (∀ t b, m !! t = Some b → occ_read σ' (Some l) !! t = Some b)
    ∧ (∀ t, m !! t = None → t ∈ occurrences σ go →
         occ_read σ' (Some l) !! t = Some true)
    ∧ sqlTypeSuggestion fo' = sqlTypeSuggestion fo
    ∧ typeOccurrence fo' = typeOccurrence fo
    ∧ (occurrences σ go ⊆ occurrences σ fo → fo' = fo ∧ σ' = σ)
    ∧ (¬ occurrences σ go ⊆ occurrences σ fo →
         dataType fo' = None ∧ σ' ≠ σ)
    ∧ Field_Merge fo' go σ' = Some (fo', σ').
Proof.
  intros Hl Hm.
  assert (occurrences σ fo = dom m) as Hfo.
  { unfold occurrences. rewrite Hl. cbn [occ_read]. by rewrite Hm. }
  destruct (Field_Merge fo go σ) as [[fo' σ']|] eqn:Hrun.
  2: { by rewrite (Field_Merge_alloc fo go σ l m Hl Hm) in Hrun. }
  pose proof (Field_Merge_occurrences fo go σ fo' σ') as Hocc.
  pose proof Hrun as Hclosed.
  rewrite (Field_Merge_alloc fo go σ l m Hl Hm) in Hclosed.
  injection Hclosed as Hfo' Hσ'.
  assert (typeOccurrence fo' = typeOccurrence fo) as Href
    by (by rewrite <- Hfo').
  assert (occ_read σ' (Some l) = merged_occurrences m (occurrences σ go))
    as Hread.
  { rewrite <- Hσ'. cbn [occ_read occurrenceObjects].
    by rewrite lookup_insert_eq. }
  exists fo', σ'. split; [done|]. split; [by rewrite <- Hσ'|]. split.
  { intros l' Hl'. rewrite <- Hσ'. cbn. by rewrite lookup_insert_ne. }
  split; [by apply Hocc|]. split.
  { intros t b Hb. rewrite Hread, merged_occurrences_lookup. by rewrite Hb. }
  split.
  { intros t Hnone Hin. rewrite Hread, merged_occurrences_lookup.
    rewrite Hnone. by rewrite decide_True. }
  split; [by rewrite <- Hfo'|]. split; [done|]. split; [|split].
  - intros Hsub. rewrite (Field_Merge_noop fo go σ Hsub) in Hrun.
    by injection Hrun as <- <-.
  - intros Hnsub. split.
    + rewrite <- Hfo'. unfold merged_field. by rewrite decide_False.
    + intros Heq. apply Hnsub. rewrite Hfo. intros t Hin.
      assert (is_Some (occ_read σ' (Some l) !! t)) as Hsome.
      { rewrite Hread, merged_occurrences_lookup.
        destruct (m !! t); [done|]. by rewrite decide_True. }
      rewrite Heq in Hsome. cbn [occ_read] in Hsome.
      rewrite Hm in Hsome. by apply elem_of_dom.
  - apply Field_Merge_noop. rewrite (Hocc fo') by done.
    intros t Hin. apply elem_of_union.
    destruct (decide (typeOccurrence go = Some l)) as [Hgo|Hgo].
    + rewrite <- Hl in Hgo. rewrite (Hocc go Hrun Hgo) in Hin.
      by apply elem_of_union in Hin.
    + right. unfold occurrences in Hin |- *.
      destruct (typeOccurrence go) as [lg|]; [|done].
      cbn [occ_read] in Hin |- *. rewrite <- Hσ' in Hin.
      cbn [occurrenceObjects] in Hin.
      rewrite lookup_insert_ne in Hin; [done|congruence].
Qed.

(** On two structs, [Field.Merge] panics exactly when the receiver has
    no occurrence map and the other field has a kind. *)
Lemma Field_Merge_None_iff (fo go : Field) (σ : Store) :
  Field_Merge fo go σ = None
  ↔ (∀ l, typeOccurrence fo = Some l → occurrenceObjects σ !! l = None)
    ∧ occurrences σ go ≠ ∅.
Proof.
  assert (∀ ts : list DataType,
            (list_to_set ts : gset DataType) ≠ ∅ ↔ ts ≠ []) as Hne.
  { intros [|t ts]; [done|]. split; [done|]. intros _ Hempty.
    cbn [list_to_set foldr] in Hempty.
    assert (t ∈ ({[t]} ∪ list_to_set ts : gset DataType)) as Hin
      by (apply elem_of_union_l; by apply elem_of_singleton).
    rewrite Hempty in Hin. by apply elem_of_empty in Hin. }
  unfold occurrences.
  rewrite <- (list_to_set_keys (occ_read σ (typeOccurrence go))), Hne.
  assert ((∃ l m, typeOccurrence fo = Some l
                  ∧ occurrenceObjects σ !! l = Some m)
          ∨ (∀ l, typeOccurrence fo = Some l
                  → occurrenceObjects σ !! l = None))
    as [(l & m & Hl & Hm)|Hnone].
  { destruct (typeOccurrence fo) as [l|]; [|by right].
    destruct (occurrenceObjects σ !! l) as [m|] eqn:Hm.
    - left. by exists l, m.
    - right. by intros ? [= <-]. }
  - rewrite (Field_Merge_alloc fo go σ l m Hl Hm). split; [done|].
    intros [Hnone _]. specialize (Hnone l Hl). congruence.
  - unfold Field_Merge. rewrite Field_Merge_in_unalloc by done.
    destruct (keys (occ_read σ (typeOccurrence go))) as [|t ts].
    + split; [done|]. by intros [_ ?].
    + done.
Qed.

(** X9.  A call of [Field.Merge] on a receiver that is not nil and has an
    occurrence map, with another field that is not nil, returns and
    writes that map only.  The receiver then holds the kinds of both
    fields, each kind it had with the flag it had.  If the other field
    brought no new kind, the receiver and the store are what they were;
    otherwise the cached type is wiped.  The suggestion is kept, and
    merging the same field once more changes nothing. *)
Theorem Field_Merge_widens_receiver (fo go : Field) (σ : Store) (l : loc)
    (m : gmap DataType bool) :
  typeOccurrence fo = Some l →
  occurrenceObjects σ !! l = Some m →
  ∃ fo' σ',
    Field_Merge_call (Some fo) (Some go) σ = Some (Some fo', σ')
    ∧ fieldsObjects σ' = fieldsObjects σ
    ∧ (∀ l', l' ≠ l → occurrenceObjects σ' !! l' = occurrenceObjects σ !! l')
    ∧ occurrences σ' fo' = occurrences σ fo ∪ occurrences σ go
    ∧ (∀ t b, m !! t = Some b → occ_read σ' (Some l) !! t = Some b)
    ∧ (∀ t, m !! t = None → t ∈ occurrences σ go →
         occ_read σ' (Some l) !! t = Some true)
    ∧ sqlTypeSuggestion fo' = sqlTypeSuggestion fo
    ∧ typeOccurrence fo' = typeOccurrence fo
    ∧ (occurrences σ go ⊆ occurrences σ fo → fo' = fo ∧ σ' = σ)
    ∧ (¬ occurrences σ go ⊆ occurrences σ fo →
         dataType fo' = None ∧ σ' ≠ σ)
    ∧ Field_Merge_call (Some fo') (Some go) σ' = Some (Some fo', σ').
Proof.
  intros Hl Hm.
  destruct (Field_Merge_widens_struct fo go σ l m Hl Hm)
    as (fo' & σ' & Hrun & Hrest).
  exists fo', σ'. cbn [Field_Merge_call]. rewrite Hrun.
  split; [done|].
  destruct Hrest as (H1 & H2 & H3 & H4 & H5 & H6 & H7 & H8 & H9 & Hagain).
  rewrite Hagain. done.
Qed.

Lemma Field_Merge_widens_receiver_witness :
  ∃ fo' σ',
    Field_Merge_call (Some (mkField (Some INT64) None (Some 1%positive)))
      (Some (mkField (Some STRING) None (Some 2%positive))) sample_store
    = Some (Some fo', σ')
    ∧ dataType fo' = None
    ∧ occurrences σ' fo' = {[INT64; STRING]}.
Proof.
  destruct (Field_Merge_widens_receiver
              (mkField (Some INT64) None (Some 1%positive))
              (mkField (Some STRING) None (Some 2%positive))
              sample_store 1%positive {[ INT64 := true ]}
              eq_refl eq_refl)
    as (fo' & σ' & Hrun & _ & _ & Hocc & _ & _ & _ & _ & _ & Hwipe & _).
  exists fo', σ'. split; [exact Hrun|]. split.
  - apply Hwipe. vm_compute. intros Hsub.
    by specialize (Hsub STRING eq_refl).
  - rewrite Hocc. by vm_compute.
Defined.

(** X10.  A call of [Field.Merge] panics exactly when the other field is
    the nil pointer, or the other field has a kind and the receiver is
    the nil pointer or has no occurrence map. *)
Theorem Field_Merge_panics_iff (f anotherField : option Field) (σ : Store) :
  Field_Merge_call f anotherField σ = None
  ↔ anotherField = None
    ∨ ∃ go, anotherField = Some go
        ∧ occurrences σ go ≠ ∅
        ∧ (f = None
           ∨ ∃ fo, f = Some fo
               ∧ ∀ l, typeOccurrence fo = Some l →
                   occurrenceObjects σ !! l = None).
Proof.
  destruct anotherField as [go|]; cbn [Field_Merge_call].
  2: { split; [by left|done]. }
  destruct f as [fo|].
  - pose proof (Field_Merge_None_iff fo go σ) as Hiff.
    destruct (Field_Merge fo go σ) as [[fo' σ']|]; cbn [mbind option_bind].
    + split; [done|].
      intros [?|(go' & [= <-] & Hne & [?|(fo0 & [= <-] & Hun)])];
        try done.
      discriminate (proj2 Hiff (conj Hun Hne)).
    + split; [|done]. intros _. right. exists go. split; [done|].
      destruct (proj1 Hiff eq_refl) as [Hun Hne]. split; [done|].
      right. by exists fo.
  - assert (occurrences σ go ≠ ∅
            ↔ keys (occ_read σ (typeOccurrence go)) ≠ []) as Hkeys.
    { unfold occurrences.
      rewrite <- (list_to_set_keys (occ_read σ (typeOccurrence go))).
      destruct (keys (occ_read σ (typeOccurrence go))) as [|t ts];
        [done|]. split; [done|]. intros _ Hempty.
      cbn [list_to_set foldr] in Hempty.
      assert (t ∈ ({[t]} ∪ list_to_set ts : gset DataType)) as Hin
        by (apply elem_of_union_l; by apply elem_of_singleton).
      rewrite Hempty in Hin. by apply elem_of_empty in Hin. }
    destruct (keys (occ_read σ (typeOccurrence go))) as [|t ts] eqn:Hk.
    + split; [done|].
      intros [?|(go' & [= <-] & Hne & _)]; [done|].
      by apply Hkeys in Hne.
    + split; [|done]. intros _. right. exists go. split; [done|].
      split; [by apply Hkeys|by left].
Qed.

(** ** Merges that change nothing *)

Lemma fields_write_same σ lf F n fo :
  fieldsObjects σ !! lf = Some F → F !! n = Some fo →
  fields_write σ (Some lf) n fo = Some σ.
Proof.
  intros HF Hfo. cbn [fields_write]. rewrite HF. f_equal.
  rewrite (insert_id F) by done. rewrite insert_id by done.
  apply Store_eta.
Qed.

(** [Fields.Merge] changes nothing when the receiver has, under every name
    visited, the kinds of the entry of the other value. *)
Lemma Fields_Merge_noop order σ lf g F :
  fieldsObjects σ !! lf = Some F →
  (∀ n go, n ∈ order → fields_read σ g !! n = Some go →
     ∃ fo, F !! n = Some fo ∧ occurrences σ go ⊆ occurrences σ fo) →
  Fields_Merge order (Some lf) g σ = Some σ.
Proof.
  intros HF. induction order as [|n rest IH]; intros Hall; [done|].
  cbn [Fields_Merge].
  assert (Fields_Merge rest (Some lf) g σ = Some σ) as Hrest.
  { apply IH. intros n' go Hin. apply Hall. by apply list_elem_of_further. }
  destruct (fields_read σ g !! n) as [go|] eqn:Hgo; [|done].
  destruct (Hall n go (list_elem_of_here _ _) Hgo) as (fo & Hfo & Hsub).
  cbn [fields_read]. rewrite HF. cbn [default from_option id]. rewrite Hfo.
  rewrite (Field_Merge_noop fo go σ Hsub). cbn [mbind option_bind].
  rewrite (fields_write_same σ lf F n fo HF Hfo). done.
Qed.

(** X11.  Merging a Fields value into itself, adding it to itself or
    overriding its types by its own changes nothing and never panics,
    nil or not, whatever the names visited. *)
Theorem Fields_self_noop (order : list string) (f : option loc)
    (σ : Store) :
  Fields_Merge order f f σ = Some σ
  ∧ Fields_Add order f f σ = Some σ
  ∧ Fields_OverrideTypes order f f σ = Some σ.
Proof.
  destruct f as [lf|].
  2: { split; [|split; [|apply Fields_OverrideTypes_nil]].
       - induction order as [|n rest IH]; [done|]. cbn [Fields_Merge].
         cbn [fields_read]. by rewrite lookup_empty.
       - induction order as [|n rest IH]; [done|]. cbn [Fields_Add].
         cbn [fields_read]. by rewrite lookup_empty. }
  destruct (fieldsObjects σ !! lf) as [F|] eqn:HF.
  2: { assert (fields_read σ (Some lf) = ∅) as Hread.
       { cbn [fields_read]. by rewrite HF. }
       split; [|split].
       - induction order as [|n rest IH]; [done|]. cbn [Fields_Merge].
         by rewrite Hread, lookup_empty.
       - induction order as [|n rest IH]; [done|]. cbn [Fields_Add].
         by rewrite Hread, lookup_empty.
       - induction order as [|n rest IH]; [done|].
         cbn [Fields_OverrideTypes]. by rewrite Hread, lookup_empty. }
  assert (fields_read σ (Some lf) = F) as Hread.
  { cbn [fields_read]. by rewrite HF. }
  split; [|split].
  - apply (Fields_Merge_noop order σ lf (Some lf) F HF).
    intros n go _ Hgo. rewrite Hread in Hgo. by exists go.
  - induction order as [|n rest IH]; [done|]. cbn [Fields_Add].
    rewrite Hread. by destruct (F !! n).
  - induction order as [|n rest IH]; [done|]. cbn [Fields_OverrideTypes].
    rewrite Hread. destruct (F !! n) as [fo|] eqn:Hfo; [|done].
    replace (mkField (dataType fo) (sqlTypeSuggestion fo) (typeOccurrence fo))
      with fo by (by destruct fo).
    rewrite (fields_write_same σ lf F n fo HF Hfo). done.
Qed.

(** The store after [Fields.Merge] is fixed by the two values. *)
Lemma Fields_Merge_order σ lf lg F G order order' σ1 σ2 :
  fieldsObjects σ !! lf = Some F →
  fieldsObjects σ !! lg = Some G →
  (∀ n fo, F !! n = Some fo → is_Some (G !! n) →
     ∃ l m, typeOccurrence fo = Some l ∧ occurrenceObjects σ !! l = Some m) →
  shared_by_name F F → shared_by_name F G →
  range_order G order → range_order G order' →
  Fields_Merge order (Some lf) (Some lg) σ = Some σ1 →
  Fields_Merge order' (Some lf) (Some lg) σ = Some σ2 →
  σ1 = σ2.
Proof.
  intros HF HG Halloc HFF HFG Horder Horder' Hrun1 Hrun2.
  destruct (Fields_Merge_effect σ lf lg F G HF HG Halloc HFF HFG order Horder)
    as (σ1' & F1 & Hrun1' & Hother1 & HF1 & Hk1 & Hdone1 & Hrest1).
  destruct (Fields_Merge_effect σ lf lg F G HF HG Halloc HFF HFG order'
              Horder')
    as (σ2' & F2 & Hrun2' & Hother2 & HF2 & Hk2 & Hdone2 & Hrest2).
  assert (σ1' = σ1) as -> by congruence.
  assert (σ2' = σ2) as -> by congruence.
  assert (F2 = F1) as ->.
  { apply map_eq. intros n. by rewrite Hk1, Hk2. }
  destruct σ1 as [fs1 os1], σ2 as [fs2 os2]. cbn in *. f_equal.
  - apply map_eq. intros l. destruct (decide (l = lf)) as [->|Hl].
    + by rewrite HF1, HF2.
    + by rewrite Hother1, Hother2.
  - apply map_eq. intros l.
    destruct (decide (map_Exists (λ n fo, is_Some (G !! n)
                                          ∧ typeOccurrence fo = Some l) F))
      as [(n & fo & Hfo & [go Hgo] & Hl)|Hnone].
    + by rewrite (Hdone1 n fo go l), (Hdone2 n fo go l).
    + assert (∀ n fo, F !! n = Some fo → is_Some (G !! n) →
                typeOccurrence fo ≠ Some l) as Hfree.
      { intros n fo Hfo Hgo Hl. apply Hnone. by exists n, fo. }
      by rewrite Hrest1, Hrest2.
Qed.

(** X12.  For two values as in the merge theorem, the store after
    [f.Merge(g)] does not depend on the order in which the range visits
    [g], and a second [f.Merge(g)] right after the first changes
    nothing. *)
Theorem Fields_Merge_idempotent (order order' : list string) (σ : Store)
    (lf lg : loc) (F G : gmap string Field) :
  fieldsObjects σ !! lf = Some F →
  fieldsObjects σ !! lg = Some G →
  (∀ n fo, F !! n = Some fo → is_Some (G !! n) →
     ∃ l m, typeOccurrence fo = Some l ∧ occurrenceObjects σ !! l = Some m) →
  shared_by_name F F → shared_by_name F G →
  range_order G order → range_order G order' →
  ∃ σ',
    Fields_Merge order (Some lf) (Some lg) σ = Some σ'
    ∧ Fields_Merge order' (Some lf) (Some lg) σ = Some σ'
    ∧ Fields_Merge order' (Some lf) (Some lg) σ' = Some σ'.
Proof.
  intros HF HG Halloc HFF HFG Horder Horder'.
  destruct (Fields_Merge_effect σ lf lg F G HF HG Halloc HFF HFG order Horder)
    as (σ' & F' & Hrun & Hother & HF' & Hk & Hdone & Hrest).
  destruct (Fields_Merge_effect σ lf lg F G HF HG Halloc HFF HFG order'
              Horder') as (σ2 & _ & Hrun2 & _).
  assert (σ2 = σ') as ->.
  { symmetry. by eapply (Fields_Merge_order σ lf lg F G order order'). }
  exists σ'. split; [done|]. split; [done|].
  pose proof (Fields_Merge_other_unmodified σ lf lg F G HF HG Halloc HFF HFG
                order σ' Horder Hrun) as [Hsame Hocc].
  assert (fields_read σ (Some lg) = G) as HreadG.
  { cbn [fields_read]. by rewrite HG. }
  apply (Fields_Merge_noop order' σ' lf (Some lg) F' HF').
  intros n go _ Hgo. rewrite Hsame, HreadG in Hgo.
  assert (occurrences σ' go = occurrences σ go) as Hgo'.
  { unfold occurrences. f_equal. apply (Hocc n). by rewrite HreadG. }
  rewrite Hk. unfold merged_entry. rewrite Hgo.
  destruct (F !! n) as [fo|] eqn:Hfo.
  - eexists. split; [reflexivity|]. rewrite Hgo'.
    destruct (Halloc n fo Hfo) as (l & m & Hl & Hm); [by eexists|].
    unfold occurrences at 2. cbn [merged_field typeOccurrence].
    rewrite Hl. cbn [occ_read]. rewrite (Hdone n fo go l Hfo Hgo Hl).
    cbn [default from_option id]. rewrite merged_occurrences_dom.
    apply union_subseteq_r.
  - by exists go.
Qed.

Lemma Fields_Merge_idempotent_witness :
  ∃ σ',
    Fields_Merge ["a"; "b"]%string (Some 1%positive) (Some 2%positive)
      sample_store = Some σ'
    ∧ Fields_Merge ["b"; "a"]%string (Some 1%positive) (Some 2%positive)
        sample_store = Some σ'
    ∧ Fields_Merge ["b"; "a"]%string (Some 1%positive) (Some 2%positive)
        σ' = Some σ'.
Proof.
  assert (fieldsObjects sample_store !! 1%positive = Some sample_F) as HF
    by reflexivity.
  assert (fieldsObjects sample_store !! 2%positive = Some sample_G) as HG
    by reflexivity.
  assert (range_order sample_G ["a"; "b"]%string) as Ho.
  { apply range_order_decide. vm_compute. reflexivity. }
  assert (range_order sample_G ["b"; "a"]%string) as Ho'.
  { apply range_order_decide. vm_compute. reflexivity. }
  assert (shared_by_name sample_F sample_F) as HFF.
  { apply (bool_decide_unpack _). vm_compute. exact I. }
  assert (shared_by_name sample_F sample_G) as HFG.
  { apply (bool_decide_unpack _). vm_compute. exact I. }
  apply (Fields_Merge_idempotent _ _ _ _ _ _ _ HF HG); try done.
  intros n fo Hfo _. unfold sample_F in Hfo.
  apply lookup_singleton_Some in Hfo as [_ <-].
  exists 1%positive, {[ INT64 := true ]}. by split.
Defined.

(** ** Where a merge cannot panic *)

Lemma Field_Merge_keeps_allocated fo go σ fo' σ' l :
  Field_Merge fo go σ = Some (fo', σ') →
  is_Some (occurrenceObjects σ !! l) → is_Some (occurrenceObjects σ' !! l).
Proof.
  intros Hrun Hl. destruct (typeOccurrence fo) as [l0|] eqn:Hl0.
  - destruct (occurrenceObjects σ !! l0) as [m|] eqn:Hm.
    + rewrite (Field_Merge_alloc fo go σ l0 m Hl0 Hm) in Hrun.
      injection Hrun as <- <-. cbn.
      destruct (decide (l = l0)) as [->|Hne].
      * rewrite lookup_insert_eq. by eexists.
      * by rewrite lookup_insert_ne.
    + destruct (Field_Merge_in_frame _ _ _ _ _ Hrun) as [_ Hsame].
      rewrite Hsame; [done|]. rewrite Hl0. intros [= <-].
      rewrite Hm in Hl. by destruct Hl.
  - destruct (Field_Merge_in_frame _ _ _ _ _ Hrun) as [_ Hsame].
    rewrite Hsame; [done|]. by rewrite Hl0.
Qed.

(** X13.  [f.Merge(g)] returns whenever [f] is a map object and every
    entry of [f] has an occurrence map, whatever [g] is, nil included, and
    whatever maps the entries share. *)
Theorem Fields_Merge_returns (order : list string) (g : option loc)
    (σ : Store) (lf : loc) (F : gmap string Field) :
  NoDup order →
  fieldsObjects σ !! lf = Some F →
  (∀ n fo, F !! n = Some fo →
     ∃ l, typeOccurrence fo = Some l ∧ is_Some (occurrenceObjects σ !! l)) →
  is_Some (Fields_Merge order (Some lf) g σ).
Proof.
  intros Hnd HF Hall.
  assert (∀ n fo, n ∈ order → F !! n = Some fo →
            ∃ l, typeOccurrence fo = Some l
                 ∧ is_Some (occurrenceObjects σ !! l)) as Hin.
  { intros n fo _. apply Hall. }
  clear Hall. revert σ F Hnd HF Hin.
  induction order as [|n rest IH]; intros σ F Hnd HF Hall; [by eexists|].
  apply NoDup_cons in Hnd as [Hn Hnd]. cbn [Fields_Merge].
  destruct (fields_read σ g !! n) as [go|] eqn:Hgo.
  2: { apply (IH σ F); [done..|]. intros n' fo Hin'. apply Hall.
       by apply list_elem_of_further. }
  cbn [fields_read]. rewrite HF. cbn [default from_option id].
  destruct (F !! n) as [fo|] eqn:Hfo.
  - destruct (Hall n fo (list_elem_of_here _ _) Hfo) as (l & Hl & [m Hm]).
    destruct (Field_Merge fo go σ) as [[fo' σ1]|] eqn:Hrun.
    2: { by rewrite (Field_Merge_alloc fo go σ l m Hl Hm) in Hrun. }
    cbn [mbind option_bind].
    destruct (Field_Merge_in_frame _ _ _ _ _ Hrun) as [Hfields _].
    cbn [fields_write]. rewrite Hfields, HF. cbn [mbind option_bind].
    eapply IH; [done|cbn; apply lookup_insert_eq|].
    intros n' fo1 Hin' Hfo1. cbn [occurrenceObjects].
    rewrite lookup_insert_ne in Hfo1 by (by intros <-).
    destruct (Hall n' fo1 (list_elem_of_further _ _ _ Hin') Hfo1)
      as (l1 & Hl1 & Hm1).
    exists l1. split; [done|].
    by eapply Field_Merge_keeps_allocated.
  - cbn [fields_write]. rewrite HF. cbn [mbind option_bind].
    eapply IH; [done|cbn; apply lookup_insert_eq|].
    intros n' fo1 Hin' Hfo1. cbn [occurrenceObjects].
    rewrite lookup_insert_ne in Hfo1 by (by intros <-).
    by apply (Hall n' fo1 (list_elem_of_further _ _ _ Hin')).
Qed.

Lemma Fields_Merge_returns_witness :
  is_Some (Fields_Merge ["b"; "a"]%string (Some 1%positive)
             (Some 2%positive) sample_store).
Proof.
  apply (Fields_Merge_returns _ _ sample_store 1%positive sample_F).
  - apply (bool_decide_unpack _). vm_compute. exact I.
  - reflexivity.
  - intros n fo Hfo. unfold sample_F in Hfo.
    apply lookup_singleton_Some in Hfo as [_ <-].
    exists 1%positive. split; [done|]. by eexists.
Defined.

(** ** The invariants after a merge *)

(** X14.  [f.Merge(g)] keeps the invariants it relies on: if the fields
    of [f] and [g] satisfy the invariants of a field and occurrence maps
    are shared, if at all, under one name only, within [f], within [g] and
    between them, then after the call the same holds of the new content
    of [f] and of [g], and [f] has the names of both. *)
Theorem Fields_Merge_preserves_invariants (parent : DataType → DataType)
    (order : list string) (σ : Store) (lf lg : loc)
    (F G : gmap string Field) :
  fieldsObjects σ !! lf = Some F →
  fieldsObjects σ !! lg = Some G →
  range_order G order →
  Fields_ok parent σ F → Fields_ok parent σ G →
  shared_by_name F F → shared_by_name F G → shared_by_name G G →
  ∃ σ' F',
    Fields_Merge order (Some lf) (Some lg) σ = Some σ'
    ∧ fieldsObjects σ' !! lf = Some F'
    ∧ fields_read σ' (Some lg) = G
    ∧ dom F' = dom F ∪ dom G
    ∧ Fields_ok parent σ' F' ∧ Fields_ok parent σ' G
    ∧ shared_by_name F' F' ∧ shared_by_name F' G.
Proof.
  intros HF HG Horder HokF HokG HFF HFG HGG.
  assert (∀ n fo, F !! n = Some fo → is_Some (G !! n) →
            ∃ l m, typeOccurrence fo = Some l
                   ∧ occurrenceObjects σ !! l = Some m) as Halloc.
  { intros n fo Hfo _. eapply Field_ok_alloc. by apply (HokF n). }
  destruct (Fields_Merge_effect σ lf lg F G HF HG Halloc HFF HFG order Horder)
    as (σ' & F' & Hrun & Hother & HF' & Hk & Hdone & Hrest).
  pose proof (Fields_Merge_other_unmodified σ lf lg F G HF HG Halloc HFF HFG
                order σ' Horder Hrun) as [Hsame Hocc].
  assert (fields_read σ (Some lg) = G) as HreadG.
  { cbn [fields_read]. by rewrite HG. }
  rewrite HreadG in Hsame, Hocc.
  assert (∀ n e, F' !! n = Some e →
            (∃ fo, F !! n = Some fo
                   ∧ typeOccurrence e = typeOccurrence fo)
            ∨ (F !! n = None ∧ G !! n = Some e)) as Horigin.
  { intros n e He. rewrite Hk in He. unfold merged_entry in He.
    destruct (G !! n) as [go|] eqn:Hgo.
    - destruct (F !! n) as [fo|] eqn:Hfo.
      + left. exists fo. split; [done|]. by injection He as <-.
      + right. by injection He as <-.
    - left. by exists e. }
  assert (∀ n1 e1 n2 go l, F' !! n1 = Some e1 → G !! n2 = Some go →
            typeOccurrence e1 = Some l → typeOccurrence go = Some l →
            n1 = n2) as HF'G.
  { intros n1 e1 n2 go l He1 Hgo Hl1 Hl2.
    destruct (Horigin n1 e1 He1) as [(fo & Hfo & Href)|[_ Hg1]].
    - apply (shared_by_name_eq F G n1 n2 fo go l); try done. congruence.
    - by apply (shared_by_name_eq G G n1 n2 e1 go l). }
  exists σ', F'. split; [done|]. split; [done|]. split; [done|].
  split; [|split; [|split; [|split]]].
  - apply set_eq. intros n. rewrite elem_of_union, !elem_of_dom, Hk.
    unfold merged_entry. destruct (G !! n) as [go|], (F !! n) as [fo|].
    + split; [by left|by eexists].
    + split; [by right|by eexists].
    + split; [by left|by intros [?|?]].
    + split; [by intros [? ?]|]. by intros [[? ?]|[? ?]].
  - intros n e He. rewrite Hk in He. unfold merged_entry in He.
    destruct (G !! n) as [go|] eqn:Hgo.
    + destruct (F !! n) as [fo|] eqn:Hfo.
      * injection He as <-. pose proof (HokF n fo Hfo) as [Hne Hcache].
        destruct (Halloc n fo Hfo) as (l & m & Hl & Hm); [by eexists|].
        assert (occ_read σ' (typeOccurrence (merged_field σ fo go))
                = merged_occurrences (occ_read σ (Some l))
                    (occurrences σ go)) as Hread.
        { cbn [merged_field typeOccurrence]. rewrite Hl. cbn [occ_read].
          by rewrite (Hdone n fo go l Hfo Hgo Hl). }
        assert (occ_read σ (typeOccurrence fo) = occ_read σ (Some l)) as Hfo'
          by (by rewrite Hl).
        split.
        -- unfold occurrences. rewrite Hread, merged_occurrences_dom.
           intros Hempty. apply Hne. unfold occurrences. rewrite Hfo'.
           apply (anti_symm (⊆)); [|apply empty_subseteq].
           rewrite <- Hempty. apply union_subseteq_l.
        -- cbn [merged_field dataType]. case_decide as Hsub; [|by left].
           rewrite Hread. rewrite merged_occurrences_subseteq.
           ++ by rewrite <- Hfo'.
           ++ unfold occurrences in Hsub at 2. by rewrite Hfo' in Hsub.
      * injection He as <-. apply (Field_ok_struct parent σ σ' go go);
          [done| |by apply (HokG n)]. by apply (Hocc n).
    + pose proof (HokF n e He) as Hok.
      apply (Field_ok_struct parent σ σ' e e); [done| |done].
      destruct (typeOccurrence e) as [l|] eqn:Hl; [|done].
      cbn [occ_read]. rewrite Hrest; [done|].
      intros n' fo' Hfo' [go' Hgo'] Hl'.
      assert (n' = n) as -> by (by apply (shared_by_name_eq F F n' n fo' e l)).
      congruence.
  - intros n go Hgo. apply (Field_ok_struct parent σ σ' go go);
      [done| |by apply (HokG n)]. by apply (Hocc n).
  - intros n1 e1 He1 n2 e2 He2 [l Hl] Heq.
    destruct (Horigin n2 e2 He2) as [(fo2 & Hfo2 & Href2)|[_ Hg2]].
    + destruct (Horigin n1 e1 He1) as [(fo1 & Hfo1 & Href1)|[_ Hg1]].
      * apply (shared_by_name_eq F F n1 n2 fo1 fo2 l); try done; congruence.
      * symmetry.
        apply (shared_by_name_eq F G n2 n1 fo2 e1 l); try done; congruence.
    + apply (HF'G n1 e1 n2 e2 l); try done. congruence.
  - intros n1 e1 He1 n2 go Hgo [l Hl] Heq.
    apply (HF'G n1 e1 n2 go l); try done. congruence.
Qed.

Lemma Fields_Merge_preserves_invariants_witness :
  ∃ σ' F',
    Fields_Merge ["a"; "b"]%string (Some 1%positive) (Some 2%positive)
      sample_store = Some σ'
    ∧ fieldsObjects σ' !! 1%positive = Some F'
    ∧ dom F' = dom sample_F ∪ dom sample_G
    ∧ Fields_ok chain_parent σ' F'
    ∧ shared_by_name F' F'.
Proof.
  assert (fieldsObjects sample_store !! 1%positive = Some sample_F) as HF
    by reflexivity.
  assert (fieldsObjects sample_store !! 2%positive = Some sample_G) as HG
    by reflexivity.
  assert (range_order sample_G ["a"; "b"]%string) as Ho.
  { apply range_order_decide. vm_compute. reflexivity. }
  assert (Fields_ok chain_parent sample_store sample_F) as HokF.
  { apply (bool_decide_unpack _). vm_compute. exact I. }
  assert (Fields_ok chain_parent sample_store sample_G) as HokG.
  { apply (bool_decide_unpack _). vm_compute. exact I. }
  assert (shared_by_name sample_F sample_F) as HFF.
  { apply (bool_decide_unpack _). vm_compute. exact I. }
  assert (shared_by_name sample_F sample_G) as HFG.
  { apply (bool_decide_unpack _). vm_compute. exact I. }
  assert (shared_by_name sample_G sample_G) as HGG.
  { apply (bool_decide_unpack _). vm_compute. exact I. }
  destruct (Fields_Merge_preserves_invariants chain_parent _ _ _ _ _ _
              HF HG Ho HokF HokG HFF HFG HGG)
    as (σ' & F' & Hrun & HF' & _ & Hdom & Hok & _ & Hshared & _).
  by exists σ', F'.
Defined.

(** ** Fields.Add once more, and BatchHeader.Exists *)



Lemma map_size_pos `{Countable K} {V : Type} (m : gmap K V) :
  (0 <? size m)%nat = negb (bool_decide (dom m = ∅)).
Proof. rewrite <- size_dom. apply size_pos_nonempty. Qed.

Lemma dom_union_empty `{Countable K} (s1 s2 : gset K) :
  bool_decide (s1 ∪ s2 = ∅) = bool_decide (s1 = ∅) && bool_decide (s2 = ∅).
Proof.
  apply eq_true_iff_eq. rewrite andb_true_iff, !bool_decide_eq_true.
  split.
  - intros Hu. split; apply (anti_symm (⊆)); try apply empty_subseteq;
      rewrite <- Hu; [apply union_subseteq_l|apply union_subseteq_r].
  - intros [-> ->]. apply (idemp_L (∪)).
Qed.

(** X16.  A batch header whose fields are [f] exists after [f.Add(g)]
    exactly when it or a header with the fields [g] existed before, and
    after [f.OverrideTypes(g)] exactly when it existed before: no call
    makes an existing header cease to exist. *)
Theorem BatchHeader_Exists_after (order : list string) (σ : Store)
    (lf lg : loc) (F G : gmap string Field) (bh bg : BatchHeader) :
  fieldsObjects σ !! lf = Some F →
  fieldsObjects σ !! lg = Some G →
  range_order G order →
  BatchFields bh = Some lf → BatchFields bg = Some lg →
  (∃ σ', Fields_Add order (Some lf) (Some lg) σ = Some σ'
         ∧ BatchHeader_Exists (Some bh) σ'
           = BatchHeader_Exists (Some bh) σ
             || BatchHeader_Exists (Some bg) σ)
  ∧ (∃ σ', Fields_OverrideTypes order (Some lf) (Some lg) σ = Some σ'
           ∧ BatchHeader_Exists (Some bh) σ'
             = BatchHeader_Exists (Some bh) σ)
  ∧ BatchHeader_Exists None σ = false.
Proof.
  intros HF HG Horder Hbh Hbg. cbn [BatchHeader_Exists].
  rewrite Hbh, Hbg. cbn [fields_read]. rewrite HF, HG.
  cbn [default from_option id]. split; [|split; [|done]].
  - destruct (Fields_Add_effect σ lf lg F G HF HG order Horder)
      as (σ' & Hrun & Hocc & Hfields).
    exists σ'. split; [done|]. rewrite Hfields, lookup_insert_eq.
    cbn [default from_option id]. rewrite !map_size_pos, dom_union_L.
    rewrite dom_union_empty. by rewrite negb_andb.
  - destruct (Fields_OverrideTypes_effect σ lf lg F G HF HG order Horder)
      as (σ' & F' & Hrun & -> & HF').
    eexists. split; [done|]. cbn [fieldsObjects].
    rewrite lookup_insert_eq. cbn [default from_option id].
    rewrite !map_size_pos.
    assert (dom F' = dom F) as Hdom; [|by rewrite Hdom].
    apply set_eq. intros n. rewrite !elem_of_dom, HF'.
    unfold overridden_entry.
    destruct (F !! n) as [fo|], (G !! n) as [go|]; done.
Qed.

Lemma BatchHeader_Exists_after_witness :
  BatchHeader_Exists
    (Some (mkBatchHeader "events" (Some 1%positive) NoPartition))
    sample_store = true
  ∧ ∃ σ', Fields_Add ["a"; "b"]%string (Some 1%positive) (Some 2%positive)
            sample_store = Some σ'
          ∧ BatchHeader_Exists
              (Some (mkBatchHeader "events" (Some 1%positive) NoPartition))
              σ' = true.
Proof.
  assert (fieldsObjects sample_store !! 1%positive = Some sample_F) as HF
    by reflexivity.
  assert (fieldsObjects sample_store !! 2%positive = Some sample_G) as HG
    by reflexivity.
  assert (range_order sample_G ["a"; "b"]%string) as Ho.
  { apply range_order_decide. vm_compute. reflexivity. }
  split; [reflexivity|].
  destruct (BatchHeader_Exists_after _ _ _ _ _ _
              (mkBatchHeader "events" (Some 1%positive) NoPartition)
              (mkBatchHeader "events" (Some 2%positive) NoPartition)
              HF HG Ho eq_refl eq_refl) as [(σ' & Hrun & Hex) _].
  exists σ'. split; [exact Hrun|]. rewrite Hex. reflexivity.
Defined.

(** ** When a patch exists *)

(** The patch of [Table.Diff] against a desired table that exists, in
    closed form. *)
Lemma Table_Diff_closed order t another :
  Table_Exists another = true →
  Table_Diff order t another
  = mkTable (Schema t) (Name t)
      (Diff_columns order t (Table_columns another) ∅)
      (if decide (foreign_pk t ∨ PKFields t = Table_pkfields another)
       then ∅ else Table_pkfields another)
      (if decide (foreign_pk t ∨ PKFields t = Table_pkfields another)
       then ""%string else BuildConstraintName (Schema t) (Name t))
      NoPartition
      (if decide (foreign_pk t ∨ PKFields t = Table_pkfields another)
       then false else negb (bool_decide (PKFields t = ∅))).
Proof.
  intros Hex. unfold Table_Diff, Set_Equals. rewrite Hex.
  cbn [negb]. rewrite !size_pos_nonempty.
  destruct (decide (foreign_pk t ∨ PKFields t = Table_pkfields another))
    as [Hd|Hd]; unfold foreign_pk in Hd.
  all: destruct (String.eqb_spec (PrimaryKeyName t) "") as [Hn|Hn];
    destruct (String.eqb_spec (PrimaryKeyName t)
                (BuildConstraintName (Schema t) (Name t))) as [Hj|Hj];
    cbn [negb andb]; try done.
  all: repeat case_bool_decide; cbn [negb]; try done.
  all: try (destruct Hd as [[? ?]|?]; congruence).
  all: try (destruct Hd; right; congruence).
  all: try (destruct Hd; by left).
Qed.

(** The column loop of [Table.Diff] yields a column exactly when the
    desired table has a name the current one lacks. *)
Lemma Diff_columns_empty order t ac :
  range_order ac order →
  Diff_columns order t ac ∅ = ∅
  ↔ ∀ name, is_Some (ac !! name) → is_Some (Columns t !! name).
Proof.
  intros Horder. split.
  - intros Hempty name [c Hc].
    pose proof (Diff_columns_lookup order t ac ∅ name) as Hl.
    rewrite Hempty, lookup_empty, Hc in Hl.
    destruct (Columns t !! name); [done|].
    rewrite decide_True in Hl; [done|].
    apply (range_order_elem ac order name Horder). by eexists.
  - intros Hall. apply map_eq. intros name.
    rewrite Diff_columns_lookup, lookup_empty.
    destruct (Columns t !! name) eqn:Ht; [done|].
    destruct (ac !! name) eqn:Ha; [|done].
    destruct (Hall name) as [? ?]; [by eexists|congruence].
Qed.

Lemma map_size_pos_empty `{Countable K} {V : Type} (m : gmap K V) :
  (0 <? size m)%nat = false ↔ m = ∅.
Proof.
  rewrite Nat.ltb_ge. split.
  - intros Hs. apply map_size_empty_iff. lia.
  - intros ->. by rewrite map_size_empty.
Qed.

Lemma Table_Diff_exists_iff order t another :
  range_order (Table_columns another) order →
  Table_Exists (Some (Table_Diff order t another)) = false
  ↔ (Table_Exists another = false
     ∨ ((∀ name, is_Some (Table_columns another !! name)
                 → is_Some (Columns t !! name))
        ∧ (foreign_pk t ∨ PKFields t = Table_pkfields another))).
Proof.
  intros Horder.
  destruct (Table_Exists another) eqn:Hex.
  2: { rewrite Table_Diff_not_exists by done. split; [by left|done]. }
  rewrite (Table_Diff_closed order t another Hex).
  cbn [Table_Exists Columns PKFields DeletePkFields].
  rewrite !orb_false_iff, map_size_pos_empty.
  rewrite (Diff_columns_empty order t _ Horder).
  rewrite size_pos_nonempty.
  case_decide as Hd.
  - split.
    + intros [[Hc _] _]. right. by split.
    + intros [?|[Hc _]]; [done|]. split; [split; [done|]|done].
      by rewrite bool_decide_eq_true_2.
  - split.
    + intros [[Hc Hp] Hdel]. apply negb_false_iff in Hp, Hdel.
      apply bool_decide_eq_true in Hp, Hdel. destruct Hd. right. congruence.
    + intros [?|[_ ?]]; done.
Qed.

(** X17.  The patch of [Table.Diff] exists exactly when the desired table
    exists and either has a column name the current table lacks, or the
    primary key is not managed from outside and the two sets of
    primary-key fields differ. *)
Theorem Table_Diff_exists (order : list string) (t : Table)
    (another : option Table) :
  range_order (Table_columns another) order →
  Table_Exists (Some (Table_Diff order t another)) = true
  ↔ Table_Exists another = true
    ∧ ((∃ name, is_Some (Table_columns another !! name)
                ∧ Columns t !! name = None)
       ∨ (¬ foreign_pk t ∧ PKFields t ≠ Table_pkfields another)).
Proof.
  intros Horder.
  pose proof (Table_Diff_exists_iff order t another Horder) as Hiff.
  destruct (Table_Exists (Some (Table_Diff order t another))) eqn:Hpatch.
  - split; [intros _|done].
    destruct (Table_Exists another) eqn:Hex.
    2: { destruct Hiff as [_ Hiff]. by specialize (Hiff (or_introl eq_refl)). }
    split; [done|].
    destruct (decide (foreign_pk t ∨ PKFields t = Table_pkfields another))
      as [Hpk|Hpk].
    + left.
      destruct (decide (map_Exists (λ name _, Columns t !! name = None)
                          (Table_columns another)))
        as [(name & c & Hc & Hnone)|Hall].
      * exists name. split; [by eexists|done].
      * destruct Hiff as [_ Hiff]. discriminate Hiff. right. split; [|done].
        intros name [c Hc]. destruct (Columns t !! name) eqn:Ht; [done|].
        destruct Hall. by exists name, c.
    + right. split.
      * intros Hf. apply Hpk. by left.
      * intros Heq. apply Hpk. by right.
  - split; [done|]. intros [Hex Hchange]. destruct Hiff as [Hiff _].
    destruct (Hiff eq_refl) as [Hno|[Hcols Hpk]]; [congruence|].
    destruct Hchange as [(name & Hsome & Hnone)|[Hnf Hne]].
    + apply Hcols in Hsome as [? ?]. congruence.
    + by destruct Hpk.
Qed.

Lemma Table_Diff_exists_witness :
  range_order (Table_columns (Some sample_desired)) ["id"; "name"]%string
  ∧ Table_Exists
      (Some (Table_Diff ["id"; "name"]%string sample_current
               (Some sample_desired))) = true.
Proof.
  assert (range_order (Table_columns (Some sample_desired))
            ["id"; "name"]%string) as Ho.
  { apply range_order_decide. vm_compute. reflexivity. }
  split; [exact Ho|].
  apply (Table_Diff_exists _ sample_current (Some sample_desired) Ho).
  split; [reflexivity|]. left. exists "name"%string.
  split; [by eexists|reflexivity].
Defined.

(** X18.  No patch is left once the current table has the desired one's
    column names and primary-key fields: the patch is then the empty one,
    whatever the types of the columns on either side.  In particular the
    patch of a table against itself does not exist. *)
Theorem Table_Diff_converged (order : list string) (t : Table)
    (another : option Table) :
  range_order (Table_columns another) order →
  (∀ name, is_Some (Table_columns another !! name)
           → is_Some (Columns t !! name)) →
  foreign_pk t ∨ PKFields t = Table_pkfields another →
  Table_Diff order t another = empty_patch t
  ∧ Table_Exists (Some (Table_Diff order t another)) = false
  ∧ (∀ order', range_order (Columns t) order' →
       Table_Diff order' t (Some t) = empty_patch t).
Proof.
  intros Horder Hcols Hpk.
  assert (∀ o a, range_order (Table_columns a) o →
            (∀ name, is_Some (Table_columns a !! name)
                     → is_Some (Columns t !! name)) →
            foreign_pk t ∨ PKFields t = Table_pkfields a →
            Table_Diff o t a = empty_patch t) as Hgen.
  { intros o a Ho Hc Hp. destruct (Table_Exists a) eqn:Hex.
    - rewrite (Table_Diff_closed o t a Hex).
      rewrite !decide_True by done.
      by rewrite (proj2 (Diff_columns_empty o t _ Ho) Hc).
    - by apply Table_Diff_not_exists. }
  split; [by apply Hgen|]. split.
  - apply (Table_Diff_exists_iff order t another Horder).
    destruct (Table_Exists another); [right|left]; done.
  - intros order' Horder'. apply Hgen; [done|done|by right].
Qed.

Lemma Table_Diff_converged_witness :
  Table_Diff ["id"]%string sample_keyed (Some sample_keyed)
  = empty_patch sample_keyed
  ∧ Table_Exists
      (Some (Table_Diff ["id"]%string sample_keyed (Some sample_keyed)))
    = false.
Proof.
  assert (range_order (Table_columns (Some sample_keyed)) ["id"]%string)
    as Ho.
  { apply range_order_decide. vm_compute. reflexivity. }
  destruct (Table_Diff_converged _ sample_keyed (Some sample_keyed) Ho)
    as (H1 & H2 & _); [done|by right|].
  by split.
Defined.

(** X19.  [Table.Diff] reads of the current table its schema, its name,
    the names of its columns, its primary-key fields and the name of its
    constraint, and of the desired table whether it exists, its columns
    and its primary-key fields: two current tables that agree on the
    former, and two existing desired tables that agree on the latter, get
    the same patch.  Column types of the current table, partitions and
    the delete flag of the current table play no role. *)
Theorem Table_Diff_reads (order : list string) (t t' a a' : Table) :
  Schema t' = Schema t → Name t' = Name t →
  dom (Columns t') = dom (Columns t) →
  PKFields t' = PKFields t → PrimaryKeyName t' = PrimaryKeyName t →
  Table_Exists (Some a) = true → Table_Exists (Some a') = true →
  Columns a' = Columns a → PKFields a' = PKFields a →
  Table_Diff order t' (Some a') = Table_Diff order t (Some a).
Proof.
  intros Hs Hn Hd Hp Hk Hex Hex' Hc Hpa.
  rewrite (Table_Diff_closed order t' (Some a') Hex').
  rewrite (Table_Diff_closed order t (Some a) Hex).
  cbn [Table_columns Table_pkfields from_option].
  assert (foreign_pk t' ↔ foreign_pk t) as Hf.
  { unfold foreign_pk. by rewrite Hs, Hn, Hk. }
  assert (Diff_columns order t' (Columns a') ∅
          = Diff_columns order t (Columns a) ∅) as ->.
  { apply map_eq. intros name. rewrite !Diff_columns_lookup, Hc.
    assert (Columns t' !! name = None ↔ Columns t !! name = None) as Hnone.
    { by rewrite <- !not_elem_of_dom, Hd. }
    destruct (Columns t' !! name) eqn:H1, (Columns t !! name) eqn:H2;
      try done.
    - discriminate (proj2 Hnone eq_refl).
    - discriminate (proj1 Hnone eq_refl). }
  destruct (decide (foreign_pk t ∨ PKFields t = PKFields a)) as [Hd1|Hd1];
    destruct (decide (foreign_pk t' ∨ PKFields t' = PKFields a')) as [Hd2|Hd2].
  - by rewrite Hs, Hn.
  - destruct Hd2. destruct Hd1 as [?|?]; [left; by apply Hf|right].
    by rewrite Hp, Hpa.
  - destruct Hd1. destruct Hd2 as [?|?]; [left; by apply Hf|right].
    by rewrite <- Hp, <- Hpa.
  - by rewrite Hs, Hn, Hp, Hpa.
Qed.

Lemma Table_Diff_reads_witness :
  Table_Diff ["id"; "name"]%string
    (mkTable "public" "events" {["id" := sample_column "text"]} ∅ ""
       (PartitionBucket "2024-01") true)
    (Some sample_desired)
  = Table_Diff ["id"; "name"]%string sample_current (Some sample_desired).
Proof.
  apply (Table_Diff_reads _ sample_current _ sample_desired sample_desired);
    reflexivity.
Defined.

(** ** The generated name of the constraint *)

Lemma append_length (s1 s2 : string) :
  String.length (s1 +:+ s2) = String.length s1 + String.length s2.
Proof.
  induction s1 as [|a s1 IH]; [done|].
  change (String a s1 +:+ s2) with (String a (s1 +:+ s2)).
  cbn [String.length]. by rewrite IH.
Qed.

Lemma append_assoc (s1 s2 s3 : string) :
  (s1 +:+ s2) +:+ s3 = s1 +:+ (s2 +:+ s3).
Proof.
  induction s1 as [|a s1 IH]; [done|].
  change ((String a s1 +:+ s2) +:+ s3) with (String a ((s1 +:+ s2) +:+ s3)).
  by rewrite IH.
Qed.

Lemma append_inj_l (s1 s2 u : string) : s1 +:+ u = s2 +:+ u → s1 = s2.
Proof.
  revert s2. induction s1 as [|a s1 IH]; intros [|b s2] Heq; [done| | |].
  - apply (f_equal String.length) in Heq.
    rewrite !append_length in Heq. cbn [String.length] in Heq. lia.
  - apply (f_equal String.length) in Heq.
    rewrite !append_length in Heq. cbn [String.length] in Heq. lia.
  - change (String a (s1 +:+ u) = String b (s2 +:+ u)) in Heq.
    injection Heq as -> Heq. f_equal. by apply IH.
Qed.

(** X20.  The generated constraint name tells the tables of one schema
    apart, and the schemas of one table name; it is never the empty
    name.  It does not tell apart all pairs of schema and table: moving a
    part after an underscore from the schema to the table gives the same
    name. *)
Theorem BuildConstraintName_injective (s s' t t' u : string) :
  (BuildConstraintName s t = BuildConstraintName s t' → t = t')
  ∧ (BuildConstraintName s t = BuildConstraintName s' t → s = s')
  ∧ BuildConstraintName s t ≠ ""%string
  ∧ BuildConstraintName (s +:+ "_" +:+ u) t
    = BuildConstraintName s (u +:+ "_" +:+ t).
Proof.
  unfold BuildConstraintName. split; [|split; [|split]].
  - intros Heq. apply (inj (String.app s)) in Heq.
    apply (inj (String.app "_")) in Heq. by apply append_inj_l in Heq.
  - intros Heq. by apply append_inj_l in Heq.
  - intros Heq. apply (f_equal String.length) in Heq.
    rewrite !append_length in Heq. cbn in Heq. lia.
  - by rewrite !append_assoc.
Qed.

(** ** Table.Clone *)

Lemma Clone_columns_lookup order columns acc name :
  Clone_columns order columns acc !! name
  = match columns !! name with
    | Some v => if decide (name ∈ order) then Some v else acc !! name
    | None => acc !! name
    end.
Proof.
  revert acc. induction order as [|k rest IH]; intros acc;
    cbn [Clone_columns].
  - destruct (columns !! name); [|done]. by rewrite decide_False by inversion 1.
  - destruct (columns !! k) as [v|] eqn:Hk.
    + rewrite IH. destruct (columns !! name) as [w|] eqn:Hname.
      * destruct (decide (name = k)) as [->|Hne].
        -- rewrite lookup_insert_eq.
           rewrite (decide_True (P := k ∈ k :: rest))
             by apply list_elem_of_here.
           case_decide; congruence.
        -- rewrite lookup_insert_ne by done. apply decide_ext.
           rewrite elem_of_cons. split; [by right|by intros [?|?]].
      * rewrite lookup_insert_ne; [done|]. intros ->. congruence.
    + rewrite IH. destruct (columns !! name) as [w|] eqn:Hname; [|done].
      apply decide_ext. rewrite elem_of_cons.
      split; [by right|]. intros [->|?]; [congruence|done].
Qed.

(** X21.  [Table.Clone] returns a table with the schema, the name, the
    columns, the name of the constraint and the delete flag of the
    receiver, whatever order the range takes, and with the primary-key
    fields as [Set.Clone] gives them; the partition of the receiver is
    not taken over, the clone has none.  With a [Set.Clone] that returns
    the fields it is given, the patch of a table against its clone and
    that of the clone against the table do not exist. *)
Theorem Table_Clone_copies (Set_Clone : gset string → gset string)
    (order order' : list string) (t : Table) :
  range_order (Columns t) order →
  Table_Clone Set_Clone order t
  = mkTable (Schema t) (Name t) (Columns t) (Set_Clone (PKFields t))
      (PrimaryKeyName t) NoPartition (DeletePkFields t)
  ∧ Partition (Table_Clone Set_Clone order t) = NoPartition
  ∧ (Set_Clone (PKFields t) = PKFields t →
     range_order (Columns t) order' →
     Table_Diff order' t (Some (Table_Clone Set_Clone order t))
     = empty_patch t
     ∧ Table_Diff order' (Table_Clone Set_Clone order t) (Some t)
       = empty_patch t).
Proof.
  intros Horder.
  assert (Clone_columns order (Columns t) ∅ = Columns t) as Hcols.
  { apply map_eq. intros name. rewrite Clone_columns_lookup, lookup_empty.
    destruct (Columns t !! name) as [v|] eqn:Hv; [|done].
    rewrite decide_True; [done|].
    apply (range_order_elem (Columns t) order name Horder). by eexists. }
  unfold Table_Clone. rewrite Hcols. split; [done|]. split; [done|].
  intros Hset Horder'. rewrite Hset.
  assert (∀ x y : Table,
            Columns y = Columns x → PKFields y = PKFields x →
            Schema y = Schema x → Name y = Name x →
            range_order (Columns y) order' →
            Table_Diff order' x (Some y) = empty_patch x) as Hgen.
  { intros x y Hc Hp Hs Hn Ho. destruct (Table_Exists (Some y)) eqn:Hex.
    - rewrite (Table_Diff_closed order' x (Some y) Hex).
      cbn [Table_columns Table_pkfields from_option].
      rewrite !decide_True by (by right).
      rewrite (proj2 (Diff_columns_empty order' x _ Ho)); [done|].
      intros name. by rewrite Hc.
    - by apply Table_Diff_not_exists. }
  split.
  - by apply Hgen.
  - by rewrite (Hgen _ t).
Qed.

Lemma Table_Clone_copies_witness :
  Table_Clone id ["name"; "id"]%string sample_desired = sample_desired
  ∧ Table_Diff ["id"; "name"]%string sample_desired
      (Some (Table_Clone id ["name"; "id"]%string sample_desired))
    = empty_patch sample_desired.
Proof.
  assert (range_order (Columns sample_desired) ["name"; "id"]%string) as Ho.
  { apply range_order_decide. vm_compute. reflexivity. }
  assert (range_order (Columns sample_desired) ["id"; "name"]%string) as Ho'.
  { apply range_order_decide. vm_compute. reflexivity. }
  destruct (Table_Clone_copies id _ ["id"; "name"]%string sample_desired Ho)
    as (Hclone & _ & Hdiff).
  split; [exact Hclone|]. by apply Hdiff.
Defined.

(** ** What Field.GetType returns *)

(** X22.  [Field.GetType] returns the cached type when there is one,
    without a look at the occurrences, and UNKNOWN for a field with
    neither cache nor occurrence, leaving its copy of the field as it is.
    Otherwise, under any hierarchy with string on top, the type returned
    is the least kind that lies above every occurrence: it is the
    occurrence itself when there is one only, and string as soon as
    string occurs; the copy the method works on gets it as cached
    type. *)
Theorem Field_GetType_least_upper_bound (parent : DataType → DataType)
    (σ : Store) (f : Field) (types : list DataType) :
  hierarchy parent →
  range_order (occ_read σ (typeOccurrence f)) types →
  (∀ c, dataType f = Some c → Field_GetType parent types f = (c, f))
  ∧ (dataType f = None → occurrences σ f = ∅ →
     Field_GetType parent types f = (UNKNOWN, f))
  ∧ (dataType f = None → occurrences σ f ≠ ∅ →
     (∀ x, x ∈ occurrences σ f →
        below parent 5 x (Field_GetType parent types f).1)
     ∧ (∀ c, (∀ x, x ∈ occurrences σ f → below parent 5 x c) →
          below parent 5 (Field_GetType parent types f).1 c)
     ∧ (STRING ∈ occurrences σ f →
        (Field_GetType parent types f).1 = STRING)
     ∧ (∀ t0, occurrences σ f = {[t0]} →
          (Field_GetType parent types f).1 = t0)
     ∧ (Field_GetType parent types f).2
       = mkField (Some (Field_GetType parent types f).1)
           (sqlTypeSuggestion f) (typeOccurrence f)).
Proof.
  intros Hh Horder. unfold Field_GetType. split; [|split].
  - by intros c ->.
  - intros -> Hempty. unfold occurrences in Hempty.
    destruct Horder as [_ Hset]. rewrite Hempty in Hset.
    destruct types as [|t ts]; [done|].
    assert (t ∈ (list_to_set (t :: ts) : gset DataType)) as Hin
      by (apply elem_of_list_to_set, list_elem_of_here).
    rewrite Hset in Hin. by apply elem_of_empty in Hin.
  - intros -> Hne.
    assert (∀ x, x ∈ occurrences σ f ↔ x ∈ types) as Hmem.
    { intros x. symmetry. by apply range_order_dom. }
    destruct (fold_common_is_Some parent types) as [t Ht].
    { by eapply range_order_nonempty. }
    rewrite Ht. cbn [fst snd].
    assert (∀ x, x ∈ occurrences σ f → below parent 5 x t) as Hupper.
    { intros x Hx. apply (fold_common_upper parent Hh types t x Ht).
      by apply Hmem. }
    assert (∀ c, (∀ x, x ∈ occurrences σ f → below parent 5 x c) →
              below parent 5 t c) as Hleast.
    { intros c Hc. apply (fold_common_least parent Hh types t c Ht).
      intros x Hx. by apply Hc, Hmem. }
    split; [done|]. split; [done|]. split; [|split; [|done]].
    + intros Hs. apply (below_antisym parent STRING 5 Hh).
      * apply (below_top parent STRING 5 Hh).
      * by apply Hupper.
    + intros t0 Hsingle. apply (below_antisym parent STRING 5 Hh).
      * apply Hleast. intros x Hx. rewrite Hsingle in Hx.
        apply elem_of_singleton in Hx as ->.
        apply (below_refl parent STRING 5 Hh).
      * apply Hupper. rewrite Hsingle. by apply elem_of_singleton.
Qed.

Lemma Field_GetType_least_upper_bound_witness :
  hierarchy chain_parent
  ∧ range_order
      (occ_read sample_store_uncached (typeOccurrence sample_uncached))
      [INT64]
  ∧ (Field_GetType chain_parent [INT64] sample_uncached).1 = INT64.
Proof.
  assert (range_order
            (occ_read sample_store_uncached (typeOccurrence sample_uncached))
            [INT64]) as Ho.
  { apply range_order_decide. vm_compute. reflexivity. }
  split; [exact hierarchy_chain|]. split; [exact Ho|].
  destruct (Field_GetType_least_upper_bound chain_parent
              sample_store_uncached sample_uncached [INT64]
              hierarchy_chain Ho) as (_ & _ & Hjoin).
  destruct Hjoin as (_ & _ & _ & Hsingle & _); [done| |].
  - by vm_compute.
  - apply Hsingle. by vm_compute.
Defined.

(** ** Bounds on one upload *)

Section UploadBounds.
Variable newRequestErr : option string.
Variable httpDo : nat → RoundTrip.

Lemma Upload_loop_bounds delays st :
  ∃ k, k ≤ length delays
       ∧ slept (Upload_loop newRequestErr httpDo delays st)
         = slept st ++ take k delays
       ∧ (sent (Upload_loop newRequestErr httpDo delays st) = sent st + k
          ∨ sent (Upload_loop newRequestErr httpDo delays st)
            = sent st + k + 1 ∧ k < length delays).
Proof.
  revert st. induction delays as [|d rest IH]; intros st.
  { exists 0. cbn. rewrite app_nil_r. split; [done|]. split; [done|].
    left. lia. }
  assert (∀ st', slept st' = slept st → sent st' = S (sent st) →
            ∃ k, k ≤ length (d :: rest)
                 ∧ slept st' = slept st ++ take k (d :: rest)
                 ∧ (sent st' = sent st + k
                    ∨ sent st' = sent st + k + 1 ∧ k < length (d :: rest)))
    as Hstop.
  { intros st' Hs Hn. exists 0. cbn. rewrite app_nil_r.
    split; [lia|]. split; [done|]. right. lia. }
  assert (∀ st', slept st' = slept st ++ [d] → sent st' = S (sent st) →
            ∃ k, k ≤ length (d :: rest)
                 ∧ slept (Upload_loop newRequestErr httpDo rest st')
                   = slept st ++ take k (d :: rest)
                 ∧ (sent (Upload_loop newRequestErr httpDo rest st')
                    = sent st + k
                    ∨ sent (Upload_loop newRequestErr httpDo rest st')
                      = sent st + k + 1 ∧ k < length (d :: rest)))
    as Hgo.
  { intros st' Hs Hn. destruct (IH st') as (k & Hk & Hslept & Hsent).
    exists (S k). cbn [length take]. split; [lia|]. split.
    - rewrite Hslept, Hs. by rewrite <- app_assoc.
    - rewrite Hn in Hsent. destruct Hsent as [?|[? ?]]; [left|right]; lia. }
  cbn [Upload_loop]. destruct newRequestErr as [e|].
  { exists 0. cbn. rewrite app_nil_r. split; [lia|]. split; [done|].
    left. lia. }
  destruct (httpDo (sent st)) as [e|status body readErr].
  { by apply Hgo. }
  destruct (status =? 200)%Z; [by apply Hstop|].
  destruct (status =? 400)%Z.
  { destruct (strings_Contains body validationMarker); by apply Hstop. }
  destruct ((status =? 500)%Z || (status =? 502)%Z || (status =? 503)%Z).
  - by apply Hgo.
  - by apply Hstop.
Qed.

Lemma Upload_loop_accepted delays st :
  delays ≠ [] ∨ accepted st →
  accepted (Upload_loop newRequestErr httpDo delays st).
Proof.
  revert st. induction delays as [|d rest IH]; intros st Hst.
  { by destruct Hst. }
  cbn [Upload_loop]. destruct newRequestErr as [e|].
  { unfold accepted. cbn. split; [done|]. intros [?|[? _]]; lia. }
  destruct (httpDo (sent st)) as [e|status body readErr].
  { apply IH. right. unfold accepted. cbn. split; [done|].
    intros [?|[? _]]; lia. }
  destruct (status =? 200)%Z eqn:H200.
  { unfold accepted. cbn. split; [|done]. intros _. left. lia. }
  destruct (status =? 400)%Z eqn:H400.
  { destruct (strings_Contains body validationMarker) eqn:Hmark;
      unfold accepted; cbn.
    - split; [|done]. intros _. right. split; [lia|done].
    - split; [done|]. intros [?|[_ ?]]; [lia|congruence]. }
  destruct ((status =? 500)%Z || (status =? 502)%Z || (status =? 503)%Z).
  - apply IH. right. unfold accepted. cbn. split; [done|].
    intros [?|[? _]]; lia.
  - unfold accepted. cbn. split; [done|]. intros [?|[? _]]; lia.
Qed.
End UploadBounds.

(** X23.  Whatever the server answers, one [Upload] sends at most five
    requests and sleeps the first delays of the schedule, one after each
    request but possibly the last, a second at most in all.  It returns
    without error exactly when it returns the status 200, or the status
    400 with a body that holds the validation marker.  On a closed
    instance, or when the body cannot be read or the request cannot be
    built, nothing is sent, nothing is slept and the call returns an
    error. *)
Theorem Upload_bounds (newRequestErr : option string)
    (httpDo : nat → RoundTrip) (closed : bool) (readAll : option string) :
  sent (MixpanelBulker_Upload newRequestErr httpDo closed readAll) ≤ 5
  ∧ (∃ k, k ≤ 5
          ∧ slept (MixpanelBulker_Upload newRequestErr httpDo closed readAll)
            = take k retryDelaysMs
          ∧ (sent (MixpanelBulker_Upload newRequestErr httpDo closed readAll)
             = k
             ∨ sent (MixpanelBulker_Upload newRequestErr httpDo closed
                       readAll) = k + 1))
  ∧ (foldr Z.add 0
       (slept (MixpanelBulker_Upload newRequestErr httpDo closed readAll))
     ≤ 1000)%Z
  ∧ accepted (MixpanelBulker_Upload newRequestErr httpDo closed readAll)
  ∧ (closed = true ∨ is_Some readAll ∨ is_Some newRequestErr →
     sent (MixpanelBulker_Upload newRequestErr httpDo closed readAll) = 0
     ∧ slept (MixpanelBulker_Upload newRequestErr httpDo closed readAll) = []
     ∧ is_Some (err (MixpanelBulker_Upload newRequestErr httpDo closed
                       readAll))).
Proof.
  unfold MixpanelBulker_Upload.
  destruct closed.
  { cbn. split; [lia|]. split; [exists 0; split; [lia|]; by split; [|left]|].
    split; [lia|]. split.
    - unfold accepted. cbn. split; [done|]. intros [?|[? _]]; lia.
    - intros _. by repeat split. }
  destruct readAll as [e|].
  { cbn. split; [lia|]. split; [exists 0; split; [lia|]; by split; [|left]|].
    split; [lia|]. split.
    - unfold accepted. cbn. split; [done|]. intros [?|[? _]]; lia.
    - intros _. by repeat split. }
  destruct (Upload_loop_bounds newRequestErr httpDo retryDelaysMs
              (mkUploadState 0 "" None [] 0)) as (k & Hk & Hslept & Hsent).
  cbn [slept sent app Nat.add] in Hslept, Hsent.
  change (length retryDelaysMs) with 5 in Hk, Hsent.
  split; [lia|]. split.
  { exists k. split; [done|]. split; [done|]. lia. }
  split.
  { rewrite Hslept. clear -Hk.
    do 6 (destruct k as [|k]; [by vm_compute|]). lia. }
  split.
  { apply Upload_loop_accepted. by left. }
  intros [?|[[? ?]|[e He]]]; [done|done|]. subst newRequestErr.
  cbn. split; [done|]. split; [done|]. by eexists.
Qed.

(** ** GoogleConfig.Validate *)

Lemma check_symbols_None string_of_rune IsLetterOrNumber symbols :
  check_symbols string_of_rune IsLetterOrNumber symbols = None
  ↔ Forall (λ symbol, symbol = 95%N ∨ IsLetterOrNumber symbol = true)
      symbols.
Proof.
  induction symbols as [|symbol rest IH]; cbn [check_symbols].
  { split; [by constructor|done]. }
  rewrite Forall_cons.
  destruct (N.eqb_spec symbol 95) as [->|Hne]; cbn [negb andb].
  - rewrite IH. split; [by split; [left|]|by intros [_ ?]].
  - destruct (IsLetterOrNumber symbol); cbn [negb].
    + rewrite IH. split; [by split; [right|]|by intros [_ ?]].
    + split; [done|]. by intros [[?|?] _].
Qed.

(** X24.  [GoogleConfig.Validate] refuses the nil receiver.  On a struct
    it returns no error exactly when the dataset name is empty, or at
    most 1024 bytes long and made of underscores, letters and numbers,
    and the key file is a JSON object with an entry that can be
    marshalled or a string that is not empty.  With an error the struct
    is left as it was; without, only the credentials are set, from the
    key file, and not even those for the key file [workload_identity].
    A dataset name that does not pass is reported whatever the key file
    is. *)
Theorem GoogleConfig_Validate_cases (runes : string → list N)
    (string_of_rune : N → string) (IsLetterOrNumber : N → bool)
    (JsonObject : Type) (JsonObject_len : JsonObject → nat)
    (Marshal : JsonObject → string + string) (c : GoogleConfig JsonObject) :
  (GoogleConfig_Validate runes string_of_rune IsLetterOrNumber
     JsonObject_len Marshal None).1 = Some "Google config is required"%string
  ∧ ((GoogleConfig_Validate runes string_of_rune IsLetterOrNumber
        JsonObject_len Marshal (Some c)).1 = None
     ↔ valid_dataset runes IsLetterOrNumber (Dataset c)
       ∧ valid_key_file JsonObject_len Marshal (KeyFile c))
  ∧ (is_Some (GoogleConfig_Validate runes string_of_rune IsLetterOrNumber
                JsonObject_len Marshal (Some c)).1 →
     (GoogleConfig_Validate runes string_of_rune IsLetterOrNumber
        JsonObject_len Marshal (Some c)).2 = Some c)
  ∧ ((GoogleConfig_Validate runes string_of_rune IsLetterOrNumber
        JsonObject_len Marshal (Some c)).1 = None →
     (GoogleConfig_Validate runes string_of_rune IsLetterOrNumber
        JsonObject_len Marshal (Some c)).2
     = Some (mkGoogleConfig (Bucket c) (Project c) (Dataset c) (KeyFile c)
               (Format c)
               (credentials_of Marshal (KeyFile c) (Credentials c))))
  ∧ (¬ valid_dataset runes IsLetterOrNumber (Dataset c) →
     ∀ c' : GoogleConfig JsonObject, Dataset c' = Dataset c →
       is_Some (GoogleConfig_Validate runes string_of_rune IsLetterOrNumber
                  JsonObject_len Marshal (Some c')).1
       ∧ (GoogleConfig_Validate runes string_of_rune IsLetterOrNumber
            JsonObject_len Marshal (Some c')).1
         = (GoogleConfig_Validate runes string_of_rune IsLetterOrNumber
              JsonObject_len Marshal (Some c)).1).
Proof.
  split; [done|].
  set (datasetErr d :=
         if negb (String.eqb d "") then
           if (1024 <? String.length d)%nat
           then Some ErrMalformedBQDataset
           else check_symbols string_of_rune IsLetterOrNumber (runes d)
         else None).
  assert (∀ d, datasetErr d = None ↔ valid_dataset runes IsLetterOrNumber d)
    as Hdataset.
  { intros d. unfold datasetErr, valid_dataset.
    destruct (String.eqb_spec d "") as [->|Hne]; cbn [negb].
    { split; [by left|done]. }
    destruct (Nat.ltb_spec 1024 (String.length d)) as [Hlong|Hshort].
    - split; [done|]. intros [?|[? _]]; [done|lia].
    - rewrite check_symbols_None. split; [by right|].
      by intros [?|[_ ?]]. }
  assert (∀ c0 : GoogleConfig JsonObject,
            ∀ e, datasetErr (Dataset c0) = Some e →
            GoogleConfig_Validate runes string_of_rune IsLetterOrNumber
              JsonObject_len Marshal (Some c0) = (Some e, Some c0)) as Hbad.
  { intros c0 e He. unfold GoogleConfig_Validate.
    fold (datasetErr (Dataset c0)). by rewrite He. }
  destruct (datasetErr (Dataset c)) as [e|] eqn:Herr.
  { assert (¬ valid_dataset runes IsLetterOrNumber (Dataset c)) as Hinvalid.
    { intros Hv. apply Hdataset in Hv. congruence. }
    rewrite (Hbad c e Herr). cbn [fst snd].
    split; [split; [done|by intros [? _]]|]. split; [done|].
    split; [done|]. intros _ c' Hc'. rewrite (Hbad c' e); [|by rewrite Hc'].
    split; [by eexists|done]. }
  assert (valid_dataset runes IsLetterOrNumber (Dataset c)) as Hvalid
    by (by apply Hdataset).
  unfold GoogleConfig_Validate. fold (datasetErr (Dataset c)).
  rewrite Herr. unfold valid_key_file, credentials_of.
  destruct (KeyFile c) as [o|keyFile|] eqn:Hkey.
  - destruct (Nat.eqb_spec (JsonObject_len o) 0) as [Hz|Hnz]; cbn [fst snd].
    + split; [split; [done|by intros [_ [? _]]]|]. split; [done|].
      split; [done|]. by intros Hinvalid.
    + destruct (Marshal o) as [b|e] eqn:Hm; cbn [fst snd].
      * split; [split; [|done]|].
        { intros _. split; [done|]. split; [done|]. by exists b. }
        split; [by intros [? ?]|]. split; [done|]. by intros Hinvalid.
      * split; [split; [done|by intros [_ [_ [? ?]]]]|]. split; [done|].
        split; [done|]. by intros Hinvalid.
  - destruct (String.eqb_spec keyFile "workload_identity") as [->|Hw];
      cbn [fst snd].
    { split; [split; [done|]|]; [done|]. split; [by intros [? ?]|].
      split; [|by intros Hinvalid]. intros _. f_equal.
      rewrite <- Hkey. by destruct c. }
    destruct (String.eqb_spec keyFile "") as [->|Hne]; cbn [fst snd].
    { split; [split; [done|by intros [_ ?]]|]. split; [done|].
      split; [done|]. by intros Hinvalid. }
    destruct (strings_Contains keyFile "{"); cbn [fst snd].
    + split; [split; [done|]|]; [done|]. split; [by intros [? ?]|].
      split; [done|]. by intros Hinvalid.
    + split; [split; [done|]|]; [done|]. split; [by intros [? ?]|].
      split; [done|]. by intros Hinvalid.
  - cbn [fst snd]. split; [split; [done|by intros [_ ?]]|]. split; [done|].
    split; [done|]. by intros Hinvalid.
Qed.

(** ** A value and its clone *)

(** X25.  A clone holds, name by name, the occurrence sets of the
    original and resolves to the same types; its fields satisfy the
    invariants if those of the original do.  Merging the clone into the
    original right after the call, or the original into the clone,
    changes nothing. *)
Theorem Clone_then_Merge_noop (parent : DataType → DataType)
    (order order' : list string) (σ : Store) (lf : loc)
    (F : gmap string Field) (c : loc) (σ' : Store) :
  fieldsObjects σ !! lf = Some F →
  range_order F order →
  Fields_allocated σ F →
  Fields_Clone order (Some lf) σ = (c, σ') →
  (∀ n fo, F !! n = Some fo →
     ∃ fc, fields_read σ' (Some c) !! n = Some fc
       ∧ occurrences σ' fc = occurrences σ fo
       ∧ (∀ t, resolves_to parent σ' fc t ↔ resolves_to parent σ fo t)
       ∧ (Field_ok parent σ fo → Field_ok parent σ' fc))
  ∧ Fields_Merge order' (Some lf) (Some c) σ' = Some σ'
  ∧ Fields_Merge order' (Some c) (Some lf) σ' = Some σ'.
Proof.
  intros HF Horder Halloc Hclone.
  destruct (Fields_Clone_effect order σ lf F c σ' HF Horder Hclone)
    as (Hfresh & Hother & Hold & C & HC & Hnone & Hentry & Hdist).
  assert (lf ≠ c) as Hlfc by (intros ->; congruence).
  assert (fieldsObjects σ' !! lf = Some F) as HF' by (by rewrite Hother).
  assert (fields_read σ' (Some c) = C) as HreadC.
  { cbn [fields_read]. by rewrite HC. }
  assert (fields_read σ' (Some lf) = F) as HreadF.
  { cbn [fields_read]. by rewrite HF'. }
  assert (∀ n fo, F !! n = Some fo →
            occ_read σ' (typeOccurrence fo) = occ_read σ (typeOccurrence fo))
    as Hkept.
  { intros n fo Hfo. destruct (typeOccurrence fo) as [l|] eqn:Hl; [|done].
    cbn [occ_read]. rewrite Hold; [done|].
    by eapply Field_allocated_ref. }
  assert (∀ n fo fc, F !! n = Some fo → C !! n = Some fc →
            dataType fc = dataType fo
            ∧ occ_read σ' (typeOccurrence fc)
              = occ_read σ (typeOccurrence fo)) as Hcopy.
  { intros n fo fc Hfo Hfc.
    destruct (Hentry n fc Hfc) as (fo' & l & m & Hfo' & -> & _ & Hm & Heq).
    assert (fo' = fo) as -> by congruence.
    split; [done|]. cbn [typeOccurrence occ_read]. rewrite Hm.
    cbn [default from_option id]. apply Heq. by apply (Halloc n). }
  assert (∀ n fo, F !! n = Some fo → is_Some (C !! n)) as Hsome.
  { intros n fo Hfo. destruct (C !! n) eqn:Hc; [by eexists|].
    apply Hnone in Hc. congruence. }
  split; [|split].
  - intros n fo Hfo. destruct (Hsome n fo Hfo) as [fc Hfc].
    destruct (Hcopy n fo fc Hfo Hfc) as [Hd Ho].
    exists fc. rewrite HreadC. split; [done|]. split; [|split].
    + unfold occurrences. by rewrite Ho.
    + intros t. by apply resolves_to_struct.
    + by apply Field_ok_struct.
  - apply (Fields_Merge_noop order' σ' lf (Some c) F HF').
    intros n fc _ Hfc. rewrite HreadC in Hfc.
    destruct (Hentry n fc Hfc) as (fo & _ & _ & Hfo & _).
    exists fo. split; [done|].
    destruct (Hcopy n fo fc Hfo Hfc) as [_ Ho].
    unfold occurrences. by rewrite Ho, (Hkept n fo Hfo).
  - apply (Fields_Merge_noop order' σ' c (Some lf) C HC).
    intros n fo _ Hfo. rewrite HreadF in Hfo.
    destruct (Hsome n fo Hfo) as [fc Hfc]. exists fc. split; [done|].
    destruct (Hcopy n fo fc Hfo Hfc) as [_ Ho].
    unfold occurrences. by rewrite Ho, (Hkept n fo Hfo).
Qed.

Lemma Clone_then_Merge_noop_witness :
  ∃ c σ',
    Fields_Clone ["b"; "a"]%string (Some 2%positive) sample_store = (c, σ')
    ∧ Fields_Merge ["a"; "b"]%string (Some 2%positive) (Some c) σ' = Some σ'
    ∧ Fields_Merge ["a"; "b"]%string (Some c) (Some 2%positive) σ' = Some σ'.
Proof.
  assert (fieldsObjects sample_store !! 2%positive = Some sample_G) as HG
    by reflexivity.
  assert (range_order sample_G ["b"; "a"]%string) as Ho.
  { apply range_order_decide. vm_compute. reflexivity. }
  assert (Fields_allocated sample_store sample_G) as Ha.
  { apply (bool_decide_unpack _). vm_compute. exact I. }
  destruct (Fields_Clone ["b"; "a"]%string (Some 2%positive) sample_store)
    as [c σ'] eqn:Hclone.
  exists c, σ'. split; [done|].
  exact (proj2 (Clone_then_Merge_noop chain_parent _ ["a"; "b"]%string
                  _ _ _ _ _ HG Ho Ha Hclone)).
Defined.

(** ** Merging two values in either order *)

Lemma disjoint_maps_ne F G n fo m go l :
  disjoint_maps F G → F !! n = Some fo → G !! m = Some go →
  typeOccurrence fo = Some l → typeOccurrence go ≠ Some l.
Proof.
  intros Hd Hfo Hgo Hl Hl'.
  apply (Hd n fo Hfo m go Hgo); [by rewrite Hl|congruence].
Qed.

Lemma disjoint_maps_sym F G : disjoint_maps F G → disjoint_maps G F.
Proof.
  intros Hd m go Hgo n fo Hfo [l Hl] Heq.
  apply (disjoint_maps_ne F G n fo m go l Hd Hfo Hgo); congruence.
Qed.

Lemma disjoint_maps_shared F G : disjoint_maps F G → shared_by_name F G.
Proof.
  intros Hd n fo Hfo m go Hgo Hsome Heq.
  by destruct (Hd n fo Hfo m go Hgo Hsome).
Qed.

(** One [f.Merge(g)] between values that share no occurrence map: what
    it makes of [f], and what it leaves alone. *)
Lemma Fields_Merge_round parent order σ lf lg F G :
  lf ≠ lg →
  fieldsObjects σ !! lf = Some F →
  fieldsObjects σ !! lg = Some G →
  range_order G order →
  Fields_ok parent σ F → Fields_ok parent σ G →
  shared_by_name F F → shared_by_name G G → disjoint_maps F G →
  ∃ σ' F',
    Fields_Merge order (Some lf) (Some lg) σ = Some σ'
    ∧ fieldsObjects σ' !! lf = Some F'
    ∧ (∀ l, l ≠ lf → fieldsObjects σ' !! l = fieldsObjects σ !! l)
    ∧ Fields_ok parent σ' F' ∧ shared_by_name F' F'
    ∧ (∀ n, name_occurrences σ' F' n
            = name_occurrences σ F n ∪ name_occurrences σ G n)
    ∧ (∀ X, disjoint_maps F X →
         (∀ n x, X !! n = Some x →
            occ_read σ' (typeOccurrence x) = occ_read σ (typeOccurrence x))
         ∧ (disjoint_maps G X → disjoint_maps F' X)).
Proof.
  intros Hne HF HG Horder HokF HokG HFF HGG Hdis.
  pose proof (disjoint_maps_shared F G Hdis) as HFG.
  assert (∀ n fo, F !! n = Some fo → is_Some (G !! n) →
            ∃ l m, typeOccurrence fo = Some l
                   ∧ occurrenceObjects σ !! l = Some m) as Halloc.
  { intros n fo Hfo _. eapply Field_ok_alloc. by apply (HokF n). }
  destruct (Fields_Merge_effect σ lf lg F G HF HG Halloc HFF HFG order Horder)
    as (σ' & F' & Hrun & Hother & HF' & Hk & Hdone & Hrest).
  pose proof (Fields_Merge_other_unmodified σ lf lg F G HF HG Halloc HFF HFG
                order σ' Horder Hrun) as [Hsame Hocc].
  assert (fields_read σ (Some lg) = G) as HreadG.
  { cbn [fields_read]. by rewrite HG. }
  rewrite HreadG in Hsame, Hocc.
  assert (∀ n e, F' !! n = Some e →
            (∃ fo, F !! n = Some fo
                   ∧ typeOccurrence e = typeOccurrence fo)
            ∨ (F !! n = None ∧ G !! n = Some e)) as Horigin.
  { intros n e He. rewrite Hk in He. unfold merged_entry in He.
    destruct (G !! n) as [go|] eqn:Hgo.
    - destruct (F !! n) as [fo|] eqn:Hfo.
      + left. exists fo. split; [done|]. by injection He as <-.
      + right. by injection He as <-.
    - left. by exists e. }
  assert (∀ n fo, F !! n = Some fo → G !! n = None →
            occ_read σ' (typeOccurrence fo) = occ_read σ (typeOccurrence fo))
    as Hkept.
  { intros n fo Hfo Hgo. destruct (typeOccurrence fo) as [l|] eqn:Hl; [|done].
    cbn [occ_read]. rewrite Hrest; [done|].
    intros n' fo' Hfo' [go' Hgo'] Hl'.
    assert (n' = n) as -> by (by apply (shared_by_name_eq F F n' n fo' fo l)).
    congruence. }
  assert (∀ n fo go, F !! n = Some fo → G !! n = Some go →
            occ_read σ' (typeOccurrence (merged_field σ fo go))
            = merged_occurrences (occ_read σ (typeOccurrence fo))
                (occurrences σ go)) as Hmerged.
  { intros n fo go Hfo Hgo.
    destruct (Halloc n fo Hfo) as (l & m & Hl & Hm); [by eexists|].
    cbn [merged_field typeOccurrence]. rewrite Hl. cbn [occ_read].
    by rewrite (Hdone n fo go l Hfo Hgo Hl). }
  exists σ', F'. split; [done|]. split; [done|]. split; [done|].
  split; [|split; [|split]].
  - intros n e He. rewrite Hk in He. unfold merged_entry in He.
    destruct (G !! n) as [go|] eqn:Hgo.
    + destruct (F !! n) as [fo|] eqn:Hfo.
      * injection He as <-. pose proof (HokF n fo Hfo) as [Hnempty Hcache].
        pose proof (Hmerged n fo go Hfo Hgo) as Hread.
        split.
        -- unfold occurrences. rewrite Hread, merged_occurrences_dom.
           intros Hempty. apply Hnempty. unfold occurrences.
           apply (anti_symm (⊆)); [|apply empty_subseteq].
           rewrite <- Hempty. apply union_subseteq_l.
        -- cbn [merged_field dataType]. case_decide as Hsub; [|by left].
           rewrite Hread. by rewrite merged_occurrences_subseteq.
      * injection He as <-. apply (Field_ok_struct parent σ σ' go go);
          [done| |by apply (HokG n)]. by apply (Hocc n).
    + apply (Field_ok_struct parent σ σ' e e); [done| |by apply (HokF n)].
      by apply (Hkept n).
  - intros n1 e1 He1 n2 e2 He2 [l Hl] Heq.
    destruct (Horigin n1 e1 He1) as [(fo1 & Hfo1 & Href1)|[_ Hg1]];
      destruct (Horigin n2 e2 He2) as [(fo2 & Hfo2 & Href2)|[_ Hg2]].
    + apply (shared_by_name_eq F F n1 n2 fo1 fo2 l); try done; congruence.
    + apply (shared_by_name_eq F G n1 n2 fo1 e2 l); try done; congruence.
    + symmetry.
      apply (shared_by_name_eq F G n2 n1 fo2 e1 l); try done; congruence.
    + apply (shared_by_name_eq G G n1 n2 e1 e2 l); try done; congruence.
  - intros n. unfold name_occurrences. rewrite Hk. unfold merged_entry.
    destruct (G !! n) as [go|] eqn:Hgo.
    + destruct (F !! n) as [fo|] eqn:Hfo; cbn [from_option].
      * unfold occurrences at 1. rewrite (Hmerged n fo go Hfo Hgo).
        by rewrite merged_occurrences_dom.
      * rewrite (left_id_L ∅ (∪)). unfold occurrences.
        by rewrite (Hocc n go Hgo).
    + destruct (F !! n) as [fo|] eqn:Hfo; cbn [from_option].
      * rewrite (right_id_L ∅ (∪)). unfold occurrences.
        by rewrite (Hkept n fo Hfo Hgo).
      * by rewrite (left_id_L ∅ (∪)).
  - intros X HFX. split.
    + intros n x Hx. destruct (typeOccurrence x) as [l|] eqn:Hl; [|done].
      cbn [occ_read]. rewrite Hrest; [done|].
      intros n' fo' Hfo' _ Hl'.
      by apply (disjoint_maps_ne F X n' fo' n x l HFX Hfo' Hx).
    + intros HGX n e He m x Hx [l Hl] Heq.
      destruct (Horigin n e He) as [(fo & Hfo & Href)|[_ Hg]].
      * apply (disjoint_maps_ne F X n fo m x l HFX Hfo Hx); congruence.
      * apply (disjoint_maps_ne G X n e m x l HGX Hg Hx); congruence.
Qed.

(** Two [f.Merge] calls in a row, with [g] and then with [h]. *)
Lemma Fields_Merge_two_rounds parent og oh σ lf lg lh F G H :
  lf ≠ lg → lf ≠ lh →
  fieldsObjects σ !! lf = Some F →
  fieldsObjects σ !! lg = Some G →
  fieldsObjects σ !! lh = Some H →
  range_order G og → range_order H oh →
  Fields_ok parent σ F → Fields_ok parent σ G → Fields_ok parent σ H →
  shared_by_name F F → shared_by_name G G → shared_by_name H H →
  disjoint_maps F G → disjoint_maps F H → disjoint_maps G H →
  ∃ σ1 σ2 F2,
    Fields_Merge og (Some lf) (Some lg) σ = Some σ1
    ∧ Fields_Merge oh (Some lf) (Some lh) σ1 = Some σ2
    ∧ fieldsObjects σ2 !! lf = Some F2
    ∧ Fields_ok parent σ2 F2
    ∧ ∀ n, name_occurrences σ2 F2 n
           = name_occurrences σ F n ∪ name_occurrences σ G n
             ∪ name_occurrences σ H n.
Proof.
  intros Hfg Hfh HF HG HH Hog Hoh HokF HokG HokH HFF HGG HHH HdFG HdFH HdGH.
  destruct (Fields_Merge_round parent og σ lf lg F G) as
    (σ1 & F1 & Hrun1 & HF1 & Hother1 & Hok1 & Hsh1 & Hocc1 & Hframe1);
    try done.
  destruct (Hframe1 H HdFH) as [HkeptH HdF1H].
  specialize (HdF1H HdGH).
  assert (fieldsObjects σ1 !! lh = Some H) as HH1.
  { rewrite Hother1; [done|]. by intros ->. }
  assert (Fields_ok parent σ1 H) as HokH1.
  { intros n x Hx. apply (Field_ok_struct parent σ σ1 x x);
      [done| |by apply (HokH n)]. by apply (HkeptH n). }
  destruct (Fields_Merge_round parent oh σ1 lf lh F1 H) as
    (σ2 & F2 & Hrun2 & HF2 & Hother2 & Hok2 & Hsh2 & Hocc2 & _);
    try done.
  exists σ1, σ2, F2. split; [done|]. split; [done|]. split; [done|].
  split; [done|]. intros n. rewrite Hocc2, Hocc1. f_equal.
  unfold name_occurrences. destruct (H !! n) as [x|] eqn:Hx; [|done].
  cbn [from_option]. unfold occurrences. by rewrite (HkeptH n x Hx).
Qed.

(** X26.  Let [f], [g] and [h] be three Fields values whose fields
    satisfy the invariants of a field and that share no occurrence map,
    neither within one value under two names nor between two values.
    Then merging [g] and then [h] into [f] leaves [f] with the same names
    as merging [h] and then [g], and under every name with the same
    occurrence set, the union of those of the three values, and the same
    resolved type. *)
Theorem Fields_Merge_commutes (parent : DataType → DataType)
    (og oh : list string) (σ : Store) (lf lg lh : loc)
    (F G H : gmap string Field) :
  hierarchy parent →
  lf ≠ lg → lf ≠ lh →
  fieldsObjects σ !! lf = Some F →
  fieldsObjects σ !! lg = Some G →
  fieldsObjects σ !! lh = Some H →
  range_order G og → range_order H oh →
  Fields_ok parent σ F → Fields_ok parent σ G → Fields_ok parent σ H →
  shared_by_name F F → shared_by_name G G → shared_by_name H H →
  disjoint_maps F G → disjoint_maps F H → disjoint_maps G H →
  ∃ σ1 σ2 τ1 τ2,
    Fields_Merge og (Some lf) (Some lg) σ = Some σ1
    ∧ Fields_Merge oh (Some lf) (Some lh) σ1 = Some σ2
    ∧ Fields_Merge oh (Some lf) (Some lh) σ = Some τ1
    ∧ Fields_Merge og (Some lf) (Some lg) τ1 = Some τ2
    ∧ dom (fields_read σ2 (Some lf)) = dom (fields_read τ2 (Some lf))
    ∧ ∀ n e e',
        fields_read σ2 (Some lf) !! n = Some e →
        fields_read τ2 (Some lf) !! n = Some e' →
        occurrences σ2 e = occurrences τ2 e'
        ∧ occurrences σ2 e
          = name_occurrences σ F n ∪ name_occurrences σ G n
            ∪ name_occurrences σ H n
        ∧ ∀ t, resolves_to parent σ2 e t ↔ resolves_to parent τ2 e' t.
Proof.
  intros Hh Hfg Hfh HF HG HH Hog Hoh HokF HokG HokH HFF HGG HHH
    HdFG HdFH HdGH.
  destruct (Fields_Merge_two_rounds parent og oh σ lf lg lh F G H)
    as (σ1 & σ2 & F2 & Hrun1 & Hrun2 & HF2 & Hok2 & Hocc2); try done.
  destruct (Fields_Merge_two_rounds parent oh og σ lf lh lg F H G)
    as (τ1 & τ2 & E2 & Hrun1' & Hrun2' & HE2 & Hok2' & Hocc2'); try done.
  { by apply disjoint_maps_sym. }
  exists σ1, σ2, τ1, τ2. do 4 (split; [done|]).
  assert (fields_read σ2 (Some lf) = F2) as ->.
  { cbn [fields_read]. by rewrite HF2. }
  assert (fields_read τ2 (Some lf) = E2) as ->.
  { cbn [fields_read]. by rewrite HE2. }
  assert (∀ n, name_occurrences σ2 F2 n = name_occurrences τ2 E2 n) as Heq.
  { intros n. rewrite Hocc2, Hocc2'.
    rewrite <- !(assoc_L (∪)). f_equal. apply (comm_L (∪)). }
  assert (∀ ρ X n, Fields_ok parent ρ X →
            n ∈ dom X ↔ name_occurrences ρ X n ≠ ∅) as Hpresent.
  { intros ρ X n Hok. rewrite elem_of_dom. unfold name_occurrences.
    destruct (X !! n) as [x|] eqn:Hx; cbn [from_option].
    - split; [intros _|by eexists]. by apply (Hok n x Hx).
    - split; [by intros [? ?]|done]. }
  split.
  - apply set_eq. intros n.
    by rewrite (Hpresent σ2 F2 n Hok2), (Hpresent τ2 E2 n Hok2'), Heq.
  - intros n e e' He He'.
    assert (occurrences σ2 e = occurrences τ2 e') as Hocc.
    { pose proof (Heq n) as Hn. unfold name_occurrences in Hn.
      by rewrite He, He' in Hn. }
    split; [done|]. split.
    { pose proof (Hocc2 n) as Hn. unfold name_occurrences in Hn at 1.
      by rewrite He in Hn. }
    intros t.
    rewrite (resolves_to_join parent Hh σ2 e t (Hok2 n e He)).
    rewrite (resolves_to_join parent Hh τ2 e' t (Hok2' n e' He')).
    assert (fold_common parent (keys (occ_read σ2 (typeOccurrence e)))
            = fold_common parent (keys (occ_read τ2 (typeOccurrence e'))))
      as ->; [|done].
    apply (fold_common_perm parent Hh).
    eapply range_order_perm; [apply range_order_keys|].
    split; [apply NoDup_fst_map_to_list|].
    rewrite list_to_set_keys. by symmetry.
Qed.

Lemma Fields_Merge_commutes_witness :
  ∃ σ1 σ2 τ1 τ2,
    Fields_Merge ["a"; "b"]%string (Some 1%positive) (Some 2%positive)
      sample_store_three = Some σ1
    ∧ Fields_Merge ["c"; "b"]%string (Some 1%positive) (Some 3%positive)
        σ1 = Some σ2
    ∧ Fields_Merge ["c"; "b"]%string (Some 1%positive) (Some 3%positive)
        sample_store_three = Some τ1
    ∧ Fields_Merge ["a"; "b"]%string (Some 1%positive) (Some 2%positive)
        τ1 = Some τ2
    ∧ dom (fields_read σ2 (Some 1%positive))
      = dom (fields_read τ2 (Some 1%positive)).
Proof.
  assert (fieldsObjects sample_store_three !! 1%positive = Some sample_F)
    as HF by reflexivity.
  assert (fieldsObjects sample_store_three !! 2%positive = Some sample_G)
    as HG by reflexivity.
  assert (fieldsObjects sample_store_three !! 3%positive = Some sample_H)
    as HH by reflexivity.
  assert (range_order sample_G ["a"; "b"]%string) as Hog.
  { apply range_order_decide. vm_compute. reflexivity. }
  assert (range_order sample_H ["c"; "b"]%string) as Hoh.
  { apply range_order_decide. vm_compute. reflexivity. }
  destruct (Fields_Merge_commutes chain_parent _ _ _ _ _ _ _ _ _
              hierarchy_chain (ltac:(done) : 1%positive ≠ 2%positive)
              (ltac:(done) : 1%positive ≠ 3%positive) HF HG HH Hog Hoh)
    as (σ1 & σ2 & τ1 & τ2 & H1 & H2 & H3 & H4 & Hdom & _).
  all: try (apply (bool_decide_unpack _); vm_compute; exact I).
  by exists σ1, σ2, τ1, τ2.
Defined.

(** ** Entries taken over from the other value *)



(** X28.  Let [f] and [g] be two Fields values such that every entry of
    [f] under a name of [g] has an occurrence map and occurrence maps are
    shared, if at all, under one name.  Then [f.Merge(g)] and [f.Add(g)]
    return and leave the type suggestions of the entries [f] had as they
    were, whatever [g] suggests under the same name, and take over the
    suggestion of [g] with an entry only [g] had: [GetSuggestedSQLType]
    answers on the entries of [f] as it did before on the entry of [f],
    or else on that of [g]. *)
Theorem Fields_Merge_keeps_suggestions (order : list string) (σ : Store)
    (lf lg : loc) (F G : gmap string Field) :
  fieldsObjects σ !! lf = Some F →
  fieldsObjects σ !! lg = Some G →
  range_order G order →
  (∀ n fo, F !! n = Some fo → is_Some (G !! n) →
     ∃ l m, typeOccurrence fo = Some l ∧ occurrenceObjects σ !! l = Some m) →
  shared_by_name F F → shared_by_name F G →
  ∃ σm σa,
    Fields_Merge order (Some lf) (Some lg) σ = Some σm
    ∧ Fields_Add order (Some lf) (Some lg) σ = Some σa
    ∧ ∀ n e, (F ∪ G) !! n = Some e →
        ∃ em ea,
          fields_read σm (Some lf) !! n = Some em
          ∧ fields_read σa (Some lf) !! n = Some ea
          ∧ sqlTypeSuggestion em = sqlTypeSuggestion e
          ∧ sqlTypeSuggestion ea = sqlTypeSuggestion e
          ∧ ∀ d, Field_GetSuggestedSQLType em d
                 = Field_GetSuggestedSQLType e d
                 ∧ Field_GetSuggestedSQLType ea d
                   = Field_GetSuggestedSQLType e d.
Proof.
  intros HF HG Horder Halloc HFF HFG.
  destruct (Fields_Merge_effect σ lf lg F G HF HG Halloc HFF HFG order Horder)
    as (σm & F' & Hrun & _ & HF' & Hk & _).
  destruct (Fields_Add_effect σ lf lg F G HF HG order Horder)
    as (σa & Hruna & _ & Hfields).
  exists σm, σa. split; [done|]. split; [done|].
  intros n e He.
  assert (fields_read σa (Some lf) !! n = Some e) as Ha.
  { cbn [fields_read]. rewrite Hfields, lookup_insert_eq. done. }
  assert (∃ em, fields_read σm (Some lf) !! n = Some em
                ∧ sqlTypeSuggestion em = sqlTypeSuggestion e)
    as (em & Hm & Hs).
  { cbn [fields_read]. rewrite HF'. cbn [default from_option id].
    rewrite Hk. unfold merged_entry.
    destruct (F !! n) as [fo|] eqn:Hfo.
    - rewrite (lookup_union_Some_l F G n fo Hfo) in He.
      injection He as <-.
      destruct (G !! n) as [go|]; eexists; (split; [reflexivity|done]).
    - rewrite lookup_union_r in He by done. rewrite He.
      by exists e. }
  exists em, e. split; [done|]. split; [done|]. split; [done|].
  split; [done|]. intros d. split; [|done].
  unfold Field_GetSuggestedSQLType. by rewrite Hs.
Qed.

Lemma Fields_Merge_keeps_suggestions_witness :
  Field_GetSuggestedSQLType
    (mkField (Some STRING) (Some sample_suggestion) (Some 1%positive))
    "postgres" = (mkSQLColumn "jsonb" "json" true, true)
  ∧ Field_GetSuggestedSQLType
      (mkField (Some STRING) (Some sample_suggestion_other) (Some 2%positive))
      "postgres" = (mkSQLColumn "varchar" "varchar" true, true)
  ∧ ∃ σm σa am aa bm ba,
      Fields_Merge ["b"; "a"]%string (Some 1%positive) (Some 2%positive)
        sample_store_suggestions = Some σm
      ∧ Fields_Add ["b"; "a"]%string (Some 1%positive) (Some 2%positive)
          sample_store_suggestions = Some σa
      ∧ fields_read σm (Some 1%positive) !! "a"%string = Some am
      ∧ fields_read σa (Some 1%positive) !! "a"%string = Some aa
      ∧ fields_read σm (Some 1%positive) !! "b"%string = Some bm
      ∧ fields_read σa (Some 1%positive) !! "b"%string = Some ba
      ∧ Field_GetSuggestedSQLType am "postgres"
        = (mkSQLColumn "jsonb" "json" true, true)
      ∧ Field_GetSuggestedSQLType aa "postgres"
        = (mkSQLColumn "jsonb" "json" true, true)
      ∧ Field_GetSuggestedSQLType bm "postgres"
        = (mkSQLColumn "varchar" "varchar" true, true)
      ∧ Field_GetSuggestedSQLType ba "postgres"
        = (mkSQLColumn "varchar" "varchar" true, true).
Proof.
  split; [reflexivity|]. split; [reflexivity|].
  assert (fieldsObjects sample_store_suggestions !! 1%positive
          = Some sample_FS) as HF by reflexivity.
  assert (fieldsObjects sample_store_suggestions !! 2%positive
          = Some sample_GS) as HG by reflexivity.
  assert (range_order sample_GS ["b"; "a"]%string) as Ho.
  { apply range_order_decide. vm_compute. reflexivity. }
  destruct (Fields_Merge_keeps_suggestions _ _ _ _ _ _ HF HG Ho)
    as (σm & σa & Hm & Ha & Hall).
  - intros n fo Hfo _. unfold sample_FS in Hfo.
    apply lookup_singleton_Some in Hfo as [_ <-].
    exists 1%positive, {[ STRING := true ]}. by split.
  - apply (bool_decide_unpack _). vm_compute. exact I.
  - apply (bool_decide_unpack _). vm_compute. exact I.
  - destruct (Hall "a"%string
                (mkField (Some STRING) (Some sample_suggestion)
                   (Some 1%positive)) eq_refl)
      as (am & aa & Ham & Haa & _ & _ & Hda).
    destruct (Hall "b"%string
                (mkField (Some INT64) (Some sample_suggestion_other)
                   (Some 3%positive)) eq_refl)
      as (bm & ba & Hbm & Hba & _ & _ & Hdb).
    exists σm, σa, am, aa, bm, ba.
    split; [exact Hm|]. split; [exact Ha|]. split; [exact Ham|].
    split; [exact Haa|]. split; [exact Hbm|]. split; [exact Hba|].
    destruct (Hda "postgres"%string) as [-> ->].
    destruct (Hdb "postgres"%string) as [-> ->].
    by repeat split.
Defined.
